(** * Sutherland-Hodgman clipping server: a shallow embedding of [server.cpp]

    The development follows the layout of the C++ file: the [double]
    arithmetic, [Point] and [Edge] with [classify] and [intersect], the
    [Vertex] ring living in a heap of cells, [Polygon] with its cursor, and
    the two clipping procedures.  Pointer-manipulating code is written in a
    small state-and-fault monad over the heap; the ring is then related to
    the plain list of points met when walking clockwise from the cursor. *)

From Stdlib Require Import Floats ZArith Reals Lra String.
From stdpp Require Import gmap list.

#[local] Set Warnings "-clear-no-such-hyp".

(** ** The arithmetic of [double]

    The geometric code only uses the operations below.  They are gathered in
    an interface with two instances: IEEE binary64 (what the program runs
    on, assuming round-to-nearest and no fused or extended-precision
    evaluation) and the real numbers (the arithmetic the algebra is meant to
    approximate). *)

Class Double (F : Type) : Type := {
  d0 : F;                 (* the literal 0.0 (also the int 0 converted) *)
  d1 : F;                 (* the int 1 converted *)
  d1e_15 : F;             (* the literal 1e-15 *)
  dadd : F → F → F;
  dsub : F → F → F;
  dmul : F → F → F;
  ddiv : F → F → F;
  dlt : F → F → bool;     (* x < y *)
  dle : F → F → bool;     (* x <= y *)
  dabs : F → F;           (* std::abs *)
  dsqrt : F → F           (* std::sqrt *)
}.

Declare Scope dbl_scope.
Delimit Scope dbl_scope with D.
Infix "+" := dadd : dbl_scope.
Infix "-" := dsub : dbl_scope.
Infix "*" := dmul : dbl_scope.
Infix "/" := ddiv : dbl_scope.
Infix "<?" := dlt : dbl_scope.
Infix "<=?" := dle : dbl_scope.

#[export] Instance binary64 : Double float := {|
  d0 := 0%float;
  d1 := 1%float;
  d1e_15 := 0x1.203af9ee75616p-50%float;
  dadd := PrimFloat.add;
  dsub := PrimFloat.sub;
  dmul := PrimFloat.mul;
  ddiv := PrimFloat.div;
  dlt := PrimFloat.ltb;
  dle := PrimFloat.leb;
  dabs := PrimFloat.abs;
  dsqrt := PrimFloat.sqrt
|}.

Definition Rltb (x y : R) : bool := if Rlt_dec x y then true else false.
Definition Rleb (x y : R) : bool := if Rle_dec x y then true else false.

#[export] Instance exact : Double R := {|
  d0 := 0%R;
  d1 := 1%R;
  d1e_15 := 1e-15%R;
  dadd := Rplus;
  dsub := Rminus;
  dmul := Rmult;
  ddiv := Rdiv;
  dlt := Rltb;
  dle := Rleb;
  dabs := Rabs;
  dsqrt := sqrt
|}.

(** ** Points, edges and the classification of a point against an edge *)

Inductive PointClass : Set :=
  LEFT | RIGHT | BEHIND | BEYOND | BETWEEN | ORIGIN | DESTINATION.

#[export] Instance PointClass_eq_dec : EqDecision PointClass.
Proof. solve_decision. Defined.

Inductive Rotation : Set := CLOCKWISE | COUNTER_CLOCKWISE.

#[export] Instance Rotation_eq_dec : EqDecision Rotation.
Proof. solve_decision. Defined.

Section Geometry.
Context {F : Type} `{Double F}.
Local Open Scope dbl_scope.

Record Point : Type := mkPoint { x : F; y : F }.

Record Edge : Type := mkEdge { org : Point; dest : Point }.

(** [Point::operator==]: squared distance below 1e-15. *)
Definition Point_eq (p other : Point) : bool :=
  (x p - x other) * (x p - x other) + (y p - y other) * (y p - y other)
    <? d1e_15.

Definition Point_ne (p other : Point) : bool := negb (Point_eq p other).

(** [Point::operator-] *)
Definition Point_sub (p other : Point) : Point :=
  mkPoint (x p - x other) (y p - y other).

(** [Point::length] *)
Definition Point_length (p : Point) : F := dsqrt (x p * x p + y p * y p).

(** The signed area computed at the top of [Point::classify]. *)
Definition sa (p : Point) (e : Edge) : F :=
  let a := Point_sub (dest e) (org e) in
  let b := Point_sub p (org e) in
  x a * y b - x b * y a.

(** [Point::classify] *)
Definition Point_classify (p : Point) (e : Edge) : PointClass :=
  let a := Point_sub (dest e) (org e) in
  let b := Point_sub p (org e) in
  let sa := x a * y b - x b * y a in
  if d0 <? sa then LEFT
  else if sa <? d0 then RIGHT
  else if (x a * x b <? d0) || (y a * y b <? d0) then BEHIND
  else if Point_length a <? Point_length b then BEYOND
  else if Point_eq (org e) p then ORIGIN
  else if Point_eq (dest e) p then DESTINATION
  else BETWEEN.

(** [Edge::point] *)
Definition Edge_point (e : Edge) (t : F) : Point :=
  mkPoint (x (org e) + t * (x (dest e) - x (org e)))
          (y (org e) + t * (y (dest e) - y (org e))).

(** The determinant computed by [Edge::intersect]. *)
Definition denom (this e : Edge) : F :=
  let a := x (dest this) - x (org this) in
  let b := x (org e) - x (dest e) in
  let c := y (dest this) - y (org this) in
  let d := y (org e) - y (dest e) in
  a * d - b * c.

(** [Edge::intersect].  The C++ function returns a flag and writes the
    reference parameter [t] only after the determinant test; the second
    component is [Some t] when [t] has been written and [None] when the
    caller's variable is left as it was. *)
Definition Edge_intersect (this e : Edge) : bool * option F :=
  let a := x (dest this) - x (org this) in
  let b := x (org e) - x (dest e) in
  let c := y (dest this) - y (org this) in
  let d := y (org e) - y (dest e) in
  let denom := a * d - b * c in
  if dabs denom <? d1e_15 then (false, None)
  else
    let e1 := x (org e) - x (org this) in
    let e2 := y (org e) - y (org this) in
    let t := (e1 * d - e2 * b) / denom in
    let u := (e1 * c - e2 * a) / denom in
    ((d0 <=? t) && (t <=? d1) && (d0 <=? u) && (u <=? d1), Some t).

(** The decision table of [classify], test by test: the sign of the signed
    area first; then, when it is neither positive nor negative, the four
    tests on the projections, the lengths and the two end points. *)
Definition classify_table (p : Point) (e : Edge) : Prop :=
  let a := Point_sub (dest e) (org e) in
  let b := Point_sub p (org e) in
  let behind := (x a * x b <? d0) || (y a * y b <? d0) in
  let beyond := Point_length a <? Point_length b in
  let c := Point_classify p e in
  (c = LEFT ↔ (d0 <? sa p e) = true) ∧
  (c = RIGHT ↔ (sa p e <? d0) = true) ∧
  ((d0 <? sa p e) = false → (sa p e <? d0) = false →
   (c = BEHIND ↔ behind = true) ∧
   (c = BEYOND ↔ behind = false ∧ beyond = true) ∧
   (c = ORIGIN ↔ behind = false ∧ beyond = false ∧ Point_eq (org e) p = true) ∧
   (c = DESTINATION ↔
      behind = false ∧ beyond = false ∧ Point_eq (org e) p = false ∧
      Point_eq (dest e) p = true) ∧
   (c = BETWEEN ↔
      behind = false ∧ beyond = false ∧ Point_eq (org e) p = false ∧
      Point_eq (dest e) p = false)).

(** The two end points of [e] differ. *)
Definition nondegenerate (e : Edge) : Prop :=
  x (org e) ≠ x (dest e) ∨ y (org e) ≠ y (dest e).
End Geometry.

Arguments Point F : clear implicits.
Arguments Edge F : clear implicits.

(** Points and edges with binary64 coordinates. *)
Definition fpt (a b : float) : Point float := mkPoint a b.
Definition fedge (a b c d : float) : Edge float := mkEdge (fpt a b) (fpt c d).


(** ** The heap of vertices

    A [Vertex] is a [Point] with two raw links.  Vertices live in cells of
    a heap addressed by positive numbers; the null pointer is [None].  [new]
    takes an address that is not in use, [delete] gives it back.  The heap
    has no bound: [new] always finds a cell, and the [std::bad_alloc] of a
    program that runs out of memory is left out of the model. *)

Abbreviation addr := positive (only parsing).
Abbreviation ptr := (option positive) (only parsing).

Inductive Fault : Set :=
| runtime_error (what : string)   (* a C++ exception reaching the caller *)
| undefined_behaviour             (* null or dangling dereference, read of an
                                     unassigned variable, int overflow *)
| out_of_fuel.                    (* a [while] loop did not finish in time *)

Section Heap.
Context {F : Type} `{Double F}.

Record Vertex : Type := mkVertex { pt : Point F; _next : ptr; _prev : ptr }.

(** A computation runs from a heap and either returns a value and the heap
    it leaves, or stops on a fault. *)
Inductive Outcome (A : Type) : Type :=
| Ret (a : A) (h : gmap addr Vertex)
| Fail (f : Fault).
Arguments Ret {A} a h.
Arguments Fail {A} f.

Definition M (A : Type) : Type := gmap addr Vertex → Outcome A.

Definition ret {A} (a : A) : M A := λ h, Ret a h.
Definition fail {A} (f : Fault) : M A := λ _, Fail f.
Definition bind {A B} (m : M A) (k : A → M B) : M B :=
  λ h, match m h with Ret a h' => k a h' | Fail f => Fail f end.

Notation "'let*' x ':=' m 'in' k" := (bind m (λ x, k))
  (at level 10, x pattern, m at level 100, k at level 200).

(** *** Memory accesses

    [new Vertex(p)], [delete v], the read of [*v] and the write of one field
    of [*v].  Reading or writing through a null pointer or a pointer to a
    cell that is not allocated is undefined behaviour; [delete] of a null
    pointer does nothing. *)

Definition new_Vertex (p : Point F) : M ptr :=
  λ h, let a := fresh (dom h) in Ret (Some a) (<[a := mkVertex p None None]> h).

Definition delete_Vertex (v : ptr) : M unit :=
  λ h, match v with
       | None => Ret tt h
       | Some a => match h !! a with
                   | Some _ => Ret tt (delete a h)
                   | None => Fail undefined_behaviour
                   end
       end.

Definition deref (v : ptr) : M Vertex :=
  λ h, match v with
       | None => Fail undefined_behaviour
       | Some a => match h !! a with
                   | Some c => Ret c h
                   | None => Fail undefined_behaviour
                   end
       end.

Definition store (v : ptr) (f : Vertex → Vertex) : M unit :=
  λ h, match v with
       | None => Fail undefined_behaviour
       | Some a => match h !! a with
                   | Some _ => Ret tt (alter f a h)
                   | None => Fail undefined_behaviour
                   end
       end.

Definition get_next (v : ptr) : M ptr := let* c := deref v in ret (_next c).
Definition get_prev (v : ptr) : M ptr := let* c := deref v in ret (_prev c).
Definition set_next (v n : ptr) : M unit :=
  store v (λ c, mkVertex (pt c) n (_prev c)).
Definition set_prev (v p : ptr) : M unit :=
  store v (λ c, mkVertex (pt c) (_next c) p).

(** *** [class Vertex]

    [this] is the pointer the method is called on.  [neighbor] takes an
    [int] in the source; its callers pass one of the two enumerators. *)

Definition Vertex_cw (this : ptr) : M ptr := get_next this.
Definition Vertex_ccw (this : ptr) : M ptr := get_prev this.
Definition Vertex_neighbor (this : ptr) (rotation : Rotation) : M ptr :=
  if decide (rotation = CLOCKWISE) then Vertex_cw this else Vertex_ccw this.

Definition Vertex_insert (this v : ptr) : M ptr :=
  let* n := get_next this in
  let* _ := set_next v n in
  let* _ := set_prev v this in
  let* n := get_next this in
  let* _ := (if n is Some _ then set_prev n v else ret tt) in
  let* _ := set_next this v in
  ret v.

Definition Vertex_remove (this : ptr) : M ptr :=
  let* p := get_prev this in
  let* _ := (if p is Some _
             then let* n := get_next this in set_next p n
             else ret tt) in
  let* n := get_next this in
  let* _ := (if n is Some _
             then let* p := get_prev this in set_prev n p
             else ret tt) in
  let* _ := set_prev this None in
  let* _ := set_next this None in
  ret this.

(** *** [class Polygon]

    A [Polygon] object is the pair of its two fields; methods that change
    them return the new object. *)

Record Polygon : Type := mkPolygon { _v : ptr; _size : Z }.

Definition INT_MAX : Z := 2147483647.

Definition Polygon_new : Polygon := mkPolygon None 0.

Definition Polygon_insert (this : Polygon) (p : Point F) : M Polygon :=
  let* v := new_Vertex p in
  let* this :=
    (if _v this is Some _
     then let* _ := Vertex_insert (_v this) v in ret this
     else let this := mkPolygon v (_size this) in
          let* _ := set_prev (_v this) (_v this) in
          let* _ := set_next (_v this) (_v this) in
          ret this) in
  if (_size this <? INT_MAX)%Z
  then ret (mkPolygon (_v this) (_size this + 1))
  else fail undefined_behaviour.

(** The copy constructor: a [do ... while] walk over the other ring. *)
Fixpoint Polygon_copy_loop (fuel : nat) (other_v current : ptr)
    (this : Polygon) : M Polygon :=
  match fuel with
  | O => fail out_of_fuel
  | S fuel =>
      let* c := deref current in
      let* this := Polygon_insert this (pt c) in
      let* current := Vertex_cw current in
      if decide (current ≠ other_v)
      then Polygon_copy_loop fuel other_v current this
      else ret this
  end.

Definition Polygon_copy (fuel : nat) (other : Polygon) : M Polygon :=
  if _v other is Some _
  then Polygon_copy_loop fuel (_v other) (_v other) Polygon_new
  else ret Polygon_new.

(** The destructor. *)
Fixpoint Polygon_delete_loop (fuel : nat) (v w : ptr) : M unit :=
  match fuel with
  | O => fail out_of_fuel
  | S fuel =>
      if decide (w ≠ v)
      then let* r := Vertex_remove w in
           let* _ := delete_Vertex r in
           let* w := Vertex_cw v in
           Polygon_delete_loop fuel v w
      else ret tt
  end.

Definition Polygon_delete (fuel : nat) (this : Polygon) : M unit :=
  if _v this is Some _
  then let* w := Vertex_cw (_v this) in
       let* _ := Polygon_delete_loop fuel (_v this) w in
       delete_Vertex (_v this)
  else ret tt.

Definition Polygon_edge (this : Polygon) : M (Edge F) :=
  if _v this is Some _
  then let* a := deref (_v this) in
       let* n := Vertex_cw (_v this) in
       let* b := deref n in
       ret (mkEdge (pt a) (pt b))
  else fail (runtime_error "Polygon is empty").

Definition Polygon_getPoint (this : Polygon) : M (Point F) :=
  let* c := deref (_v this) in ret (pt c).

Definition Polygon_advance (this : Polygon) (rotation : Rotation)
    : M Polygon :=
  let* n := Vertex_neighbor (_v this) rotation in
  ret (mkPolygon n (_size this)).

Definition Polygon_size (this : Polygon) : Z := _size this.

Definition Polygon_cw (this : Polygon) : M ptr := Vertex_cw (_v this).

(** ** The clipping procedures *)

(** The body of the [for] loop of [clipPolygonToEdge]: [s] is the subject,
    [p] the polygon under construction. *)
Definition clip_body (s : Polygon) (e : Edge F) (p : Polygon) : M Polygon :=
  let* org := Polygon_getPoint s in
  let* c := Polygon_cw s in
  let* cv := deref c in
  let dest := pt cv in
  let orgInside := bool_decide (Point_classify org e ≠ LEFT) in
  let destInside := bool_decide (Point_classify dest e ≠ LEFT) in
  if negb (eqb orgInside destInside) then
    let* se := Polygon_edge s in
    match snd (Edge_intersect e se) with
    | None => fail undefined_behaviour
    | Some t =>
        let cross := Edge_point e t in
        if orgInside then Polygon_insert p cross
        else let* p := Polygon_insert p cross in Polygon_insert p dest
    end
  else if orgInside then Polygon_insert p dest
  else ret p.

(** The loop runs [s.size()] times: neither [advance] nor the insertions
    into [p] change [s._size]. *)
Fixpoint clip_loop (n : nat) (s : Polygon) (e : Edge F) (p : Polygon)
    : M (Polygon * Polygon) :=
  match n with
  | O => ret (s, p)
  | S n =>
      let* p := clip_body s e p in
      let* s := Polygon_advance s CLOCKWISE in
      clip_loop n s e p
  end.

(** [clipPolygonToEdge(s, e, result)] returns the subject as the call leaves
    it, the polygon stored in [result], and the flag. *)
Definition clipPolygonToEdge (s : Polygon) (e : Edge F)
    : M (Polygon * Polygon * bool) :=
  let* (s, p) := clip_loop (Z.to_nat (Polygon_size s)) s e Polygon_new in
  ret (s, p, (0 <? Polygon_size p)%Z).

(** The loop of [clipPolygon]; [None] stands for the early [return false]. *)
Fixpoint clipPolygon_loop (fuel : nat) (n : nat) (q p : Polygon)
    : M (Polygon * option Polygon) :=
  match n with
  | O => ret (p, Some q)
  | S n =>
      let* e := Polygon_edge p in
      let* (q, r, ok) := clipPolygonToEdge q e in
      if negb ok then
        let* _ := Polygon_delete fuel q in
        ret (p, None)
      else
        let* _ := Polygon_delete fuel q in
        let* p := Polygon_advance p CLOCKWISE in
        clipPolygon_loop fuel n r p
  end.

(** [clipPolygon(s, p, result)]: [result] is the caller's pointer on entry
    ([None] for a null pointer); the outcome lists the cutter as the call
    leaves it, the caller's pointer on exit and the returned flag. *)
Definition clipPolygon (fuel : nat) (s p : Polygon) (result : option Polygon)
    : M (Polygon * option Polygon * bool) :=
  let* q := Polygon_copy fuel s in
  let* (p, r) := clipPolygon_loop fuel (Z.to_nat (Polygon_size p)) q p in
  match r with
  | None => ret (p, result, false)
  | Some q => ret (p, Some q, true)
  end.

(** The points met when walking clockwise from the cursor until it comes
    back, as the server prints them. *)
Fixpoint walk_loop (fuel : nat) (start v : ptr) : M (list (Point F)) :=
  match fuel with
  | O => fail out_of_fuel
  | S fuel =>
      let* c := deref v in
      let* v := Vertex_cw v in
      if decide (v ≠ start)
      then let* l := walk_loop fuel start v in ret (pt c :: l)
      else ret [pt c]
  end.

Definition walk (fuel : nat) (this : Polygon) : M (list (Point F)) :=
  walk_loop fuel (_v this) (_v this).

(** Building a polygon as the server does from its input. *)
Fixpoint build (l : list (Point F)) (this : Polygon) : M Polygon :=
  match l with
  | [] => ret this
  | p :: l => let* this := Polygon_insert this p in build l this
  end.

(** The exchange served by [main]: the two polygons of the request are
    built, clipped, and the result, if there is one, is printed with its
    size and its vertices, walked once from the cursor.  (Releasing the
    three polygons afterwards is not part of the response.) *)
Inductive Response : Type :=
| OK (n : Z) (vertices : list (Point F))
| FAIL.

Definition respond (fuel : nat) (ls lp : list (Point F)) : M Response :=
  let* s := build ls Polygon_new in
  let* p := build lp Polygon_new in
  let* (p, result, ok) := clipPolygon fuel s p None in
  if ok then
    match result with
    | Some r => let* l := walk fuel r in ret (OK (Polygon_size r) l)
    | None => fail undefined_behaviour
    end
  else ret FAIL.

(** The [try] block of [main] for a request that carries the two polygons
    [ls] and [lp] (the text of the request is taken as already read, the
    two counts being the lengths of the lists): the polygons are built,
    clipped, the result is walked and deleted, and the two polygons are
    destroyed when the block is left. *)
Definition handle (fuel : nat) (ls lp : list (Point F)) : M Response :=
  let* s := build ls Polygon_new in
  let* p := build lp Polygon_new in
  let* (p, result, ok) := clipPolygon fuel s p None in
  let* response :=
    (if ok then
       match result with
       | Some r => let* l := walk fuel r in
                   let* _ := Polygon_delete fuel r in
                   ret (OK (Polygon_size r) l)
       | None => fail undefined_behaviour
       end
     else ret FAIL) in
  let* _ := Polygon_delete fuel p in
  let* _ := Polygon_delete fuel s in
  ret response.

End Heap.

Arguments Vertex F : clear implicits.
Arguments Outcome F A : clear implicits.
Arguments Ret {F A} a h.
Arguments Fail {F A} f.
Arguments M F A : clear implicits.
Arguments Response F : clear implicits.
Arguments FAIL {F}.

Notation "'let*' x ':=' m 'in' k" := (bind m (λ x, k))
  (at level 10, x pattern, m at level 100, k at level 200).


(** Where [Polygon::insert] puts a new element: right after the cursor. *)
Definition ins {A} (x : A) (l : list A) : list A :=
  match l with
  | [] => [x]
  | c :: rest => c :: x :: rest
  end.

(** ** Rings of vertices and the polygons they represent *)

Section Representation.
Context {F : Type} `{Double F}.
Implicit Types (h : gmap addr (Vertex F)) (l : list (addr * Point F)).

(** The three views of a heap the ring structure is made of. *)
Definition nxt (h : gmap addr (Vertex F)) (a : addr) : ptr := h !! a ≫= _next.
Definition prv (h : gmap addr (Vertex F)) (a : addr) : ptr := h !! a ≫= _prev.
Definition pnt (h : gmap addr (Vertex F)) (a : addr) : option (Point F) :=
  pt <$> h !! a.

Definition upd_next (a : addr) (n : ptr) (h : gmap addr (Vertex F)) :=
  alter (λ c, mkVertex (pt c) n (_prev c)) a h.
Definition upd_prev (a : addr) (p : ptr) (h : gmap addr (Vertex F)) :=
  alter (λ c, mkVertex (pt c) (_next c) p) a h.

(** [b] is the clockwise neighbour of [a], and [a] the counter-clockwise
    neighbour of [b]. *)
Definition link h (a b : addr) : Prop := nxt h a = Some b ∧ prv h b = Some a.

(** A doubly linked path from [a] through [m] to [z]. *)
Fixpoint chain h (a : addr) (m : list addr) (z : addr) : Prop :=
  match m with
  | [] => link h a z
  | b :: m => link h a b ∧ chain h b m z
  end.

(** [l] lists the cells of a ring clockwise from its first element, each
    with the point it holds. *)
Definition ring h l : Prop :=
  match l with
  | [] => True
  | (a, _) :: rest =>
      NoDup l.*1 ∧ chain h a rest.*1 a ∧ Forall (λ ap, pnt h ap.1 = Some ap.2) l
  end.

(** The polygon object [P] stands for the ring [l] in the heap [h]. *)
Definition is_polygon h (P : Polygon) l : Prop :=
  _v P = head l.*1 ∧ _size P = Z.of_nat (length l) ∧
  (_size P ≤ INT_MAX)%Z ∧ ring h l.


(** The heap after [Vertex::insert] of a new cell [a] holding [p] after
    [a0], whose clockwise neighbour is [n0]. *)
Definition spliced h (a : addr) (p : Point F) (a0 n0 : addr) :=
  upd_next a0 (Some a)
    (upd_prev n0 (Some a)
       (upd_prev a (Some a0)
          (upd_next a (Some n0) (<[a := mkVertex p None None]> h)))).

(** The loop body of [clipPolygonToEdge], run on the subject [s] and the
    polygon under construction [p], which stands for [lp], returns after
    inserting the points [out] into [p], in that order. *)
Definition emits h (s : Polygon) (e : Edge F) (p : Polygon) l
    (out : list (Point F)) : Prop :=
  ∃ p' h' l',
    clip_body s e p h = Ret p' h' ∧ is_polygon h' p' l' ∧
    l'.*2 = foldl (λ acc x, ins x acc) l.*2 out.

(** The four cases of the single-edge clip on the subject edge from [org] to
    [dest], for a given reading [inside] of the inside test; [t] is the
    parameter [intersect] assigns. *)
Definition clip_cases (inside : Point F → Prop) h (s : Polygon) (e : Edge F)
    (p : Polygon) l (org dest : Point F) : Prop :=
  (inside org → inside dest → emits h s e p l [dest]) ∧
  (inside org → ¬ inside dest →
   ∀ t, snd (Edge_intersect e (mkEdge org dest)) = Some t →
        emits h s e p l [Edge_point e t]) ∧
  (¬ inside org → inside dest →
   ∀ t, snd (Edge_intersect e (mkEdge org dest)) = Some t →
        emits h s e p l [Edge_point e t; dest]) ∧
  (¬ inside org → ¬ inside dest → emits h s e p l []).

(** [P] stands for some ring of the heap. *)
Definition Polygon_inv h (P : Polygon) : Prop := ∃ l, is_polygon h P l.

(** Following the clockwise links [n] times from [a]. *)
Fixpoint follow h (n : nat) (a : addr) : option addr :=
  match n with
  | O => Some a
  | S n => nxt h a ≫= follow h n
  end.

(** The invariant of [Polygon] as the design states it: an empty polygon has
    a null cursor; otherwise, from every vertex met when walking clockwise
    from the cursor, [_size] clockwise steps lead back to that vertex, and
    the two links are inverse to each other there. *)
Definition ring_invariant h (P : Polygon) : Prop :=
  (_size P = 0%Z → _v P = None) ∧
  (_size P ≠ 0%Z →
   ∃ c, _v P = Some c ∧
     ∀ k a, follow h k c = Some a →
       follow h (Z.to_nat (_size P)) a = Some a ∧
       (∃ b, nxt h a = Some b ∧ prv h b = Some a) ∧
       (∃ b, prv h a = Some b ∧ nxt h b = Some a)).

(** The heap after [delete w->remove()], where [a0] and [n1] are the
    counter-clockwise and the clockwise neighbour of [w]. *)
Definition unlinked h (w a0 n1 : addr) :=
  delete w
    (upd_next w None
       (upd_prev w None
          (upd_prev n1 (Some a0) (upd_next a0 (Some n1) h)))).

(** From [h] to [h'], the cells of [h] outside [X] are as they were, and [X']
    is made of cells of [X] and of cells that were not in use. *)
Definition frame h h' (X X' : list addr) : Prop :=
  (∀ b, b ∈ dom h → b ∉ X → h' !! b = h !! b) ∧
  (∀ b, b ∈ X' → b ∈ X ∨ b ∉ dom h).

(** The number of cells in use. *)
Definition cells h : Z := Z.of_nat (size (dom h)).
End Representation.

(** ** The same procedures on lists of points

    Each function below follows the control structure of its namesake but
    works on the list of points met clockwise from the cursor instead of the
    ring in the heap.  The faults that remain are those a well-formed ring
    does not exclude: the read of [t] when [intersect] did not assign it, and
    the overflow of [_size]. *)

Section Lists.
Context {F : Type} `{Double F}.

Definition rotate1 {A} (l : list A) : list A :=
  match l with
  | [] => []
  | c :: rest => rest ++ [c]
  end.

Definition insert_pts (x : Point F) (acc : list (Point F))
    : Fault + list (Point F) :=
  if (Z.of_nat (length acc) <? INT_MAX)%Z then inr (ins x acc)
  else inl undefined_behaviour.

Definition copy_pts (s : list (Point F)) : list (Point F) :=
  foldl (λ acc x, ins x acc) [] s.

Definition clip_body_pts (org dest : Point F) (e : Edge F)
    (acc : list (Point F)) : Fault + list (Point F) :=
  let orgInside := bool_decide (Point_classify org e ≠ LEFT) in
  let destInside := bool_decide (Point_classify dest e ≠ LEFT) in
  if negb (eqb orgInside destInside) then
    match snd (Edge_intersect e (mkEdge org dest)) with
    | None => inl undefined_behaviour
    | Some t =>
        let cross := Edge_point e t in
        if orgInside then insert_pts cross acc
        else match insert_pts cross acc with
             | inl f => inl f
             | inr acc => insert_pts dest acc
             end
    end
  else if orgInside then insert_pts dest acc
  else inr acc.

Fixpoint clip_loop_pts (n : nat) (s : list (Point F)) (e : Edge F)
    (acc : list (Point F)) : Fault + list (Point F) :=
  match n with
  | O => inr acc
  | S n =>
      match s with
      | [] => inl undefined_behaviour
      | org :: rest =>
          match clip_body_pts org (hd org rest) e acc with
          | inl f => inl f
          | inr acc => clip_loop_pts n (rotate1 s) e acc
          end
      end
  end.

Definition clipPolygonToEdge_pts (s : list (Point F)) (e : Edge F)
    : Fault + list (Point F) :=
  clip_loop_pts (length s) s e [].

(** The result is the cutter as rotated so far and the surviving polygon,
    [None] after the early [return false]. *)
Fixpoint clipPolygon_loop_pts (n : nat) (q p : list (Point F))
    : Fault + (list (Point F) * option (list (Point F))) :=
  match n with
  | O => inr (p, Some q)
  | S n =>
      match p with
      | [] => inl (runtime_error "Polygon is empty")
      | c :: rest =>
          match clipPolygonToEdge_pts q (mkEdge c (hd c rest)) with
          | inl f => inl f
          | inr r =>
              if negb (0 <? Z.of_nat (length r))%Z then inr (p, None)
              else clipPolygon_loop_pts n r (rotate1 p)
          end
      end
  end.

Definition clipPolygon_pts (s p : list (Point F))
    : Fault + (list (Point F) * option (list (Point F))) :=
  clipPolygon_loop_pts (length p) (copy_pts s) p.

(** The edges of a polygon walked as [l]: from each vertex to its clockwise
    neighbour, the last one leading back to the first. *)
Definition edges (l : list (Point F)) : list (Edge F) :=
  zip_with mkEdge l (rotate1 l).

(** The single-edge clip as a pass over a list of subject edges. *)
Fixpoint clip_edges_pts (E : list (Edge F)) (e : Edge F) (acc : list (Point F))
    : Fault + list (Point F) :=
  match E with
  | [] => inr acc
  | se :: E =>
      match clip_body_pts (org se) (dest se) e acc with
      | inl f => inl f
      | inr acc => clip_edges_pts E e acc
      end
  end.

(** The loop of [clipPolygon] as a pass over a list of cutter edges. *)
Fixpoint clip_all_pts (E : list (Edge F)) (q : list (Point F))
    : Fault + option (list (Point F)) :=
  match E with
  | [] => inr (Some q)
  | e :: E =>
      match clipPolygonToEdge_pts q e with
      | inl f => inl f
      | inr r =>
          if negb (0 <? Z.of_nat (length r))%Z then inr None
          else clip_all_pts E r
      end
  end.

(** The subject edge [se] has exactly one end LEFT of [e], [intersect] has
    assigned its parameter, and [x] is the point of [e] built from it. *)
Definition crossing (e se : Edge F) (x : Point F) : Prop :=
  ((Point_classify (org se) e = LEFT ∧ Point_classify (dest se) e ≠ LEFT) ∨
   (Point_classify (org se) e ≠ LEFT ∧ Point_classify (dest se) e = LEFT)) ∧
  ∃ t, snd (Edge_intersect e se) = Some t ∧ x = Edge_point e t.

(** The [try] block of [main] on lists: both polygons are built by
    insertion, and a successful clip is printed with its size and its
    vertices, unless it has none, in which case the walk starts from a null
    cursor. *)
Definition handle_pts (ls lp : list (Point F)) : Fault + Response F :=
  match clipPolygon_pts (copy_pts ls) (copy_pts lp) with
  | inl f => inl f
  | inr (_, None) => inr FAIL
  | inr (_, Some r) =>
      if r is [] then inl undefined_behaviour
      else inr (OK (Z.of_nat (length r)) r)
  end.
End Lists.

(** ** Two squares in a heap

    The heap after building the subject square (0,0),(2,0),(2,2),(0,2) and
    then the cutter square (1,1),(3,1),(3,3),(1,3) from nothing, over
    binary64: cells 1 to 4 hold the subject, cells 5 to 8 the cutter. *)

Definition subject_square : list (Point float) :=
  [fpt 0 0; fpt 2 0; fpt 2 2; fpt 0 2].
Definition cutter_square : list (Point float) :=
  [fpt 1 1; fpt 3 1; fpt 3 3; fpt 1 3].
Definition unit_square : list (Point float) :=
  [fpt 2 2; fpt 1 2; fpt 1 1; fpt 2 1].

Definition ex_heap : gmap addr (Vertex float) :=
  list_to_map
    [(1%positive, mkVertex (fpt 0 0) (Some 4%positive) (Some 2%positive));
     (2%positive, mkVertex (fpt 2 0) (Some 1%positive) (Some 3%positive));
     (3%positive, mkVertex (fpt 2 2) (Some 2%positive) (Some 4%positive));
     (4%positive, mkVertex (fpt 0 2) (Some 3%positive) (Some 1%positive));
     (5%positive, mkVertex (fpt 1 1) (Some 8%positive) (Some 6%positive));
     (6%positive, mkVertex (fpt 3 1) (Some 5%positive) (Some 7%positive));
     (7%positive, mkVertex (fpt 3 3) (Some 6%positive) (Some 8%positive));
     (8%positive, mkVertex (fpt 1 3) (Some 7%positive) (Some 5%positive))].

Definition ex_subject : Polygon := mkPolygon (Some 1%positive) 4.
Definition ex_cutter : Polygon := mkPolygon (Some 5%positive) 4.

Definition ex_subject_ring : list (addr * Point float) :=
  [(1%positive, fpt 0 0); (4%positive, fpt 0 2);
   (3%positive, fpt 2 2); (2%positive, fpt 2 0)].
Definition ex_cutter_ring : list (addr * Point float) :=
  [(5%positive, fpt 1 1); (8%positive, fpt 1 3);
   (7%positive, fpt 3 3); (6%positive, fpt 3 1)].

(** The two diagonals of the square of side 2, over the reals. *)
Definition diagonal_a : Edge R := mkEdge (mkPoint 0%R 0%R) (mkPoint 2%R 2%R).
Definition diagonal_b : Edge R := mkEdge (mkPoint 0%R 2%R) (mkPoint 2%R 0%R).

(** The heap of the two squares with one more polygon, a single vertex at
    (-5,1) held in cell 9. *)
Definition ex_heap_far : gmap addr (Vertex float) :=
  <[9%positive := mkVertex (fpt (-5) 1) (Some 9%positive) (Some 9%positive)]> ex_heap.
Definition ex_far : Polygon := mkPolygon (Some 9%positive) 1.
Definition ex_far_ring : list (addr * Point float) := [(9%positive, fpt (-5) 1)].

(** The two squares over the reals. *)
Definition rpt (a b : R) : Point R := mkPoint a b.
Definition exR_heap : gmap addr (Vertex R) :=
  list_to_map
    [(1%positive, mkVertex (rpt 0 0) (Some 4%positive) (Some 2%positive));
     (2%positive, mkVertex (rpt 2 0) (Some 1%positive) (Some 3%positive));
     (3%positive, mkVertex (rpt 2 2) (Some 2%positive) (Some 4%positive));
     (4%positive, mkVertex (rpt 0 2) (Some 3%positive) (Some 1%positive));
     (5%positive, mkVertex (rpt 1 1) (Some 8%positive) (Some 6%positive));
     (6%positive, mkVertex (rpt 3 1) (Some 5%positive) (Some 7%positive));
     (7%positive, mkVertex (rpt 3 3) (Some 6%positive) (Some 8%positive));
     (8%positive, mkVertex (rpt 1 3) (Some 7%positive) (Some 5%positive))].
Definition exR_subject_ring : list (addr * Point R) :=
  [(1%positive, rpt 0 0); (4%positive, rpt 0 2);
   (3%positive, rpt 2 2); (2%positive, rpt 2 0)].
Definition exR_cutter_ring : list (addr * Point R) :=
  [(5%positive, rpt 1 1); (8%positive, rpt 1 3);
   (7%positive, rpt 3 3); (6%positive, rpt 3 1)].


(** ** Reasoning about the monad *)

Section Monad.
Context {F : Type} `{Double F}.
Implicit Types (h : gmap addr (Vertex F)).

Lemma bind_Ret {A B} (m : M F A) (k : A → M F B) h a h' :
  m h = Ret a h' → bind m k h = k a h'.
Proof. unfold bind. by intros ->. Qed.

Lemma bind_Fail {A B} (m : M F A) (k : A → M F B) h f :
  m h = Fail f → bind m k h = Fail f.
Proof. unfold bind. by intros ->. Qed.

Lemma deref_Some h a c : h !! a = Some c → deref (Some a) h = Ret c h.
Proof. unfold deref. by intros ->. Qed.

Lemma get_next_Some h a b : nxt h a = Some b → get_next (Some a) h = Ret (Some b) h.
Proof.
  unfold nxt, get_next. destruct (h !! a) as [c|] eqn:E; [|done].
  simpl. intros Hn. rewrite (bind_Ret _ _ _ _ _ (deref_Some _ _ _ E)).
  unfold ret. by rewrite Hn.
Qed.

Lemma get_prev_Some h a b : prv h a = Some b → get_prev (Some a) h = Ret (Some b) h.
Proof.
  unfold prv, get_prev. destruct (h !! a) as [c|] eqn:E; [|done].
  simpl. intros Hn. rewrite (bind_Ret _ _ _ _ _ (deref_Some _ _ _ E)).
  unfold ret. by rewrite Hn.
Qed.

Lemma set_next_Some h a n :
  is_Some (h !! a) → set_next (Some a) n h = Ret tt (upd_next a n h).
Proof. unfold set_next, store. by intros [c ->]. Qed.

Lemma set_prev_Some h a p :
  is_Some (h !! a) → set_prev (Some a) p h = Ret tt (upd_prev a p h).
Proof. unfold set_prev, store. by intros [c ->]. Qed.

Lemma lookup_upd_next_is_Some a n h b :
  is_Some (upd_next a n h !! b) ↔ is_Some (h !! b).
Proof.
  unfold upd_next. rewrite lookup_alter. case_decide; subst; [|done].
  by rewrite fmap_is_Some.
Qed.

Lemma lookup_upd_prev_is_Some a p h b :
  is_Some (upd_prev a p h !! b) ↔ is_Some (h !! b).
Proof.
  unfold upd_prev. rewrite lookup_alter. case_decide; subst; [|done].
  by rewrite fmap_is_Some.
Qed.

Lemma nxt_upd_next a n h b :
  is_Some (h !! a) →
  nxt (upd_next a n h) b = if decide (b = a) then n else nxt h b.
Proof.
  intros [c Hc]. unfold nxt, upd_next. rewrite lookup_alter.
  repeat case_decide; subst; try done. by rewrite Hc.
Qed.

Lemma prv_upd_next a n h b : prv (upd_next a n h) b = prv h b.
Proof.
  unfold prv, upd_next. rewrite lookup_alter.
  case_decide; subst; [|done]. by destruct (h !! b).
Qed.

Lemma pnt_upd_next a n h b : pnt (upd_next a n h) b = pnt h b.
Proof.
  unfold pnt, upd_next. rewrite lookup_alter.
  case_decide; subst; [|done]. by destruct (h !! b).
Qed.

Lemma prv_upd_prev a p h b :
  is_Some (h !! a) →
  prv (upd_prev a p h) b = if decide (b = a) then p else prv h b.
Proof.
  intros [c Hc]. unfold prv, upd_prev. rewrite lookup_alter.
  repeat case_decide; subst; try done. by rewrite Hc.
Qed.

Lemma nxt_upd_prev a p h b : nxt (upd_prev a p h) b = nxt h b.
Proof.
  unfold nxt, upd_prev. rewrite lookup_alter.
  case_decide; subst; [|done]. by destruct (h !! b).
Qed.

Lemma pnt_upd_prev a p h b : pnt (upd_prev a p h) b = pnt h b.
Proof.
  unfold pnt, upd_prev. rewrite lookup_alter.
  case_decide; subst; [|done]. by destruct (h !! b).
Qed.

Lemma nxt_is_Some h a b : nxt h a = Some b → is_Some (h !! a).
Proof. unfold nxt. destruct (h !! a); [eauto|done]. Qed.

Lemma prv_is_Some h a b : prv h a = Some b → is_Some (h !! a).
Proof. unfold prv. destruct (h !! a); [eauto|done]. Qed.

End Monad.


(** ** The ring operations *)

Section Ring.
Context {F : Type} `{Double F}.
Implicit Types (h : gmap addr (Vertex F)) (l : list (addr * Point F)).

Lemma ins_fmap {A B} (f : A → B) x (l : list A) : f <$> ins x l = ins (f x) (f <$> l).
Proof. by destruct l. Qed.

Lemma length_ins {A} (x : A) (l : list A) : length (ins x l) = S (length l).
Proof. by destruct l. Qed.

Lemma chain_app h a m1 b m2 z :
  chain h a (m1 ++ b :: m2) z ↔ chain h a m1 b ∧ chain h b m2 z.
Proof.
  revert a. induction m1 as [|c m1 IH]; intros a; simpl; [done|].
  rewrite IH. tauto.
Qed.

(** A chain only looks at the clockwise link of its cells but the last and
    at the counter-clockwise link of its cells but the first. *)
Lemma chain_frame h h' a m z :
  (∀ b, b ∈ a :: m → nxt h' b = nxt h b) →
  (∀ b, b ∈ m ++ [z] → prv h' b = prv h b) →
  chain h a m z → chain h' a m z.
Proof.
  revert a. induction m as [|c m IH]; simpl; intros a Hn Hp.
  - intros [H1 H2]. split.
    + rewrite Hn; [done|set_solver].
    + rewrite Hp; [done|set_solver].
  - intros [[H1 H2] Hc]. split; [split|].
    + rewrite Hn; [done|set_solver].
    + rewrite Hp; [done|set_solver].
    + apply IH; [| |done].
      * intros b Hb. apply Hn. set_solver.
      * intros b Hb. apply Hp. set_solver.
Qed.

Lemma chain_is_Some h a m z b :
  chain h a m z → b ∈ a :: m ++ [z] → is_Some (h !! b).
Proof.
  revert a. induction m as [|c m IH]; simpl; intros a.
  - intros [H1 H2] Hb.
    apply elem_of_cons in Hb as [->|Hb]; [by eapply nxt_is_Some|].
    apply list_elem_of_singleton in Hb as ->. by eapply prv_is_Some.
  - intros [[H1 H2] Hc] Hb.
    apply elem_of_cons in Hb as [->|Hb]; [by eapply nxt_is_Some|].
    by eapply IH.
Qed.

Lemma chain_nxt_head h a m z : chain h a m z → nxt h a = Some (hd z m).
Proof. destruct m; simpl; by intros [[? ?] ?] || by intros [? ?]. Qed.

Lemma ring_frame h h' l :
  (∀ b, b ∈ l.*1 → h' !! b = h !! b) → ring h l → ring h' l.
Proof.
  destruct l as [|[a p] rest]; [done|]. simpl. intros Hf (Hnd & Hc & Hp).
  split_and!; [done| |].
  - eapply chain_frame; [| |done].
    + intros b Hb. unfold nxt. rewrite Hf; [done|done].
    + intros b Hb. unfold prv. rewrite Hf; [done|]. set_solver.
  - rewrite !Forall_forall in Hp |- *. intros [b q] Hb. simpl.
    unfold pnt. rewrite Hf; [by apply (Hp _ Hb)|].
    by apply (list_elem_of_fmap_2 fst) in Hb.
Qed.

Lemma is_polygon_frame h h' P l :
  (∀ b, b ∈ l.*1 → h' !! b = h !! b) → is_polygon h P l → is_polygon h' P l.
Proof. intros Hf (?&?&?&?). split_and!; [done..|]. by eapply ring_frame. Qed.

Lemma ring_is_Some h l b : ring h l → b ∈ l.*1 → is_Some (h !! b).
Proof.
  destruct l as [|[a p] rest]; [set_solver|]. simpl. intros (_ & Hc & _) Hb.
  eapply chain_is_Some; [done|]. set_solver.
Qed.

(** *** [Polygon::insert] *)

Lemma nxt_new h a c b :
  nxt (<[a := c]> h) b = if decide (b = a) then _next c else nxt h b.
Proof.
  unfold nxt. case_decide; subst; [by rewrite lookup_insert_eq|].
  by rewrite lookup_insert_ne.
Qed.

Lemma prv_new h a c b :
  prv (<[a := c]> h) b = if decide (b = a) then _prev c else prv h b.
Proof.
  unfold prv. case_decide; subst; [by rewrite lookup_insert_eq|].
  by rewrite lookup_insert_ne.
Qed.

Lemma pnt_new h a c b :
  pnt (<[a := c]> h) b = if decide (b = a) then Some (pt c) else pnt h b.
Proof.
  unfold pnt. case_decide; subst; [by rewrite lookup_insert_eq|].
  by rewrite lookup_insert_ne.
Qed.

Lemma spliced_lookup_ne h a p a0 n0 b :
  b ≠ a → b ≠ a0 → b ≠ n0 → spliced h a p a0 n0 !! b = h !! b.
Proof.
  intros. unfold spliced, upd_next, upd_prev.
  rewrite !lookup_alter_ne by done. by rewrite lookup_insert_ne.
Qed.

Lemma spliced_dom h a p a0 n0 : dom (spliced h a p a0 n0) = {[a]} ∪ dom h.
Proof.
  unfold spliced, upd_next, upd_prev. rewrite !dom_alter_L.
  by rewrite dom_insert_L.
Qed.

Section Spliced.
Context h (a : addr) (p : Point F) (a0 n0 : addr).
Context (Ha : h !! a = None) (Ha0 : is_Some (h !! a0)) (Hn0 : is_Some (h !! n0)).

Let h1 := <[a := mkVertex p None None]> h.

Local Lemma spliced_a_ne : a ≠ a0 ∧ a ≠ n0.
Proof.
  split; intros ->; rewrite Ha in *; by eapply is_Some_None.
Qed.

Local Lemma spliced_Some1 b : is_Some (h !! b) ∨ b = a → is_Some (h1 !! b).
Proof.
  unfold h1. intros [?| ->]; [|by rewrite lookup_insert_eq].
  destruct (decide (b = a)) as [->|]; [by rewrite lookup_insert_eq|].
  by rewrite lookup_insert_ne.
Qed.

Lemma nxt_spliced b :
  nxt (spliced h a p a0 n0) b =
    if decide (b = a0) then Some a
    else if decide (b = a) then Some n0 else nxt h b.
Proof.
  destruct spliced_a_ne. unfold spliced.
  rewrite nxt_upd_next, nxt_upd_prev, nxt_upd_prev, nxt_upd_next, nxt_new;
    [by repeat case_decide|..].
  - apply spliced_Some1; auto.
  - rewrite !lookup_upd_prev_is_Some, lookup_upd_next_is_Some.
    apply spliced_Some1; auto.
Qed.

Lemma prv_spliced b :
  prv (spliced h a p a0 n0) b =
    if decide (b = n0) then Some a
    else if decide (b = a) then Some a0 else prv h b.
Proof.
  destruct spliced_a_ne. unfold spliced.
  rewrite prv_upd_next, prv_upd_prev, prv_upd_prev, prv_upd_next, prv_new;
    [by repeat case_decide|..].
  - rewrite lookup_upd_next_is_Some. apply spliced_Some1; auto.
  - rewrite lookup_upd_prev_is_Some, lookup_upd_next_is_Some.
    apply spliced_Some1; auto.
Qed.

Lemma pnt_spliced b :
  pnt (spliced h a p a0 n0) b = if decide (b = a) then Some p else pnt h b.
Proof.
  unfold spliced.
  by rewrite pnt_upd_next, pnt_upd_prev, pnt_upd_prev, pnt_upd_next, pnt_new.
Qed.

Lemma Vertex_insert_spliced :
  nxt h a0 = Some n0 →
  Vertex_insert (Some a0) (Some a) h1 = Ret (Some a) (spliced h a p a0 n0).
Proof.
  intros Hn. destruct spliced_a_ne. unfold Vertex_insert.
  erewrite bind_Ret; last first.
  { apply get_next_Some. unfold h1. rewrite nxt_new, decide_False by done. done. }
  erewrite bind_Ret; last first.
  { apply set_next_Some, spliced_Some1; auto. }
  erewrite bind_Ret; last first.
  { apply set_prev_Some. rewrite lookup_upd_next_is_Some.
    apply spliced_Some1; auto. }
  erewrite bind_Ret; last first.
  { apply get_next_Some. rewrite nxt_upd_prev, nxt_upd_next by (apply spliced_Some1; auto).
    rewrite decide_False by done. unfold h1. rewrite nxt_new, decide_False by done. done. }
  erewrite bind_Ret; last first.
  { apply set_prev_Some. rewrite lookup_upd_prev_is_Some, lookup_upd_next_is_Some.
    apply spliced_Some1; auto. }
  erewrite bind_Ret; last first.
  { apply set_next_Some. rewrite !lookup_upd_prev_is_Some, lookup_upd_next_is_Some.
    apply spliced_Some1; auto. }
  done.
Qed.
End Spliced.

Lemma Polygon_insert_spec h P l p :
  is_polygon h P l →
  let a := fresh (dom h) in
  ∃ h',
    Polygon_insert P p h =
      (if (_size P <? INT_MAX)%Z
       then Ret (mkPolygon (head (ins (a, p) l).*1) (_size P + 1)) h'
       else Fail undefined_behaviour) ∧
    ring h' (ins (a, p) l) ∧
    (∀ b, b ≠ a → b ∉ l.*1 → h' !! b = h !! b) ∧
    dom h' = {[a]} ∪ dom h.
Proof.
  intros (Hv & Hsz & Hmax & Hr) a.
  assert (Ha : h !! a = None).
  { apply not_elem_of_dom. apply is_fresh. }
  unfold Polygon_insert.
  rewrite (bind_Ret _ _ _ (Some a) (<[a := mkVertex p None None]> h)) by done.
  destruct l as [|[a0 p0] rest]; simpl in Hv; rewrite Hv.
  - (* the first vertex: it becomes the cursor and its own neighbour *)
    set (h1 := <[a := mkVertex p None None]> h).
    assert (H1 : is_Some (h1 !! a)) by (unfold h1; by rewrite lookup_insert_eq).
    exists (upd_next a (Some a) (upd_prev a (Some a) h1)).
    split_and!.
    + simpl.
      rewrite (bind_Ret _ _ _ (mkPolygon (Some a) (_size P))
                 (upd_next a (Some a) (upd_prev a (Some a) h1))).
      { simpl. by destruct (_size P <? INT_MAX)%Z. }
      erewrite bind_Ret; [|by apply set_prev_Some].
      erewrite bind_Ret; [done|].
      apply set_next_Some. by rewrite lookup_upd_prev_is_Some.
    + simpl. split_and!.
      * apply NoDup_singleton.
      * split.
        -- rewrite nxt_upd_next, decide_True; [done..|].
           by rewrite lookup_upd_prev_is_Some.
        -- rewrite prv_upd_next, prv_upd_prev, decide_True; done.
      * constructor; [|constructor]. simpl.
        rewrite pnt_upd_next, pnt_upd_prev. unfold h1.
        by rewrite pnt_new, decide_True.
    + intros b Hb _. unfold upd_next, upd_prev, h1.
      rewrite !lookup_alter_ne by done. by rewrite lookup_insert_ne.
    + unfold upd_next, upd_prev, h1. rewrite !dom_alter_L.
      by rewrite dom_insert_L.
  - (* splice the new vertex after the cursor *)
    simpl in Hr. destruct Hr as (Hnd & Hc & Hp).
    set (n0 := hd a0 rest.*1).
    assert (Hn : nxt h a0 = Some n0) by (by apply chain_nxt_head).
    assert (Ha0 : is_Some (h !! a0)) by (by eapply nxt_is_Some).
    assert (Hn0 : is_Some (h !! n0)).
    { eapply chain_is_Some; [done|]. unfold n0.
      destruct rest.*1; simpl; set_solver. }
    assert (Hfr : ∀ b, b ∈ a0 :: rest.*1 → b ≠ a).
    { intros b Hb ->. assert (Hs : is_Some (h !! a)).
      { eapply chain_is_Some; [exact Hc|]. set_solver. }
      rewrite Ha in Hs. by eapply is_Some_None. }
    exists (spliced h a p a0 n0). split_and!.
    + rewrite (bind_Ret _ _ _ P (spliced h a p a0 n0)).
      { simpl. rewrite Hv. by destruct (_size P <? INT_MAX)%Z. }
      erewrite bind_Ret; [done|]. by apply Vertex_insert_spliced.
    + simpl. split_and!.
      * apply NoDup_cons in Hnd as [Hnd1 Hnd2].
        apply NoDup_cons; split; [|apply NoDup_cons; split; [|done]].
        -- intros [E|E]%elem_of_cons; [|done].
           by eapply (Hfr a0); [set_solver|].
        -- intros E. eapply (Hfr a); [set_solver|done].
      * split.
        -- rewrite nxt_spliced by done. by rewrite decide_True.
        -- rewrite prv_spliced by done.
           assert (a ≠ n0) by (intros E; rewrite <- E, Ha in Hn0; by eapply is_Some_None).
           by rewrite decide_False, decide_True.
      * assert (Ha0a : a ≠ a0) by (intros E; eapply (Hfr a0); [set_solver|done]).
           apply NoDup_cons in Hnd as [Hnd1 Hnd2].
           destruct rest as [|[r0 q0] rest']; simpl in *.
           ++ split.
              ** rewrite nxt_spliced by done.
                 by rewrite decide_False, decide_True.
              ** rewrite prv_spliced by done. by rewrite decide_True.
           ++ destruct Hc as [[Hc1 Hc2] Hc]. split; [split|].
              ** rewrite nxt_spliced by done.
                 by rewrite decide_False, decide_True.
              ** rewrite prv_spliced by done. by rewrite decide_True.
              ** apply NoDup_cons in Hnd2 as [Hnd2 Hnd3].
                 eapply chain_frame; [| |done].
                 --- intros b Hb. rewrite nxt_spliced by done.
                     rewrite !decide_False; [done|..].
                     +++ apply Hfr. set_solver.
                     +++ intros ->. apply Hnd1. set_solver.
                 --- intros b Hb. rewrite prv_spliced by done.
                     rewrite !decide_False; [done|..].
                     +++ apply Hfr. set_solver.
                     +++ intros ->. apply elem_of_app in Hb as [Hb|Hb]; [done|].
                         apply Hnd1. set_solver.
      * constructor; [|constructor].
        -- simpl. rewrite pnt_spliced. rewrite decide_False; [by inversion Hp|].
           apply Hfr. set_solver.
        -- simpl. by rewrite pnt_spliced, decide_True.
        -- inversion Hp as [|?? _ Hp']. subst.
           rewrite !Forall_forall in Hp' |- *. intros [b q] Hb. simpl.
           rewrite pnt_spliced, decide_False; [by apply (Hp' _ Hb)|].
           apply Hfr. apply (list_elem_of_fmap_2 fst) in Hb. set_solver.
    + intros b Hb1 Hb2. apply spliced_lookup_ne; [done|set_solver|].
      unfold n0. destruct rest as [|[r0 q0] rest']; simpl in *; set_solver.
    + apply spliced_dom.
Qed.

Lemma Polygon_insert_ok h P l p :
  is_polygon h P l → (_size P < INT_MAX)%Z →
  ∃ P' h',
    Polygon_insert P p h = Ret P' h' ∧
    is_polygon h' P' (ins (fresh (dom h), p) l) ∧
    (∀ b, b ≠ fresh (dom h) → b ∉ l.*1 → h' !! b = h !! b) ∧
    dom h' = {[fresh (dom h)]} ∪ dom h.
Proof.
  intros HP Hlt. destruct (Polygon_insert_spec h P l p HP) as (h' & E & Hr & Hf & Hd).
  destruct HP as (Hv & Hsz & Hmax & _).
  apply Z.ltb_lt in Hlt as Hlt'. rewrite Hlt' in E.
  eexists _, h'. split_and!; [exact E| |done|done].
  split_and!; simpl; [done| |lia|done].
  rewrite length_ins. lia.
Qed.

Lemma Polygon_insert_overflow h P l p :
  is_polygon h P l → ¬ (_size P < INT_MAX)%Z →
  Polygon_insert P p h = Fail undefined_behaviour.
Proof.
  intros HP Hlt. destruct (Polygon_insert_spec h P l p HP) as (h' & E & _).
  apply Z.ltb_nlt in Hlt. by rewrite Hlt in E.
Qed.

(** *** Reading the cursor and moving it *)

Lemma pnt_lookup h a p : pnt h a = Some p → ∃ c, h !! a = Some c ∧ pt c = p.
Proof.
  unfold pnt. destruct (h !! a) as [c|]; [|done]. intros [= <-]. eauto.
Qed.

Lemma ring_pnt h l a p : ring h l → (a, p) ∈ l → pnt h a = Some p.
Proof.
  destruct l as [|[a0 p0] rest]; [by intros _ ?%elem_of_nil|].
  intros (_ & _ & Hp) Hin. rewrite Forall_forall in Hp. by apply (Hp _ Hin).
Qed.

(** The cell after the cursor and the point it holds. *)
Lemma ring_second h a p rest :
  ring h ((a, p) :: rest) →
  nxt h a = Some (hd a rest.*1) ∧ pnt h (hd a rest.*1) = Some (hd p rest.*2).
Proof.
  intros Hr. split.
  - destruct Hr as (_ & Hc & _). by apply chain_nxt_head.
  - destruct rest as [|[b q] rest]; simpl.
    + eapply ring_pnt; [done|]. set_solver.
    + eapply ring_pnt; [done|]. set_solver.
Qed.

Lemma Polygon_getPoint_spec h P a p rest :
  is_polygon h P ((a, p) :: rest) → Polygon_getPoint P h = Ret p h.
Proof.
  intros (Hv & _ & _ & Hr). unfold Polygon_getPoint. simpl in Hv. rewrite Hv.
  destruct (pnt_lookup h a p) as (c & Hc & <-).
  { eapply ring_pnt; [done|]. set_solver. }
  by rewrite (bind_Ret _ _ _ _ _ (deref_Some _ _ _ Hc)).
Qed.

Lemma Polygon_cw_spec h P a p rest :
  is_polygon h P ((a, p) :: rest) →
  Polygon_cw P h = Ret (Some (hd a rest.*1)) h.
Proof.
  intros (Hv & _ & _ & Hr). unfold Polygon_cw, Vertex_cw. simpl in Hv.
  rewrite Hv. apply get_next_Some. by apply ring_second in Hr as [? _].
Qed.

Lemma deref_second h a p rest :
  ring h ((a, p) :: rest) →
  ∃ c, deref (Some (hd a rest.*1)) h = Ret c h ∧ pt c = hd p rest.*2.
Proof.
  intros [_ Hp]%ring_second. apply pnt_lookup in Hp as (c & Hc & E).
  exists c. split; [by apply deref_Some|done].
Qed.

Lemma Polygon_edge_spec h P a p rest :
  is_polygon h P ((a, p) :: rest) →
  Polygon_edge P h = Ret (mkEdge p (hd p rest.*2)) h.
Proof.
  intros HP. pose proof HP as (Hv & _ & _ & Hr).
  unfold Polygon_edge. simpl in Hv. rewrite Hv.
  destruct (pnt_lookup h a p) as (c & Hc & <-).
  { eapply ring_pnt; [done|]. set_solver. }
  rewrite (bind_Ret _ _ _ _ _ (deref_Some _ _ _ Hc)).
  erewrite bind_Ret; last first.
  { apply get_next_Some. by apply ring_second in Hr as [? _]. }
  destruct (deref_second _ _ _ _ Hr) as (c' & Hc' & E).
  rewrite (bind_Ret _ _ _ _ _ Hc'). by rewrite E.
Qed.

Lemma ring_rotate h a p rest : ring h ((a, p) :: rest) → ring h (rest ++ [(a, p)]).
Proof.
  destruct rest as [|[b q] rest]; [done|].
  simpl. intros (Hnd & [Hl Hc] & Hp). split_and!.
  - rewrite fmap_app. simpl. replace (b :: rest.*1 ++ [a]) with ((b :: rest.*1) ++ [a]) by done.
    apply NoDup_app. apply NoDup_cons in Hnd as [Hnd1 Hnd2].
    split_and!; [done| |apply NoDup_singleton].
    intros c Hc1 Hc2%list_elem_of_singleton. by subst.
  - rewrite fmap_app. simpl. apply chain_app. by split.
  - apply Forall_cons in Hp as [Hp1 Hp2]. apply Forall_cons in Hp2 as [Hp2 Hp3].
    apply Forall_cons. split; [done|]. apply Forall_app. split; [done|].
    by apply Forall_singleton.
Qed.

Lemma Polygon_advance_spec h P a p rest :
  is_polygon h P ((a, p) :: rest) →
  ∃ P', Polygon_advance P CLOCKWISE h = Ret P' h ∧
        is_polygon h P' (rest ++ [(a, p)]).
Proof.
  intros HP. pose proof HP as (Hv & Hsz & Hmax & Hr).
  exists (mkPolygon (Some (hd a rest.*1)) (_size P)). split.
  - unfold Polygon_advance, Vertex_neighbor. simpl in Hv. rewrite Hv. simpl.
    erewrite bind_Ret; [done|].
    apply get_next_Some. by apply ring_second in Hr as [? _].
  - split_and!; simpl; [|by rewrite Hsz, length_app; simpl; lia|done|by apply ring_rotate].
    by destruct rest as [|[??]?].
Qed.

(** *** Frames *)

Lemma frame_refl h X : frame h h X X.
Proof. split; [done|auto]. Qed.

Lemma frame_dom h h' X X' b : frame h h' X X' → b ∈ dom h → b ∉ X → b ∈ dom h'.
Proof.
  intros [Hf _] Hb HX. apply elem_of_dom. rewrite (Hf b Hb HX).
  by apply elem_of_dom.
Qed.

Lemma frame_trans h1 h2 h3 X1 X2 X3 :
  frame h1 h2 X1 X2 → frame h2 h3 X2 X3 → frame h1 h3 X1 X3.
Proof.
  intros [Hf1 Hx1] [Hf2 Hx2]. split.
  - intros b Hb HX. rewrite Hf2; [by apply Hf1| |].
    + by eapply frame_dom.
    + intros [?|?]%Hx1; done.
  - intros b [[?|?]%Hx1|Hn]%Hx2; [by left|by right|].
    destruct (decide (b ∈ X1)) as [|HX]; [by left|]. right. intros Hb.
    apply Hn. by eapply frame_dom.
Qed.

Lemma frame_weaken h h' X X' Y Y' :
  frame h h' X X' → (∀ b, b ∈ X → b ∈ Y) → (∀ b, b ∈ Y' → b ∈ X' ∨ b ∈ Y) →
  frame h h' Y Y'.
Proof.
  intros [Hf Hx] HXY HY. split.
  - intros b Hb Hn. apply Hf; [done|]. intros ?. by apply Hn, HXY.
  - intros b [[?|?]%Hx|?]%HY; auto.
Qed.

(** A polygon away from [X] is not disturbed. *)
Lemma frame_is_polygon h h' X X' P l :
  frame h h' X X' → (∀ b, b ∈ l.*1 → b ∉ X) → is_polygon h P l → is_polygon h' P l.
Proof.
  intros [Hf _] Hdisj HP. eapply is_polygon_frame; [|done].
  intros b Hb. apply Hf; [|by apply Hdisj].
  apply elem_of_dom. destruct HP as (_ & _ & _ & Hr). by eapply ring_is_Some.
Qed.

Lemma frame_disjoint h h' X X' l (P : Polygon) :
  frame h h' X X' → is_polygon h P l →
  (∀ b, b ∈ l.*1 → b ∉ X) → (∀ b, b ∈ l.*1 → b ∉ X').
Proof.
  intros [_ Hx] (_ & _ & _ & Hr) Hdisj b Hb [?|Hn]%Hx; [by eapply Hdisj|].
  apply Hn, elem_of_dom. by eapply ring_is_Some.
Qed.

(** *** The clipping loop body *)

Lemma insert_refines h P l x :
  is_polygon h P l →
  match insert_pts x l.*2 with
  | inl f => Polygon_insert P x h = Fail f
  | inr acc =>
      ∃ P' h' l', Polygon_insert P x h = Ret P' h' ∧
        is_polygon h' P' l' ∧ l'.*2 = acc ∧ frame h h' l.*1 l'.*1
  end.
Proof.
  intros HP. pose proof HP as (_ & Hsz & _ & _).
  unfold insert_pts. rewrite length_fmap, <- Hsz.
  destruct (_size P <? INT_MAX)%Z eqn:E.
  - apply Z.ltb_lt in E.
    destruct (Polygon_insert_ok h P l x HP E) as (P' & h' & E' & HP' & Hf & Hd).
    exists P', h', (ins (fresh (dom h), x) l). split_and!; [done|done|by rewrite ins_fmap|].
    split.
    + intros b Hb1 Hb2. apply Hf; [|done]. intros ->. by apply is_fresh in Hb1.
    + intros b. rewrite ins_fmap. simpl. intros Hb.
      destruct (decide (b = fresh (dom h))) as [->|Hne].
      * right. apply is_fresh.
      * left. destruct l.*1; set_solver.
  - apply Z.ltb_nlt in E. by apply (Polygon_insert_overflow h P l x).
Qed.

Lemma clip_body_refines h s a org rest p lp e :
  is_polygon h s ((a, org) :: rest) → is_polygon h p lp →
  match clip_body_pts org (hd org rest.*2) e lp.*2 with
  | inl f => clip_body s e p h = Fail f
  | inr acc =>
      ∃ p' h' lp', clip_body s e p h = Ret p' h' ∧
        is_polygon h' p' lp' ∧ lp'.*2 = acc ∧ frame h h' lp.*1 lp'.*1
  end.
Proof.
  intros Hs Hp. pose proof Hs as (_ & _ & _ & Hr).
  unfold clip_body, clip_body_pts.
  rewrite (bind_Ret _ _ _ _ _ (Polygon_getPoint_spec _ _ _ _ _ Hs)).
  rewrite (bind_Ret _ _ _ _ _ (Polygon_cw_spec _ _ _ _ _ Hs)).
  destruct (deref_second _ _ _ _ Hr) as (c & Hc & Ec).
  rewrite (bind_Ret _ _ _ _ _ Hc). rewrite Ec.
  set (dest := hd org rest.*2).
  destruct (negb _).
  - rewrite (bind_Ret _ _ _ _ _ (Polygon_edge_spec _ _ _ _ _ Hs)).
    fold dest. destruct (snd (Edge_intersect e (mkEdge org dest))) as [t|]; [|done].
    destruct (bool_decide (Point_classify org e ≠ LEFT)).
    + by apply insert_refines.
    + pose proof (insert_refines h p lp (Edge_point e t) Hp) as H1.
      destruct (insert_pts (Edge_point e t) lp.*2) as [f|acc].
      * by apply bind_Fail.
      * destruct H1 as (p1 & h1 & lp1 & E1 & Hp1 & <- & Hg1).
        rewrite (bind_Ret _ _ _ _ _ E1).
        pose proof (insert_refines h1 p1 lp1 dest Hp1) as H2.
        destruct (insert_pts dest lp1.*2) as [f|acc]; [done|].
        destruct H2 as (p2 & h2 & lp2 & E2 & Hp2 & <- & Hg2).
        exists p2, h2, lp2. split_and!; [done..|]. by eapply frame_trans.
  - destruct (bool_decide (Point_classify org e ≠ LEFT)).
    + by apply insert_refines.
    + exists p, h, lp. split_and!; [done..|]. apply frame_refl.
Qed.

(** *** The loop of [clipPolygonToEdge] *)

Lemma iter_rotate1_app {A} (l1 l2 : list A) :
  Nat.iter (length l1) rotate1 (l1 ++ l2) = l2 ++ l1.
Proof.
  revert l2. induction l1 as [|c l1 IH]; intros l2; simpl length.
  - by rewrite app_nil_r.
  - rewrite Nat.iter_succ_r. simpl. rewrite <- app_assoc, IH.
    by rewrite <- app_assoc.
Qed.

Lemma iter_rotate1_length {A} (l : list A) : Nat.iter (length l) rotate1 l = l.
Proof.
  pose proof (iter_rotate1_app l []) as E. by rewrite app_nil_r in E.
Qed.

Lemma is_polygon_new h : is_polygon h Polygon_new [].
Proof. split_and!; try done. Qed.

Lemma is_polygon_inj h h' P P' l : is_polygon h P l → is_polygon h' P' l → P = P'.
Proof.
  intros (Hv & Hs & _) (Hv' & Hs' & _). destruct P, P'; simpl in *. congruence.
Qed.

Lemma clip_loop_refines n : ∀ h s ls p lp e,
  is_polygon h s ls → is_polygon h p lp → (∀ b, b ∈ ls.*1 → b ∉ lp.*1) →
  match clip_loop_pts n ls.*2 e lp.*2 with
  | inl f => clip_loop n s e p h = Fail f
  | inr acc =>
      ∃ s' p' h' lp', clip_loop n s e p h = Ret (s', p') h' ∧
        is_polygon h' s' (Nat.iter n rotate1 ls) ∧
        is_polygon h' p' lp' ∧ lp'.*2 = acc ∧ frame h h' lp.*1 lp'.*1
  end.
Proof.
  induction n as [|n IH]; intros h s ls p lp e Hs Hp Hdisj.
  { simpl. exists s, p, h, lp. split_and!; [done..|]. apply frame_refl. }
  simpl clip_loop_pts. simpl clip_loop.
  destruct ls as [|[a org] rest].
  { simpl. unfold clip_body, Polygon_getPoint.
    destruct Hs as (Hv & _). simpl in Hv. by rewrite Hv. }
  pose proof (clip_body_refines h s a org rest p lp e Hs Hp) as Hb.
  change (((a, org) :: rest).*2) with (org :: rest.*2). cbv iota.
  destruct (clip_body_pts org (hd org rest.*2) e lp.*2) as [f|acc].
  { by apply bind_Fail. }
  destruct Hb as (p1 & h1 & lp1 & E1 & Hp1 & <- & Hg1).
  rewrite (bind_Ret _ _ _ _ _ E1).
  assert (Hs1 : is_polygon h1 s ((a, org) :: rest)) by (by eapply frame_is_polygon).
  destruct (Polygon_advance_spec _ _ _ _ _ Hs1) as (s1 & Ea & Hs1').
  rewrite (bind_Ret _ _ _ _ _ Ea).
  assert (Hdisj1 : ∀ b, b ∈ (rest ++ [(a, org)]).*1 → b ∉ lp1.*1).
  { intros b Hb. eapply frame_disjoint; [exact Hg1|exact Hs|exact Hdisj|].
    rewrite fmap_app in Hb. set_solver. }
  pose proof (IH h1 s1 (rest ++ [(a, org)]) p1 lp1 e Hs1' Hp1 Hdisj1) as H2.
  rewrite fmap_app in H2. simpl in H2. simpl rotate1.
  destruct (clip_loop_pts n (rest.*2 ++ [org]) e lp1.*2) as [f|acc]; [done|].
  destruct H2 as (s' & p' & h' & lp' & E2 & Hs' & Hp' & <- & Hg2).
  exists s', p', h', lp'. split_and!; [done| |done|done|by eapply frame_trans].
  by rewrite Nat.iter_succ_r.
Qed.

Lemma clipPolygonToEdge_refines h s ls e :
  is_polygon h s ls →
  match clipPolygonToEdge_pts ls.*2 e with
  | inl f => clipPolygonToEdge s e h = Fail f
  | inr acc =>
      ∃ r h' lr,
        clipPolygonToEdge s e h = Ret (s, r, (0 <? Z.of_nat (length acc))%Z) h' ∧
        is_polygon h' s ls ∧ is_polygon h' r lr ∧ lr.*2 = acc ∧
        frame h h' [] lr.*1
  end.
Proof.
  intros Hs. unfold clipPolygonToEdge, clipPolygonToEdge_pts.
  assert (En : Z.to_nat (Polygon_size s) = length ls).
  { unfold Polygon_size. destruct Hs as (_ & E & _). rewrite E. lia. }
  rewrite En, length_fmap.
  pose proof (clip_loop_refines (length ls) h s ls Polygon_new [] e Hs
                (is_polygon_new h)) as Hl.
  simpl in Hl.
  destruct (clip_loop_pts (length ls) ls.*2 e []) as [f|acc].
  { apply bind_Fail, Hl. set_solver. }
  destruct Hl as (s' & p' & h' & lp' & E & Hs' & Hp' & <- & Hg); [set_solver|].
  rewrite iter_rotate1_length in Hs'.
  assert (s' = s) as ->.
  { eapply is_polygon_inj; done. }
  exists p', h', lp'. split_and!; [|done..].
  rewrite (bind_Ret _ _ _ _ _ E). unfold ret, Polygon_size.
  destruct Hp' as (_ & -> & _). by rewrite length_fmap.
Qed.

(** *** The copy constructor *)

Lemma frame_lookup h h' X X' b :
  frame h h' X X' → is_Some (h !! b) → b ∉ X → h' !! b = h !! b.
Proof. intros [Hf _] Hb HX. apply Hf; [by apply elem_of_dom|done]. Qed.

Lemma chain_frame_lookup h h' a m z :
  (∀ b, b ∈ a :: m ++ [z] → h' !! b = h !! b) → chain h a m z → chain h' a m z.
Proof.
  intros Hf. apply chain_frame.
  - intros b Hb. unfold nxt. rewrite Hf; [done|]. set_solver.
  - intros b Hb. unfold prv. rewrite Hf; [done|]. set_solver.
Qed.

Lemma insert_pts_ok (x : Point F) acc :
  (Z.of_nat (length acc) < INT_MAX)%Z → insert_pts x acc = inr (ins x acc).
Proof. intros Hlt. unfold insert_pts. apply Z.ltb_lt in Hlt. by rewrite Hlt. Qed.

Lemma Polygon_copy_loop_spec m : ∀ cur pc z h this lt,
  chain h cur m.*1 z → z ∉ m.*1 → pnt h cur = Some pc →
  Forall (λ ap, pnt h ap.1 = Some ap.2) m →
  is_polygon h this lt →
  (∀ b, b ∈ cur :: m.*1 ++ [z] → b ∉ lt.*1) →
  (Z.of_nat (length lt + S (length m)) ≤ INT_MAX)%Z →
  ∃ this' h' lt',
    (∀ fuel, length m < fuel →
       Polygon_copy_loop fuel (Some z) (Some cur) this h = Ret this' h') ∧
    is_polygon h' this' lt' ∧
    lt'.*2 = foldl (λ acc x, ins x acc) lt.*2 (pc :: m.*2) ∧
    frame h h' lt.*1 lt'.*1.
Proof.
  induction m as [|[b q] m IH];
    intros cur pc z h this lt Hc Hz Hpc Hpm Ht Hdisj Hmax.
  - destruct (pnt_lookup _ _ _ Hpc) as (c & Hcell & <-).
    pose proof (insert_refines h this lt (pt c) Ht) as Hi.
    rewrite insert_pts_ok in Hi by (rewrite length_fmap; simpl in Hmax; lia).
    destruct Hi as (this1 & h1 & lt1 & E1 & Ht1 & Elt1 & Hf1).
    exists this1, h1, lt1. split_and!; [|done..].
    intros fuel Hfuel. destruct fuel as [|fuel]; [simpl in Hfuel; lia|].
    simpl Polygon_copy_loop.
    rewrite (bind_Ret _ _ _ _ _ (deref_Some _ _ _ Hcell)).
    rewrite (bind_Ret _ _ _ _ _ E1).
    destruct Hc as [Hn _].
    erewrite bind_Ret; last first.
    { apply get_next_Some. unfold nxt.
      rewrite (frame_lookup _ _ _ _ cur Hf1); [exact Hn|eauto|].
      apply Hdisj. set_solver. }
    by rewrite decide_False by (by intros ?).
  - destruct (pnt_lookup _ _ _ Hpc) as (c & Hcell & <-).
    pose proof (insert_refines h this lt (pt c) Ht) as Hi.
    rewrite insert_pts_ok in Hi by (rewrite length_fmap; simpl in Hmax; lia).
    destruct Hi as (this1 & h1 & lt1 & E1 & Ht1 & Elt1 & Hf1).
    simpl in Hc. destruct Hc as [[Hn Hpv] Hc].
    assert (Hsame : ∀ d, d ∈ cur :: b :: m.*1 ++ [z] → h1 !! d = h !! d).
    { intros d Hd. apply (frame_lookup _ _ _ _ d Hf1); [|by apply Hdisj].
      apply elem_of_cons in Hd as [->|Hd]; [eauto|].
      by eapply chain_is_Some. }
    apply Forall_cons in Hpm as [Hq Hpm]. simpl in Hq.
    destruct (IH b q z h1 this1 lt1) as (this' & h' & lt' & E & Ht' & Elt' & Hf').
    + apply (chain_frame_lookup h); [|done]. intros d Hd. apply Hsame. set_solver.
    + set_solver.
    + unfold pnt. rewrite Hsame; [done|set_solver].
    + rewrite !Forall_forall in Hpm |- *. intros [d r] Hd. simpl.
      unfold pnt. rewrite Hsame; [by apply (Hpm _ Hd)|].
      apply (list_elem_of_fmap_2 fst) in Hd. set_solver.
    + done.
    + intros d Hd Hd'. destruct Hf1 as [_ Hx]. apply Hx in Hd' as [Hd'|Hd'].
      * eapply Hdisj; [|done]. set_solver.
      * apply Hd', elem_of_dom. eapply chain_is_Some; [exact Hc|done].
    + pose proof (f_equal length Elt1) as El.
      rewrite length_ins, !length_fmap in El. simpl in Hmax. lia.
    + exists this', h', lt'.
      split_and!; [|done|by rewrite Elt', Elt1|by eapply frame_trans].
      intros fuel Hfuel. destruct fuel as [|fuel]; [simpl in Hfuel; lia|].
      simpl Polygon_copy_loop.
      rewrite (bind_Ret _ _ _ _ _ (deref_Some _ _ _ Hcell)).
      rewrite (bind_Ret _ _ _ _ _ E1).
      erewrite bind_Ret; last first.
      { apply get_next_Some. unfold nxt. rewrite Hsame; [exact Hn|set_solver]. }
      rewrite decide_True; last first.
      { intros [= ->]. apply Hz. set_solver. }
      apply E. simpl in Hfuel. lia.
Qed.

Lemma Polygon_copy_spec h P l :
  is_polygon h P l →
  ∃ P' h' l',
    (∀ fuel, length l ≤ fuel → Polygon_copy fuel P h = Ret P' h') ∧
    is_polygon h' P' l' ∧ l'.*2 = copy_pts l.*2 ∧ frame h h' [] l'.*1.
Proof.
  intros HP. pose proof HP as (Hv & Hsz & Hmax & Hr).
  unfold Polygon_copy. simpl in Hv. rewrite Hv.
  destruct l as [|[a p] rest]; simpl.
  { exists Polygon_new, h, []. split_and!; [done|apply is_polygon_new|done|apply frame_refl]. }
  simpl in Hr. destruct Hr as (Hnd & Hc & Hp).
  apply NoDup_cons in Hnd as [Hnd1 Hnd2]. apply Forall_cons in Hp as [Hp1 Hp2].
  destruct (Polygon_copy_loop_spec rest a p a h Polygon_new [])
    as (P' & h' & l' & E & HP' & El' & Hf); try done.
  - set_solver.
  - simpl in Hsz. simpl. lia.
  - exists P', h', l'. split_and!; [|done..].
    intros fuel Hfuel. apply E. lia.
Qed.

(** *** The destructor *)

Section Unlinked.
Context h (w a0 n1 : addr).
Context (Hw : is_Some (h !! w)) (Ha0 : is_Some (h !! a0)) (Hn1 : is_Some (h !! n1)).
Context (Hwa : w ≠ a0) (Hwn : w ≠ n1).

Lemma unlinked_lookup_w : unlinked h w a0 n1 !! w = None.
Proof. unfold unlinked. apply lookup_delete_eq. Qed.

Lemma unlinked_lookup_ne b :
  b ≠ w → b ≠ a0 → b ≠ n1 → unlinked h w a0 n1 !! b = h !! b.
Proof.
  intros. unfold unlinked, upd_next, upd_prev.
  rewrite lookup_delete_ne by done. by rewrite !lookup_alter_ne by done.
Qed.

Lemma nxt_unlinked b :
  b ≠ w →
  nxt (unlinked h w a0 n1) b = if decide (b = a0) then Some n1 else nxt h b.
Proof.
  intros Hb. unfold unlinked, nxt at 1. rewrite lookup_delete_ne by done.
  fold (nxt (upd_next w None (upd_prev w None
          (upd_prev n1 (Some a0) (upd_next a0 (Some n1) h)))) b).
  rewrite nxt_upd_next, decide_False, !nxt_upd_prev, nxt_upd_next; try done.
  by rewrite !lookup_upd_prev_is_Some, lookup_upd_next_is_Some.
Qed.

Lemma prv_unlinked b :
  b ≠ w →
  prv (unlinked h w a0 n1) b = if decide (b = n1) then Some a0 else prv h b.
Proof.
  intros Hb. unfold unlinked, prv at 1. rewrite lookup_delete_ne by done.
  fold (prv (upd_next w None (upd_prev w None
          (upd_prev n1 (Some a0) (upd_next a0 (Some n1) h)))) b).
  rewrite prv_upd_next, prv_upd_prev, decide_False, prv_upd_prev, prv_upd_next;
    try done.
  - by rewrite lookup_upd_next_is_Some.
  - by rewrite lookup_upd_prev_is_Some, lookup_upd_next_is_Some.
Qed.

Lemma remove_delete_unlinked :
  prv h w = Some a0 → nxt h w = Some n1 →
  bind (Vertex_remove (Some w)) delete_Vertex h = Ret tt (unlinked h w a0 n1).
Proof.
  intros Hp Hn. unfold Vertex_remove.
  set (h1 := upd_next a0 (Some n1) h).
  set (h2 := upd_prev n1 (Some a0) h1).
  set (h3 := upd_prev w None h2).
  set (h4 := upd_next w None h3).
  assert (H1 : ∀ b, is_Some (h !! b) → is_Some (h1 !! b)).
  { intros b. unfold h1. by rewrite lookup_upd_next_is_Some. }
  assert (H2 : ∀ b, is_Some (h !! b) → is_Some (h2 !! b)).
  { intros b ?. unfold h2. rewrite lookup_upd_prev_is_Some. auto. }
  assert (H3 : ∀ b, is_Some (h !! b) → is_Some (h3 !! b)).
  { intros b ?. unfold h3. rewrite lookup_upd_prev_is_Some. auto. }
  assert (H4 : ∀ b, is_Some (h !! b) → is_Some (h4 !! b)).
  { intros b ?. unfold h4. rewrite lookup_upd_next_is_Some. auto. }
  rewrite (bind_Ret _ _ _ (Some w) h4).
  { unfold delete_Vertex. destruct (H4 w Hw) as [c ->]. done. }
  rewrite (bind_Ret _ _ _ _ _ (get_prev_Some _ _ _ Hp)).
  rewrite (bind_Ret _ _ _ tt h1); last first.
  { rewrite (bind_Ret _ _ _ _ _ (get_next_Some _ _ _ Hn)).
    by apply set_next_Some. }
  erewrite bind_Ret; last first.
  { apply get_next_Some. unfold h1. rewrite nxt_upd_next by done.
    by rewrite decide_False. }
  rewrite (bind_Ret _ _ _ tt h2); last first.
  { erewrite bind_Ret; last first.
    { apply get_prev_Some. unfold h1. by rewrite prv_upd_next. }
    apply set_prev_Some. auto. }
  rewrite (bind_Ret _ _ _ tt h3); last first.
  { apply set_prev_Some. auto. }
  rewrite (bind_Ret _ _ _ tt h4); last first.
  { apply set_next_Some. auto. }
  done.
Qed.
End Unlinked.

Lemma Polygon_delete_loop_spec m : ∀ a0 h,
  chain h a0 m a0 → NoDup (a0 :: m) →
  ∃ h',
    (∀ fuel, length m < fuel →
       Polygon_delete_loop fuel (Some a0) (Some (hd a0 m)) h = Ret tt h') ∧
    (∀ b, b ∉ m → b ≠ a0 → h' !! b = h !! b) ∧
    (∀ b, b ∈ m → h' !! b = None) ∧
    is_Some (h' !! a0).
Proof.
  induction m as [|w m IH]; intros a0 h Hc Hnd.
  - exists h. split_and!; [|done|set_solver|].
    + intros fuel Hfuel. destruct fuel as [|fuel]; [simpl in Hfuel; lia|].
      simpl. by rewrite decide_False by (by intros ?).
    + destruct Hc as [Hn _]. by eapply nxt_is_Some.
  - simpl hd. apply NoDup_cons in Hnd as [Ha0 Hnd]. apply NoDup_cons in Hnd as [Hw Hnd].
    assert (Hwa : w ≠ a0) by set_solver.
    simpl in Hc. destruct Hc as [[Hn0 Hpw] Hc].
    set (n1 := hd a0 m).
    assert (Hnw : nxt h w = Some n1) by (by apply chain_nxt_head).
    assert (Hwn : w ≠ n1).
    { unfold n1. destruct m; simpl; set_solver. }
    assert (Hsw : is_Some (h !! w)) by (by eapply nxt_is_Some).
    assert (Hsa : is_Some (h !! a0)) by (by eapply nxt_is_Some).
    assert (Hsn : is_Some (h !! n1)).
    { eapply chain_is_Some; [exact Hc|]. unfold n1. destruct m; simpl; set_solver. }
    set (h1 := unlinked h w a0 n1).
    assert (E1 : bind (Vertex_remove (Some w)) delete_Vertex h = Ret tt h1).
    { by apply remove_delete_unlinked. }
    assert (Hc1 : chain h1 a0 m a0).
    { unfold h1. destruct m as [|r1 m']; simpl in *.
      - split.
        + rewrite nxt_unlinked by done. by rewrite decide_True.
        + rewrite prv_unlinked by done. by rewrite decide_True.
      - destruct Hc as [[Hc1 Hc2] Hc]. apply NoDup_cons in Hnd as [Hr1 Hnd].
        split; [split|].
        + rewrite nxt_unlinked by done. by rewrite decide_True.
        + rewrite prv_unlinked by done. by rewrite decide_True.
        + eapply chain_frame; [| |exact Hc].
          * intros b Hb. rewrite nxt_unlinked by set_solver.
            rewrite decide_False; [done|]. set_solver.
          * intros b Hb. rewrite prv_unlinked by set_solver.
            rewrite decide_False; [done|].
            intros ->. apply elem_of_app in Hb as [Hb|Hb]; [done|]. set_solver. }
    destruct (IH a0 h1 Hc1) as (h' & E & Hf & Hd & Hs).
    { apply NoDup_cons. split; [set_solver|done]. }
    exists h'. split_and!; [| | |done].
    + intros fuel Hfuel. destruct fuel as [|fuel]; [simpl in Hfuel; lia|].
      simpl Polygon_delete_loop. rewrite decide_True by congruence.
      unfold bind at 1 2. unfold bind in E1.
      destruct (Vertex_remove (Some w) h) as [r hr|f]; [|done].
      rewrite E1.
      erewrite bind_Ret; last first.
      { apply get_next_Some. unfold h1. rewrite nxt_unlinked by done.
        by rewrite decide_True. }
      apply E. simpl in Hfuel. lia.
    + intros b Hb1 Hb2. rewrite Hf by set_solver.
      apply unlinked_lookup_ne; [set_solver|done|].
      unfold n1. destruct m; simpl; set_solver.
    + intros b [->|Hb]%elem_of_cons; [|by apply Hd].
      rewrite Hf by done. apply unlinked_lookup_w.
Qed.

Lemma Polygon_delete_spec h P l :
  is_polygon h P l →
  ∃ h', (∀ fuel, length l ≤ fuel → Polygon_delete fuel P h = Ret tt h') ∧
    (∀ b, b ∉ l.*1 → h' !! b = h !! b) ∧ (∀ b, b ∈ l.*1 → h' !! b = None).
Proof.
  intros (Hv & Hsz & Hmax & Hr). unfold Polygon_delete.
  simpl in Hv. rewrite Hv.
  destruct l as [|[a p] rest]; simpl.
  { exists h. split_and!; [done|done|set_solver]. }
  simpl in Hr. destruct Hr as (Hnd & Hc & Hp).
  destruct (Polygon_delete_loop_spec rest.*1 a h Hc Hnd) as (h' & E & Hf & Hd & [c Hs]).
  exists (delete a h'). split_and!.
  - intros fuel Hfuel.
    erewrite bind_Ret; last first.
    { apply get_next_Some. by apply chain_nxt_head. }
    rewrite (bind_Ret _ _ _ tt h').
    + unfold delete_Vertex. by rewrite Hs.
    + apply E. rewrite length_fmap. lia.
  - intros b Hb. rewrite lookup_delete_ne by set_solver. apply Hf; set_solver.
  - intros b [->|Hb]%elem_of_cons; [apply lookup_delete_eq|].
    apply NoDup_cons in Hnd as [Hnd _].
    rewrite lookup_delete_ne by set_solver. by apply Hd.
Qed.

Lemma Polygon_delete_frame h h' l :
  (∀ b, b ∉ l.*1 → h' !! b = h !! b) → frame h h' l.*1 [].
Proof. intros Hf. split; [auto|set_solver]. Qed.

(** *** The loop of [clipPolygon] *)

Lemma frame_clip_delete h h1 h2 (lq lr : list addr) :
  frame h h1 [] lr → frame h1 h2 lq [] → frame h h2 lq lr.
Proof.
  intros Hf1 Hf2. eapply (frame_trans _ _ _ _ (lq ++ lr)).
  - eapply frame_weaken; [exact Hf1|set_solver|]. intros b. set_solver.
  - eapply frame_weaken; [exact Hf2|set_solver|]. intros b. set_solver.
Qed.

Lemma frame_nil_r h h' X X' : frame h h' X X' → frame h h' X [].
Proof. intros Hf. eapply frame_weaken; [exact Hf|done|set_solver]. Qed.

Lemma clipPolygon_loop_refines n : ∀ h q lq p lp,
  is_polygon h q lq → is_polygon h p lp → (∀ b, b ∈ lq.*1 → b ∉ lp.*1) →
  match clipPolygon_loop_pts n lq.*2 lp.*2 with
  | inl f => ∃ N, ∀ fuel, N ≤ fuel → clipPolygon_loop fuel n q p h = Fail f
  | inr (pp, None) =>
      ∃ N p' h' k,
        (∀ fuel, N ≤ fuel → clipPolygon_loop fuel n q p h = Ret (p', None) h') ∧
        k < n ∧
        is_polygon h' p' (Nat.iter k rotate1 lp) ∧
        pp = (Nat.iter k rotate1 lp).*2 ∧
        frame h h' lq.*1 []
  | inr (pp, Some r) =>
      ∃ N p' r' lr h',
        (∀ fuel, N ≤ fuel → clipPolygon_loop fuel n q p h = Ret (p', Some r') h') ∧
        is_polygon h' p' (Nat.iter n rotate1 lp) ∧
        pp = (Nat.iter n rotate1 lp).*2 ∧
        is_polygon h' r' lr ∧ lr.*2 = r ∧ frame h h' lq.*1 lr.*1
  end.
Proof.
  induction n as [|n IH]; intros h q lq p lp Hq Hp Hdisj.
  { simpl. exists 0, p, q, lq, h. split_and!; [done..|]. apply frame_refl. }
  destruct lp as [|[a c] rest].
  { simpl. exists 0. intros fuel _. unfold Polygon_edge.
    destruct Hp as (Hv & _). simpl in Hv. by rewrite Hv. }
  pose proof (Polygon_edge_spec h p a c rest Hp) as Ee.
  pose proof (clipPolygonToEdge_refines h q lq (mkEdge c (hd c rest.*2)) Hq) as Hc.
  change (((a, c) :: rest).*2) with (c :: rest.*2).
  cbn [clipPolygon_loop_pts].
  destruct (clipPolygonToEdge_pts lq.*2 (mkEdge c (hd c rest.*2))) as [f|acc].
  { exists 0. intros fuel _. simpl. rewrite (bind_Ret _ _ _ _ _ Ee). by apply bind_Fail. }
  destruct Hc as (r & h1 & lr & E1 & Hq1 & Hr1 & <- & Hf1).
  assert (Hp1 : is_polygon h1 p ((a, c) :: rest)).
  { eapply frame_is_polygon; [exact Hf1| |done]. set_solver. }
  destruct (Polygon_delete_spec h1 q lq Hq1) as (h2 & E2 & Hd2 & _).
  apply Polygon_delete_frame in Hd2 as Hf2.
  assert (Hp2 : is_polygon h2 p ((a, c) :: rest)).
  { eapply frame_is_polygon; [exact Hf2| |done]. intros b Hb Hb'. by eapply Hdisj. }
  assert (Hlr : ∀ b, b ∈ lr.*1 → ¬ is_Some (h !! b)).
  { intros b Hb. destruct Hf1 as [_ Hx]. destruct (Hx b Hb) as [?|Hn]; [set_solver|].
    by rewrite <- elem_of_dom. }
  assert (Hr2 : is_polygon h2 r lr).
  { eapply frame_is_polygon; [exact Hf2| |done]. intros b Hb Hb'.
    apply (Hlr b Hb). destruct Hq as (_ & _ & _ & Hr). by eapply ring_is_Some. }
  pose proof (frame_clip_delete _ _ _ _ _ Hf1 Hf2) as Hf12.
  destruct (0 <? Z.of_nat (length lr.*2))%Z eqn:Eflag; cbn [negb].
  - destruct (Polygon_advance_spec _ _ _ _ _ Hp2) as (p1 & Ea & Hp1').
    assert (Hdisj' : ∀ b, b ∈ lr.*1 → b ∉ (rest ++ [(a, c)]).*1).
    { intros b Hb Hb'. apply (Hlr b Hb).
      destruct Hp as (_ & _ & _ & Hr). eapply ring_is_Some; [exact Hr|].
      rewrite fmap_app in Hb'. set_solver. }
    pose proof (IH h2 r lr p1 (rest ++ [(a, c)]) Hr2 Hp1' Hdisj') as H2.
    rewrite fmap_app in H2. simpl in H2. simpl rotate1.
    assert (Hstep : ∀ fuel, length lq ≤ fuel →
      clipPolygon_loop fuel (S n) q p h = clipPolygon_loop fuel n r p1 h2).
    { intros fuel Hfuel. simpl. rewrite (bind_Ret _ _ _ _ _ Ee).
      rewrite (bind_Ret _ _ _ _ _ E1). cbv beta iota. cbn [negb].
      rewrite (bind_Ret _ _ _ _ _ (E2 fuel Hfuel)).
      by rewrite (bind_Ret _ _ _ _ _ Ea). }
    destruct (clipPolygon_loop_pts n lr.*2 (rest.*2 ++ [c])) as [f|[pp [res|]]].
    + destruct H2 as [N HN]. exists (N `max` length lq). intros fuel Hfuel.
      rewrite Hstep by lia. apply HN. lia.
    + destruct H2 as (N & p' & r' & lr' & h' & HN & Hp' & -> & Hr' & <- & Hf3).
      exists (N `max` length lq), p', r', lr', h'.
      rewrite Nat.iter_succ_r. split_and!; [|done..|by eapply frame_trans].
      intros fuel Hfuel. rewrite Hstep by lia. apply HN. lia.
    + destruct H2 as (N & p' & h' & k & HN & Hk & Hp' & -> & Hf3).
      exists (N `max` length lq), p', h', (S k).
      rewrite Nat.iter_succ_r. split_and!; [|lia|done..|].
      * intros fuel Hfuel. rewrite Hstep by lia. apply HN. lia.
      * eapply frame_trans; [exact Hf12|done].
  - exists (length lq), p, h2, 0. split_and!; [|lia|done|done|by eapply frame_nil_r].
    intros fuel Hfuel. simpl. rewrite (bind_Ret _ _ _ _ _ Ee).
    rewrite (bind_Ret _ _ _ _ _ E1). cbv beta iota. cbn [negb].
    by rewrite (bind_Ret _ _ _ _ _ (E2 fuel Hfuel)).
Qed.

(** *** [clipPolygon] *)

Lemma clipPolygon_refines h s ls p lp result :
  is_polygon h s ls → is_polygon h p lp →
  match clipPolygon_pts ls.*2 lp.*2 with
  | inl f => ∃ N, ∀ fuel, N ≤ fuel → clipPolygon fuel s p result h = Fail f
  | inr (pp, None) =>
      ∃ N p' h' k,
        (∀ fuel, N ≤ fuel →
           clipPolygon fuel s p result h = Ret (p', result, false) h') ∧
        k < length lp ∧
        is_polygon h' s ls ∧
        is_polygon h' p' (Nat.iter k rotate1 lp) ∧
        pp = (Nat.iter k rotate1 lp).*2 ∧
        frame h h' [] []
  | inr (pp, Some r) =>
      ∃ N r' lr h',
        (∀ fuel, N ≤ fuel →
           clipPolygon fuel s p result h = Ret (p, Some r', true) h') ∧
        is_polygon h' s ls ∧
        is_polygon h' p lp ∧
        pp = lp.*2 ∧
        is_polygon h' r' lr ∧ lr.*2 = r ∧ frame h h' [] lr.*1
  end.
Proof.
  intros Hs Hp. unfold clipPolygon_pts.
  destruct (Polygon_copy_spec h s ls Hs) as (q & h1 & lq & Ec & Hq & Elq & Hf1).
  assert (Hs1 : is_polygon h1 s ls).
  { eapply frame_is_polygon; [exact Hf1| |done]. set_solver. }
  assert (Hp1 : is_polygon h1 p lp).
  { eapply frame_is_polygon; [exact Hf1| |done]. set_solver. }
  assert (Hlq : ∀ b, b ∈ lq.*1 → ¬ is_Some (h !! b)).
  { intros b Hb. destruct Hf1 as [_ Hx]. destruct (Hx b Hb) as [?|Hn]; [set_solver|].
    by rewrite <- elem_of_dom. }
  assert (Hdisj : ∀ b, b ∈ lq.*1 → b ∉ lp.*1).
  { intros b Hb Hb'. apply (Hlq b Hb).
    destruct Hp as (_ & _ & _ & Hr). by eapply ring_is_Some. }
  assert (Hdisj' : ∀ b, b ∈ ls.*1 → b ∉ lq.*1).
  { intros b Hb Hb'. apply (Hlq b Hb').
    destruct Hs as (_ & _ & _ & Hr). by eapply ring_is_Some. }
  pose proof (clipPolygon_loop_refines (length lp) h1 q lq p lp Hq Hp1 Hdisj) as Hl.
  rewrite Elq in Hl. rewrite length_fmap.
  assert (En : Z.to_nat (Polygon_size p) = length lp).
  { unfold Polygon_size. destruct Hp as (_ & E & _). rewrite E. lia. }
  assert (Hstep : ∀ fuel, length ls ≤ fuel →
    clipPolygon fuel s p result h =
      bind (clipPolygon_loop fuel (length lp) q p)
        (λ '(p, r), match r with
                    | None => ret (p, result, false)
                    | Some q => ret (p, Some q, true)
                    end) h1).
  { intros fuel Hfuel. unfold clipPolygon. rewrite (bind_Ret _ _ _ _ _ (Ec fuel Hfuel)).
    by rewrite En. }
  destruct (clipPolygon_loop_pts (length lp) (copy_pts ls.*2) lp.*2)
    as [f|[pp [res|]]].
  - destruct Hl as [N HN]. exists (N `max` length ls). intros fuel Hfuel.
    rewrite Hstep by lia. apply bind_Fail, HN. lia.
  - destruct Hl as (N & p' & r' & lr & h' & HN & Hp' & -> & Hr' & <- & Hf2).
    rewrite iter_rotate1_length in Hp' |- *.
    assert (p' = p) as -> by (by eapply is_polygon_inj).
    exists (N `max` length ls), r', lr, h'.
    split_and!; [| |done..|].
    + intros fuel Hfuel. rewrite Hstep by lia.
      by rewrite (bind_Ret _ _ _ _ _ (HN fuel ltac:(lia))).
    + eapply frame_is_polygon; [exact Hf2|done|done].
    + eapply frame_trans; [exact Hf1|done].
  - destruct Hl as (N & p' & h' & k & HN & Hk & Hp' & -> & Hf2).
    exists (N `max` length ls), p', h', k.
    split_and!; [|done| |done..|].
    + intros fuel Hfuel. rewrite Hstep by lia.
      by rewrite (bind_Ret _ _ _ _ _ (HN fuel ltac:(lia))).
    + eapply frame_is_polygon; [exact Hf2|done|done].
    + eapply frame_trans; [exact Hf1|done].
Qed.

(** *** Building a polygon and walking round it *)

Lemma build_spec pts : ∀ h P l,
  is_polygon h P l →
  (Z.of_nat (length l + length pts) ≤ INT_MAX)%Z →
  ∃ P' h' l',
    build pts P h = Ret P' h' ∧ is_polygon h' P' l' ∧
    l'.*2 = foldl (λ acc x, ins x acc) l.*2 pts ∧ frame h h' l.*1 l'.*1.
Proof.
  induction pts as [|x pts IH]; intros h P l HP Hmax; simpl.
  { exists P, h, l. split_and!; [done..|]. apply frame_refl. }
  pose proof (insert_refines h P l x HP) as Hi.
  rewrite insert_pts_ok in Hi by (rewrite length_fmap; simpl in Hmax; lia).
  destruct Hi as (P1 & h1 & l1 & E1 & HP1 & El1 & Hf1).
  pose proof (f_equal length El1) as El. rewrite length_ins, !length_fmap in El.
  destruct (IH h1 P1 l1 HP1) as (P' & h' & l' & E & HP' & El' & Hf').
  { simpl in Hmax. lia. }
  exists P', h', l'. rewrite (bind_Ret _ _ _ _ _ E1).
  split_and!; [done|done|by rewrite El', El1|by eapply frame_trans].
Qed.

Lemma walk_loop_spec m : ∀ cur pc z h fuel,
  chain h cur m.*1 z → z ∉ m.*1 → pnt h cur = Some pc →
  Forall (λ ap, pnt h ap.1 = Some ap.2) m →
  length m < fuel →
  walk_loop fuel (Some z) (Some cur) h = Ret (pc :: m.*2) h.
Proof.
  induction m as [|[b q] m IH]; intros cur pc z h fuel Hc Hz Hpc Hpm Hfuel;
    (destruct fuel as [|fuel]; [simpl in Hfuel; lia|]); simpl walk_loop;
    destruct (pnt_lookup _ _ _ Hpc) as (c & Hcell & <-);
    rewrite (bind_Ret _ _ _ _ _ (deref_Some _ _ _ Hcell)).
  - destruct Hc as [Hn _].
    rewrite (bind_Ret _ _ _ _ _ (get_next_Some _ _ _ Hn)).
    by rewrite decide_False by (by intros ?).
  - simpl in Hc. destruct Hc as [[Hn _] Hc].
    rewrite (bind_Ret _ _ _ _ _ (get_next_Some _ _ _ Hn)).
    rewrite decide_True; last first.
    { intros [= ->]. apply Hz. set_solver. }
    apply Forall_cons in Hpm as [Hq Hpm].
    erewrite bind_Ret; [done|].
    apply IH; [done|set_solver|done|done|simpl in Hfuel; lia].
Qed.

Lemma walk_spec h P l fuel :
  is_polygon h P l → l ≠ [] → length l ≤ fuel → walk fuel P h = Ret l.*2 h.
Proof.
  intros (Hv & _ & _ & Hr) Hne Hfuel. destruct l as [|[a p] rest]; [done|].
  unfold walk. simpl in Hv. rewrite Hv.
  simpl in Hr. destruct Hr as (Hnd & Hc & Hp).
  apply NoDup_cons in Hnd as [Hnd _]. apply Forall_cons in Hp as [Hp1 Hp2].
  by apply walk_loop_spec.
Qed.

(** *** Moving the cursor counter-clockwise *)

Lemma ring_rotate_back h l x : ring h (l ++ [x]) → ring h (x :: l).
Proof.
  destruct l as [|[a p] rest]; [done|]. destruct x as [z pz].
  simpl. rewrite !fmap_app. simpl. intros (Hnd & Hc & Hp). split_and!.
  - replace (a :: rest.*1 ++ [z]) with ((a :: rest.*1) ++ [z]) in Hnd by done.
    apply NoDup_app in Hnd as (Hnd1 & Hnd2 & _).
    apply NoDup_cons. split; [|done]. intros Hz. by apply (Hnd2 z Hz), list_elem_of_singleton.
  - by apply chain_app in Hc as [Hc1 Hc2].
  - by apply chain_app in Hc as [Hc1 Hc2].
  - replace ((a, p) :: rest ++ [(z, pz)]) with (((a, p) :: rest) ++ [(z, pz)]) in Hp by done.
    apply Forall_app in Hp as [Hp1 Hp2]. rewrite Forall_singleton in Hp2.
    by apply Forall_cons.
Qed.

Lemma Polygon_advance_ccw_spec h P l x :
  is_polygon h P (l ++ [x]) →
  ∃ P', Polygon_advance P COUNTER_CLOCKWISE h = Ret P' h ∧
        is_polygon h P' (x :: l).
Proof.
  intros HP. pose proof HP as (Hv & Hsz & Hmax & Hr).
  destruct x as [z pz].
  exists (mkPolygon (Some z) (_size P)). split.
  - unfold Polygon_advance, Vertex_neighbor, Vertex_ccw.
    rewrite decide_False by done.
    destruct l as [|[a p] rest]; simpl in Hv, Hr; rewrite Hv.
    + destruct Hr as (_ & [_ Hp] & _).
      by rewrite (bind_Ret _ _ _ _ _ (get_prev_Some _ _ _ Hp)).
    + destruct Hr as (_ & Hc & _). rewrite fmap_app in Hc. simpl in Hc.
      apply chain_app in Hc as [_ [_ Hp]].
      by rewrite (bind_Ret _ _ _ _ _ (get_prev_Some _ _ _ Hp)).
  - split_and!; [done| |done|by apply ring_rotate_back].
    simpl. rewrite Hsz, length_app. simpl. lia.
Qed.

(** *** The invariant in the words of the design *)

Lemma ring_iter_rotate1 h l k : ring h l → ring h (Nat.iter k rotate1 l).
Proof.
  revert l. induction k as [|k IH]; intros l Hr; [done|].
  rewrite Nat.iter_succ_r. apply IH.
  destruct l as [|[a p] rest]; [done|]. by apply ring_rotate.
Qed.

Lemma length_rotate1 {A} (l : list A) : length (rotate1 l) = length l.
Proof. destruct l; [done|]. simpl. rewrite length_app. simpl. lia. Qed.

Lemma length_iter_rotate1 {A} (l : list A) k :
  length (Nat.iter k rotate1 l) = length l.
Proof. induction k as [|k IH]; [done|]. simpl. by rewrite length_rotate1. Qed.

Lemma ring_nxt_head h a p rest :
  ring h ((a, p) :: rest) → ∃ b, head (rotate1 ((a, p) :: rest)).*1 = Some b ∧ link h a b.
Proof.
  intros (_ & Hc & _). destruct rest as [|[b q] rest]; simpl in *.
  - by exists a.
  - exists b. by destruct Hc as [? _].
Qed.

Lemma chain_last_link h a m z : chain h a m z → ∃ b, link h b z.
Proof.
  revert a. induction m as [|b m IH]; intros a; simpl; [eauto|].
  intros [_ Hc]. eauto.
Qed.

Lemma follow_head h k : ∀ l a,
  ring h l → head l.*1 = Some a →
  follow h k a = head (Nat.iter k rotate1 l).*1.
Proof.
  induction k as [|k IH]; intros l a Hr Ha; [done|].
  destruct l as [|[a' p] rest]; [done|]. simpl in Ha. injection Ha as ->.
  destruct (ring_nxt_head _ _ _ _ Hr) as (b & Hb & [Hn _]).
  rewrite Nat.iter_succ_r. simpl follow. rewrite Hn. simpl.
  apply IH; [by apply ring_rotate|done].
Qed.

Lemma ring_head_closed h l a :
  ring h l → head l.*1 = Some a →
  follow h (length l) a = Some a ∧
  (∃ b, nxt h a = Some b ∧ prv h b = Some a) ∧
  (∃ b, prv h a = Some b ∧ nxt h b = Some a).
Proof.
  intros Hr Ha. split_and!.
  - rewrite (follow_head h _ l a Hr Ha). by rewrite iter_rotate1_length.
  - destruct l as [|[a' p] rest]; [done|]. simpl in Ha. injection Ha as ->.
    destruct (ring_nxt_head _ _ _ _ Hr) as (b & _ & Hl). by exists b.
  - destruct l as [|[a' p] rest]; [done|]. simpl in Ha. injection Ha as ->.
    destruct Hr as (_ & Hc & _).
    destruct (chain_last_link _ _ _ _ Hc) as (b & Hn & Hp). by exists b.
Qed.

Lemma is_polygon_ring_invariant h P l : is_polygon h P l → ring_invariant h P.
Proof.
  intros (Hv & Hsz & _ & Hr). split.
  - intros E. rewrite E in Hsz. destruct l; [done|simpl in Hsz; lia].
  - intros Hne. destruct l as [|[c p] rest] eqn:El; [done|]. rewrite <- El in *.
    exists c. split; [by rewrite Hv, El|].
    intros k a Hk. rewrite Hsz, Nat2Z.id.
    rewrite <- (length_iter_rotate1 l k).
    apply ring_head_closed; [by apply ring_iter_rotate1|].
    rewrite <- Hk. symmetry. apply follow_head; [done|by rewrite El].
Qed.

(** *** The faults of the list-level procedures *)

Lemma insert_pts_fault (x : Point F) acc f :
  insert_pts x acc = inl f → f = undefined_behaviour.
Proof. unfold insert_pts. destruct (_ <? _)%Z; congruence. Qed.

Lemma clip_body_pts_fault (org dest : Point F) e acc f :
  clip_body_pts org dest e acc = inl f → f = undefined_behaviour.
Proof.
  unfold clip_body_pts. destruct (negb _).
  - destruct (snd _) as [t|]; [|congruence]. destruct (bool_decide _).
    + apply insert_pts_fault.
    + destruct (insert_pts _ acc) as [f'|acc'] eqn:E.
      * intros [= <-]. by eapply insert_pts_fault.
      * apply insert_pts_fault.
  - destruct (bool_decide _); [apply insert_pts_fault|done].
Qed.

Lemma clip_loop_pts_fault n : ∀ (s : list (Point F)) e acc f,
  clip_loop_pts n s e acc = inl f → f = undefined_behaviour.
Proof.
  induction n as [|n IH]; intros s e acc f; simpl; [done|].
  destruct s as [|org rest]; [congruence|].
  destruct (clip_body_pts org (hd org rest) e acc) as [f'|acc'] eqn:E.
  - intros [= <-]. by eapply clip_body_pts_fault.
  - apply IH.
Qed.

Lemma clipPolygon_loop_pts_fault n : ∀ (q p : list (Point F)) f,
  n = 0 ∨ p ≠ [] →
  clipPolygon_loop_pts n q p = inl f → f = undefined_behaviour.
Proof.
  induction n as [|n IH]; intros q p f Hp; simpl; [done|].
  destruct p as [|c rest]; [by destruct Hp|].
  destruct (clipPolygonToEdge_pts q (mkEdge c (hd c rest))) as [f'|r] eqn:E.
  - intros [= <-]. by eapply clip_loop_pts_fault.
  - destruct (negb _); [done|]. apply IH. right. by destruct rest.
Qed.

Lemma length_copy_pts (s : list (Point F)) : length (copy_pts s) = length s.
Proof.
  unfold copy_pts. rewrite <- (Nat.add_0_l (length s)).
  change 0 with (length (@nil (Point F))). generalize (@nil (Point F)).
  induction s as [|x s IH]; intros acc; simpl; [lia|].
  rewrite IH, length_ins. lia.
Qed.

Lemma clipPolygon_loop_pts_nonempty n : ∀ (q p pp r : list (Point F)),
  n ≠ 0 → clipPolygon_loop_pts n q p = inr (pp, Some r) → r ≠ [].
Proof.
  induction n as [|n IH]; intros q p pp r Hn; [done|]. simpl.
  destruct p as [|c rest]; [done|].
  destruct (clipPolygonToEdge_pts q (mkEdge c (hd c rest))) as [f'|r1]; [done|].
  destruct (0 <? Z.of_nat (length r1))%Z eqn:E; simpl; [|done].
  destruct n as [|n].
  - simpl. intros [= _ <-]. apply Z.ltb_lt in E. by destruct r1.
  - by apply IH.
Qed.


Lemma clipPolygon_pts_nonempty (s p pp r : list (Point F)) :
  p ≠ [] ∨ s ≠ [] → clipPolygon_pts s p = inr (pp, Some r) → r ≠ [].
Proof.
  unfold clipPolygon_pts. intros Hne E. destruct p as [|c p].
  - simpl in E. injection E as _ <-. destruct Hne as [?|Hs]; [done|].
    intros E. apply (f_equal length) in E. rewrite length_copy_pts in E.
    by destruct s.
  - by apply clipPolygon_loop_pts_nonempty in E.
Qed.

Lemma copy_pts_cons (c : Point F) rest : copy_pts (c :: rest) = c :: rev rest.
Proof.
  unfold copy_pts. simpl.
  assert (G : ∀ ps acc, foldl (λ acc x, ins x acc) (c :: acc) ps = c :: rev ps ++ acc).
  { induction ps as [|x ps IH]; intros acc; simpl; [done|].
    by rewrite IH, <- app_assoc. }
  by rewrite G, app_nil_r.
Qed.

(** *** What the operations do to the invariant *)

Lemma Polygon_inv_insert h P x :
  Polygon_inv h P →
  (Polygon_insert P x h = Fail undefined_behaviour ∧ _size P = INT_MAX) ∨
  (∃ P' h', Polygon_insert P x h = Ret P' h' ∧ Polygon_inv h' P' ∧
            _size P' = (_size P + 1)%Z).
Proof.
  intros [l HP]. pose proof HP as (_ & Hsz & Hmax & _).
  destruct (decide (_size P < INT_MAX)%Z) as [Hlt|Hge].
  - right. destruct (Polygon_insert_ok h P l x HP Hlt) as (P' & h' & E & HP' & _).
    exists P', h'. split_and!; [done|by eexists|].
    destruct HP' as (_ & -> & _). rewrite length_ins, Hsz. lia.
  - left. split; [by eapply Polygon_insert_overflow|lia].
Qed.

Lemma Polygon_inv_copy h P :
  Polygon_inv h P →
  ∃ P' h',
    (∀ fuel, Z.to_nat (_size P) ≤ fuel → Polygon_copy fuel P h = Ret P' h') ∧
    Polygon_inv h' P' ∧ Polygon_inv h' P ∧ _size P' = _size P.
Proof.
  intros [l HP]. pose proof HP as (_ & Hsz & _).
  destruct (Polygon_copy_spec h P l HP) as (P' & h' & l' & E & HP' & El & Hf).
  exists P', h'. split_and!.
  - intros fuel Hfuel. apply E. lia.
  - by eexists.
  - exists l. eapply frame_is_polygon; [exact Hf| |done]. set_solver.
  - destruct HP' as (_ & -> & _). rewrite Hsz.
    by rewrite <- (length_fmap snd l'), El, length_copy_pts, length_fmap.
Qed.

Lemma Polygon_inv_advance h P rotation :
  Polygon_inv h P → _size P ≠ 0%Z →
  ∃ P', Polygon_advance P rotation h = Ret P' h ∧ Polygon_inv h P' ∧
        _size P' = _size P.
Proof.
  intros [l HP] Hne. pose proof HP as (_ & Hsz & _).
  destruct rotation.
  - destruct l as [|[a p] rest]; [done|].
    destruct (Polygon_advance_spec h P a p rest HP) as (P' & E & HP').
    exists P'. split_and!; [done|by eexists|].
    destruct HP' as (_ & -> & _). rewrite Hsz, length_app. simpl. lia.
  - destruct l as [|x l _] using rev_ind; [done|].
    destruct (Polygon_advance_ccw_spec h P l x HP) as (P' & E & HP').
    exists P'. split_and!; [done|by eexists|].
    destruct HP' as (_ & -> & _). rewrite Hsz, length_app. simpl. lia.
Qed.

Lemma Polygon_inv_clipPolygonToEdge h s e :
  Polygon_inv h s →
  clipPolygonToEdge s e h = Fail undefined_behaviour ∨
  ∃ r ok h',
    clipPolygonToEdge s e h = Ret (s, r, ok) h' ∧
    Polygon_inv h' s ∧ Polygon_inv h' r ∧ (ok = true ↔ _size r ≠ 0%Z) ∧
    (∀ b, is_Some (h !! b) → h' !! b = h !! b).
Proof.
  intros [ls Hs]. pose proof (clipPolygonToEdge_refines h s ls e Hs) as Hc.
  destruct (clipPolygonToEdge_pts ls.*2 e) as [f|acc] eqn:E.
  - left. by rewrite (clip_loop_pts_fault _ _ _ _ _ E) in Hc.
  - right. destruct Hc as (r & h' & lr & Ec & Hs' & Hr & <- & Hf).
    exists r, (0 <? Z.of_nat (length lr.*2))%Z, h'.
    split_and!; [done|by eexists|by eexists| |].
    + destruct Hr as (_ & -> & _). rewrite length_fmap, Z.ltb_lt. lia.
    + intros b Hb. eapply frame_lookup; [exact Hf|done|set_solver].
Qed.

Lemma clipPolygon_outcomes h s ls p lp result :
  is_polygon h s ls → is_polygon h p lp →
  ∃ N, ∀ fuel, N ≤ fuel →
    clipPolygon fuel s p result h = Fail undefined_behaviour ∨
    (∃ p' h' k,
       clipPolygon fuel s p result h = Ret (p', result, false) h' ∧
       k < length lp ∧
       is_polygon h' s ls ∧ is_polygon h' p' (Nat.iter k rotate1 lp)) ∨
    (∃ r lr h',
       clipPolygon fuel s p result h = Ret (p, Some r, true) h' ∧
       is_polygon h' s ls ∧ is_polygon h' p lp ∧ is_polygon h' r lr ∧
       (lp ≠ [] ∨ ls ≠ [] → lr ≠ [])).
Proof.
  intros Hs Hp. pose proof (clipPolygon_refines h s ls p lp result Hs Hp) as Hc.
  destruct (clipPolygon_pts ls.*2 lp.*2) as [f|[pp [r|]]] eqn:E.
  - assert (f = undefined_behaviour) as ->.
    { apply (clipPolygon_loop_pts_fault _ _ _ f) in E; [done|].
      rewrite length_fmap. destruct lp; [by left|by right]. }
    destruct Hc as [N HN]. exists N. intros fuel Hfuel. left. by apply HN.
  - destruct Hc as (N & r' & lr & h' & HN & Hs' & Hp' & _ & Hr' & Elr & _).
    exists N. intros fuel Hfuel. right. right. exists r', lr, h'.
    split_and!; [by apply HN|done..|].
    intros Hne Hnil. subst lr.
    apply clipPolygon_pts_nonempty in E; [done|].
    destruct Hne as [?|?]; [left|right]; by intros ?%fmap_nil_inv.
  - destruct Hc as (N & p' & h' & k & HN & Hk & Hs' & Hp' & _).
    exists N. intros fuel Hfuel. right. left. exists p', h', k.
    split_and!; [by apply HN|done..].
Qed.
End Ring.

(** * The properties of the design *)

Section Properties.
Context {F : Type} `{Double F}.
Implicit Types (h : gmap addr (Vertex F)) (l : list (addr * Point F)).

(** C8: [Polygon::edge] throws exactly when the polygon has no vertex;
    otherwise it returns the edge from the point of the cursor to the point
    of its clockwise neighbour, and leaves the heap (and so the polygon) as
    it was. *)
Theorem Polygon_edge_throws_iff_empty h P :
  Polygon_inv h P →
  ((∃ what, Polygon_edge P h = Fail (runtime_error what)) ↔ _size P = 0%Z) ∧
  (_size P ≠ 0%Z →
   ∃ a b pa pb,
     _v P = Some a ∧ nxt h a = Some b ∧ pnt h a = Some pa ∧ pnt h b = Some pb ∧
     Polygon_edge P h = Ret (mkEdge pa pb) h).
Proof.
  intros [l HP]. pose proof HP as (Hv & Hsz & _ & Hr).
  destruct l as [|[a p] rest].
  - split; [|done]. split; [done|]. intros _. exists "Polygon is empty"%string.
    unfold Polygon_edge. simpl in Hv. by rewrite Hv.
  - pose proof (Polygon_edge_spec h P a p rest HP) as E. split.
    + split; [|simpl in Hsz; lia]. intros [what Hw]. by rewrite E in Hw.
    + intros _. destruct (ring_second _ _ _ _ Hr) as [Hn Hp].
      exists a, (hd a rest.*1), p, (hd p rest.*2). split_and!; [done|done| |done|done].
      eapply ring_pnt; [done|]. set_solver.
Qed.

(** C7: the empty polygon stands for a ring, and [insert], the copy
    constructor, [advance] in either direction, [clipPolygonToEdge] and
    [clipPolygon] hand back polygons that stand for rings whenever they are
    given such polygons; a polygon that stands for a ring satisfies the
    invariant as the design states it ([ring_invariant]). *)
Theorem ring_invariant_maintained :
  (∀ h, Polygon_inv h Polygon_new) ∧
  (∀ h P x, Polygon_inv h P →
     (Polygon_insert P x h = Fail undefined_behaviour ∧ _size P = INT_MAX) ∨
     (∃ P' h', Polygon_insert P x h = Ret P' h' ∧ Polygon_inv h' P' ∧
               _size P' = (_size P + 1)%Z)) ∧
  (∀ h P, Polygon_inv h P →
     ∃ P' h',
       (∀ fuel, Z.to_nat (_size P) ≤ fuel → Polygon_copy fuel P h = Ret P' h') ∧
       Polygon_inv h' P' ∧ Polygon_inv h' P ∧ _size P' = _size P) ∧
  (∀ h P rotation, Polygon_inv h P → _size P ≠ 0%Z →
     ∃ P', Polygon_advance P rotation h = Ret P' h ∧ Polygon_inv h P' ∧
           _size P' = _size P) ∧
  (∀ h s e, Polygon_inv h s →
     clipPolygonToEdge s e h = Fail undefined_behaviour ∨
     ∃ r ok h', clipPolygonToEdge s e h = Ret (s, r, ok) h' ∧
                Polygon_inv h' s ∧ Polygon_inv h' r) ∧
  (∀ h s p result, Polygon_inv h s → Polygon_inv h p →
     ∃ N, ∀ fuel, N ≤ fuel →
       clipPolygon fuel s p result h = Fail undefined_behaviour ∨
       (∃ p' h', clipPolygon fuel s p result h = Ret (p', result, false) h' ∧
                 Polygon_inv h' s ∧ Polygon_inv h' p') ∨
       (∃ p' r h', clipPolygon fuel s p result h = Ret (p', Some r, true) h' ∧
                   Polygon_inv h' s ∧ Polygon_inv h' p' ∧ Polygon_inv h' r)) ∧
  (∀ h P, Polygon_inv h P → ring_invariant h P).
Proof.
  split_and!.
  - intros h. exists []. apply is_polygon_new.
  - apply Polygon_inv_insert.
  - apply Polygon_inv_copy.
  - apply Polygon_inv_advance.
  - intros h s e Hs.
    destruct (Polygon_inv_clipPolygonToEdge h s e Hs)
      as [E|(r & ok & h' & E & Hs' & Hr & _)]; [by left|right].
    by exists r, ok, h'.
  - intros h s p result [ls Hs] [lp Hp].
    destruct (clipPolygon_outcomes h s ls p lp result Hs Hp) as [N HN].
    exists N. intros fuel Hfuel.
    destruct (HN fuel Hfuel)
      as [E|[(p' & h' & k & E & _ & Hs' & Hp')|(r & lr & h' & E & Hs' & Hp' & Hr & _)]].
    + by left.
    + right. left. exists p', h'. split_and!; [done|by eexists|by eexists].
    + right. right. exists p, r, h'. split_and!; [done|by eexists..].
  - intros h P [l HP]. by eapply is_polygon_ring_invariant.
Qed.

Lemma clip_body_emits h s a org rest p lp e out :
  is_polygon h s ((a, org) :: rest) → is_polygon h p lp →
  clip_body_pts org (hd org rest.*2) e lp.*2
    = inr (foldl (λ acc x, ins x acc) lp.*2 out) →
  emits h s e p lp out.
Proof.
  intros Hs Hp E.
  pose proof (clip_body_refines h s a org rest p lp e Hs Hp) as Hb.
  rewrite E in Hb. destruct Hb as (p' & h' & lp' & E' & Hp' & El & _).
  by exists p', h', lp'.
Qed.

(** C1, as the code has it: an end point of a subject edge is treated as
    inside the clip half-plane exactly when its classification against the
    clip edge is not LEFT, so that RIGHT and every collinear class (BEHIND,
    BEYOND, ORIGIN, DESTINATION, BETWEEN) count as inside.  With that
    reading, the loop body follows the four cases of the single-edge clip. *)
Theorem clip_body_inside_is_not_LEFT h s a org rest p lp e :
  is_polygon h s ((a, org) :: rest) → is_polygon h p lp →
  (Z.of_nat (length lp) + 2 ≤ INT_MAX)%Z →
  clip_cases (λ q, Point_classify q e ≠ LEFT) h s e p lp org (hd org rest.*2).
Proof.
  intros Hs Hp Hmax. set (dest := hd org rest.*2).
  assert (Hi1 : ∀ q, insert_pts q lp.*2 = inr (ins q lp.*2)).
  { intros q. apply insert_pts_ok. rewrite length_fmap. lia. }
  assert (Hi2 : ∀ q q', insert_pts q (ins q' lp.*2) = inr (ins q (ins q' lp.*2))).
  { intros q q'. apply insert_pts_ok. rewrite length_ins, length_fmap. lia. }
  unfold clip_cases. split_and!.
  - intros Ho Hd. eapply clip_body_emits; [done..|]. fold dest.
    unfold clip_body_pts.
    rewrite (bool_decide_eq_true_2 _ Ho), (bool_decide_eq_true_2 _ Hd).
    simpl. by rewrite Hi1.
  - intros Ho Hd t Ht. eapply clip_body_emits; [done..|]. fold dest.
    unfold clip_body_pts.
    rewrite (bool_decide_eq_true_2 _ Ho), (bool_decide_eq_false_2 _ Hd).
    simpl. by rewrite Ht, Hi1.
  - intros Ho Hd t Ht. eapply clip_body_emits; [done..|]. fold dest.
    unfold clip_body_pts.
    rewrite (bool_decide_eq_false_2 _ Ho), (bool_decide_eq_true_2 _ Hd).
    simpl. by rewrite Ht, Hi1, Hi2.
  - intros Ho Hd. eapply clip_body_emits; [done..|]. fold dest.
    unfold clip_body_pts.
    by rewrite (bool_decide_eq_false_2 _ Ho), (bool_decide_eq_false_2 _ Hd).
Qed.

(** C10, as the code has it: when exactly one end point of the subject edge
    classifies LEFT, the loop body calls [intersect] and does not look at its
    flag; provided the determinant's absolute value is not below 1e-15,
    [intersect] has assigned [t], and the point emitted for the crossing is
    [e.point(t)], followed by [dest] when it is [org] that classifies LEFT. *)
Theorem crossing_built_from_assigned_t h s a org rest p lp e :
  is_polygon h s ((a, org) :: rest) → is_polygon h p lp →
  (Z.of_nat (length lp) + 2 ≤ INT_MAX)%Z →
  let dest := hd org rest.*2 in
  (Point_classify org e = LEFT ∧ Point_classify dest e ≠ LEFT) ∨
  (Point_classify org e ≠ LEFT ∧ Point_classify dest e = LEFT) →
  (dabs (denom e (mkEdge org dest)) <? d1e_15)%D = false →
  ∃ flag t,
    Edge_intersect e (mkEdge org dest) = (flag, Some t) ∧
    emits h s e p lp
      (if bool_decide (Point_classify org e = LEFT)
       then [Edge_point e t; dest] else [Edge_point e t]).
Proof.
  intros Hs Hp Hmax dest Hone Hden.
  assert (Ei : ∃ flag t, Edge_intersect e (mkEdge org dest) = (flag, Some t)).
  { unfold Edge_intersect. unfold denom in Hden. simpl in Hden |- *.
    rewrite Hden. eauto. }
  destruct Ei as (flag & t & Ei). exists flag, t. split; [done|].
  assert (Hi1 : ∀ q, insert_pts q lp.*2 = inr (ins q lp.*2)).
  { intros q. apply insert_pts_ok. rewrite length_fmap. lia. }
  assert (Hi2 : ∀ q q', insert_pts q (ins q' lp.*2) = inr (ins q (ins q' lp.*2))).
  { intros q q'. apply insert_pts_ok. rewrite length_ins, length_fmap. lia. }
  eapply clip_body_emits; [done..|]. fold dest. unfold clip_body_pts.
  rewrite Ei. simpl snd.
  destruct Hone as [[Ho Hd]|[Ho Hd]].
  - rewrite (bool_decide_eq_true_2 _ Ho), (bool_decide_eq_true_2 _ Hd).
    rewrite (bool_decide_eq_false_2 (Point_classify org e ≠ LEFT)) by auto.
    simpl. by rewrite Hi1, Hi2.
  - rewrite (bool_decide_eq_false_2 _ Ho), (bool_decide_eq_true_2 _ Ho).
    rewrite (bool_decide_eq_false_2 (Point_classify dest e ≠ LEFT)) by auto.
    simpl. by rewrite Hi1.
Qed.
End Properties.

(** ** Concrete runs on binary64 *)

Example unit_square_rotated :
  rotate 2 unit_square = [fpt 1 1; fpt 2 1; fpt 2 2; fpt 1 2].
Proof. reflexivity. Qed.

(** The run from the empty heap, by computation. *)
Example respond_squares_run :
  ∃ h', respond 4 subject_square cutter_square ∅ = Ret (OK 4 (rotate 2 unit_square)) h'.
Proof. eexists. vm_compute. reflexivity. Qed.

(** C3: with the subject square (0,0),(2,0),(2,2),(0,2) and the cutter square
    (1,1),(3,1),(3,3),(1,3), both built by inserting the points in that
    order, [clipPolygon] reports success and the result has 4 vertices which,
    walked clockwise from the cursor, are (2,2),(1,2),(1,1),(2,1) rotated by
    two places.  This holds from every initial heap, for every sufficient
    amount of fuel. *)
Theorem respond_overlapping_squares (h : gmap addr (Vertex float)) :
  ∃ N, ∀ fuel, N ≤ fuel →
    ∃ h', respond fuel subject_square cutter_square h
          = Ret (OK 4 (rotate 2 unit_square)) h'.
Proof.
  destruct (build_spec subject_square h Polygon_new [] (is_polygon_new h))
    as (s & h1 & ls & Es & Hs & Els & Hf1); [simpl; unfold INT_MAX; lia|].
  destruct (build_spec cutter_square h1 Polygon_new [] (is_polygon_new h1))
    as (p & h2 & lp & Ep & Hp & Elp & Hf2); [simpl; unfold INT_MAX; lia|].
  assert (Hs2 : is_polygon h2 s ls).
  { eapply frame_is_polygon; [exact Hf2| |done]. set_solver. }
  pose proof (clipPolygon_refines h2 s ls p lp None Hs2 Hp) as Hc.
  rewrite Els, Elp in Hc.
  assert (E : clipPolygon_pts
                (foldl (λ acc x, ins x acc) [] subject_square)
                (foldl (λ acc x, ins x acc) [] cutter_square)
              = inr (foldl (λ acc x, ins x acc) [] cutter_square,
                     Some (rotate 2 unit_square))).
  { vm_compute. reflexivity. }
  simpl fmap in Hc. rewrite E in Hc.
  destruct Hc as (N & r' & lr & h' & HN & _ & _ & _ & Hr' & Elr & _).
  assert (Hlen : length lr = 4).
  { rewrite <- (length_fmap snd), Elr. reflexivity. }
  exists (N `max` 4). intros fuel Hfuel. exists h'. unfold respond.
  rewrite (bind_Ret _ _ _ _ _ Es), (bind_Ret _ _ _ _ _ Ep).
  rewrite (bind_Ret _ _ _ _ _ (HN fuel ltac:(lia))). cbv beta iota.
  rewrite (bind_Ret _ _ _ lr.*2 h').
  - unfold ret, Polygon_size. destruct Hr' as (_ & -> & _). by rewrite Elr, Hlen.
  - apply walk_spec; [done| |lia]. by destruct lr.
Qed.

(** C2, at a triangle: the polygon built by inserting (0,0),(2,0),(2,2) is
    walked clockwise as (0,0),(2,2),(2,0); its copy has the same three points
    and the same count, but is walked as (0,0),(2,0),(2,2): the copy
    constructor reverses the order of the ring after the cursor. *)
Theorem Polygon_copy_triangle :
  ∃ h',
    (let* s := build [fpt 0 0; fpt 2 0; fpt 2 2] Polygon_new in
     let* original := walk 3 s in
     let* c := Polygon_copy 3 s in
     let* copy := walk 3 c in
     ret (Polygon_size s, original, Polygon_size c, copy)) ∅
    = Ret (3%Z, [fpt 0 0; fpt 2 2; fpt 2 0], 3%Z, [fpt 0 0; fpt 2 0; fpt 2 2]) h'.
Proof. eexists. vm_compute. reflexivity. Qed.

(** C4, at the two diagonals of a square: the segments (0,0)-(2,2) and
    (0,2)-(2,0) cross at (1,1), half way along each of them, and the
    determinant is 8; [intersect] computes t = 0.5 but reports no
    intersection, because the second parameter it tests is -0.5: the
    parameter along the other segment with its sign flipped. *)
Theorem Edge_intersect_diagonals :
  let A := fedge 0 0 2 2 in
  let B := fedge 0 2 2 0 in
  Edge_intersect A B = (false, Some 0.5%float) ∧
  denom A B = 8%float ∧
  Edge_point A 0.5%float = fpt 1 1 ∧ Edge_point B 0.5%float = fpt 1 1.
Proof. vm_compute. repeat split; reflexivity. Qed.

(** ** The two squares of [ex_heap] *)

Example ex_heap_built :
  (let* s := build subject_square Polygon_new in
   let* p := build cutter_square Polygon_new in
   ret (s, p)) ∅ = Ret (ex_subject, ex_cutter) ex_heap.
Proof. vm_compute. reflexivity. Qed.

Lemma ex_subject_ok : is_polygon ex_heap ex_subject ex_subject_ring.
Proof.
  split_and!; [done|done|done|]. simpl. split_and!.
  - apply (bool_decide_unpack _). vm_compute. exact I.
  - by vm_compute.
  - by vm_compute.
  - by vm_compute.
  - by vm_compute.
  - repeat constructor.
Qed.

Lemma ex_cutter_ok : is_polygon ex_heap ex_cutter ex_cutter_ring.
Proof.
  split_and!; [done|done|done|]. simpl. split_and!.
  - apply (bool_decide_unpack _). vm_compute. exact I.
  - by vm_compute.
  - by vm_compute.
  - by vm_compute.
  - by vm_compute.
  - repeat constructor.
Qed.

Lemma Polygon_edge_throws_iff_empty_witness :
  Polygon_inv ex_heap ex_subject ∧
  ((∃ what, Polygon_edge ex_subject ex_heap = Fail (runtime_error what))
   ↔ _size ex_subject = 0%Z) ∧
  (_size ex_subject ≠ 0%Z →
   ∃ a b pa pb,
     _v ex_subject = Some a ∧ nxt ex_heap a = Some b ∧
     pnt ex_heap a = Some pa ∧ pnt ex_heap b = Some pb ∧
     Polygon_edge ex_subject ex_heap = Ret (mkEdge pa pb) ex_heap).
Proof.
  assert (Hinv : Polygon_inv ex_heap ex_subject).
  { exists ex_subject_ring. exact ex_subject_ok. }
  split; [exact Hinv|].
  exact (Polygon_edge_throws_iff_empty ex_heap ex_subject Hinv).
Defined.

Lemma ex_bound : (Z.of_nat (length (@nil (addr * Point float))) + 2 ≤ INT_MAX)%Z.
Proof. by vm_compute. Qed.

Lemma clip_body_inside_is_not_LEFT_witness :
  is_polygon ex_heap ex_subject ex_subject_ring ∧
  clip_cases (λ q, Point_classify q (fedge 1 1 1 3) ≠ LEFT)
    ex_heap ex_subject (fedge 1 1 1 3) Polygon_new [] (fpt 0 0) (fpt 0 2).
Proof.
  split; [exact ex_subject_ok|].
  exact (clip_body_inside_is_not_LEFT ex_heap ex_subject 1%positive (fpt 0 0)
           [(4%positive, fpt 0 2); (3%positive, fpt 2 2); (2%positive, fpt 2 0)]
           Polygon_new [] (fedge 1 1 1 3)
           ex_subject_ok (is_polygon_new ex_heap) ex_bound).
Defined.

(** C1 as stated fails: both ends of the subject edge from (0,0) to (0,2)
    classify LEFT against the clip edge from (1,1) to (1,3), and the loop
    body emits nothing for it, where the reading "inside exactly when LEFT"
    asks for (0,2) to be emitted; and the point (1,2), which lies BETWEEN the
    ends of the clip edge, is kept as an inside point. *)
Lemma clip_inside_is_LEFT_counterexample :
  ¬ clip_cases (λ q, Point_classify q (fedge 1 1 1 3) = LEFT)
      ex_heap ex_subject (fedge 1 1 1 3) Polygon_new [] (fpt 0 0) (fpt 0 2) ∧
  Point_classify (fpt 1 2) (fedge 1 1 1 3) = BETWEEN ∧
  clip_body_pts (fpt 1 2) (fpt 1 2) (fedge 1 1 1 3) [] = inr [fpt 1 2].
Proof.
  split; [|by vm_compute].
  intros (H1 & _).
  destruct H1 as (p' & h' & l' & E & Hp' & El); [by vm_compute..|].
  assert (E' : clip_body ex_subject (fedge 1 1 1 3) Polygon_new ex_heap
               = Ret Polygon_new ex_heap) by (by vm_compute).
  rewrite E' in E. injection E as <- <-.
  destruct Hp' as (_ & Hsz & _). by destruct l'.
Qed.

Lemma ex_one_LEFT :
  let e := fedge 3 1 1 1 in
  (Point_classify (fpt 0 0) e = LEFT ∧ Point_classify (fpt 0 2) e ≠ LEFT) ∨
  (Point_classify (fpt 0 0) e ≠ LEFT ∧ Point_classify (fpt 0 2) e = LEFT).
Proof. left. by vm_compute. Qed.

Lemma ex_denom :
  (dabs (denom (fedge 3 1 1 1) (mkEdge (fpt 0 0) (fpt 0 2))) <? d1e_15)%D = false.
Proof. by vm_compute. Qed.

Lemma crossing_built_from_assigned_t_witness :
  is_polygon ex_heap ex_subject ex_subject_ring ∧
  ∃ flag t,
    Edge_intersect (fedge 3 1 1 1) (mkEdge (fpt 0 0) (fpt 0 2)) = (flag, Some t) ∧
    emits ex_heap ex_subject (fedge 3 1 1 1) Polygon_new []
      (if bool_decide (Point_classify (fpt 0 0) (fedge 3 1 1 1) = LEFT)
       then [Edge_point (fedge 3 1 1 1) t; fpt 0 2]
       else [Edge_point (fedge 3 1 1 1) t]).
Proof.
  split; [exact ex_subject_ok|].
  exact (crossing_built_from_assigned_t ex_heap ex_subject 1%positive (fpt 0 0)
           [(4%positive, fpt 0 2); (3%positive, fpt 2 2); (2%positive, fpt 2 0)]
           Polygon_new [] (fedge 3 1 1 1)
           ex_subject_ok (is_polygon_new ex_heap) ex_bound ex_one_LEFT ex_denom).
Defined.

(** C10 as stated fails.  In the run on the two squares, the subject edge
    from (2,0) to (0,0) has exactly one end LEFT of the clip edge from (1,1)
    to (1,3), [intersect] assigns t = -0.5 and reports no intersection.  And
    for the clip edge from (0,0) to (1,0) and the subject edge from
    (0,2^-54) to (1,0), exactly one end is LEFT, the determinant is 2^-54,
    [intersect] returns before assigning [t], and the loop body reads [t]
    unassigned. *)
Lemma intersect_fails_on_crossing_counterexample :
  (Point_classify (fpt 2 0) (fedge 1 1 1 3) ≠ LEFT ∧
   Point_classify (fpt 0 0) (fedge 1 1 1 3) = LEFT ∧
   Edge_intersect (fedge 1 1 1 3) (fedge 2 0 0 0) = (false, Some (-0.5)%float)) ∧
  (Point_classify (fpt 0 0x1p-54) (fedge 0 0 1 0) = LEFT ∧
   Point_classify (fpt 1 0) (fedge 0 0 1 0) ≠ LEFT ∧
   denom (fedge 0 0 1 0) (fedge 0 0x1p-54 1 0) = 0x1p-54%float ∧
   Edge_intersect (fedge 0 0 1 0) (fedge 0 0x1p-54 1 0) = (false, None) ∧
   clip_body_pts (fpt 0 0x1p-54) (fpt 1 0) (fedge 0 0 1 0) []
     = inl undefined_behaviour).
Proof. by vm_compute. Qed.

(** ** The classification table *)

Lemma binary64_lt_asym (v : float) : (d0 <? v)%D = true → (v <? d0)%D = false.
Proof.
  simpl. rewrite !ltb_spec. change (Prim2SF 0) with (S754_zero false).
  destruct (Prim2SF v) as [sg|sg| |sg m ex]; try destruct sg; cbn; congruence.
Qed.

Lemma Rltb_lt (v w : R) : Rltb v w = true ↔ (v < w)%R.
Proof. unfold Rltb. destruct (Rlt_dec v w); split; (done || congruence). Qed.

Lemma Rltb_nlt (v w : R) : Rltb v w = false ↔ ¬ (v < w)%R.
Proof. unfold Rltb. destruct (Rlt_dec v w); split; (done || congruence). Qed.

Lemma exact_lt_asym (v : R) : (d0 <? v)%D = true → (v <? d0)%D = false.
Proof. simpl. rewrite Rltb_lt, Rltb_nlt. lra. Qed.

Lemma classify_table_of_asym {F : Type} `{Double F} :
  (∀ v : F, (d0 <? v)%D = true → (v <? d0)%D = false) →
  ∀ p e, classify_table p e.
Proof.
  intros Hasym p e. unfold classify_table, Point_classify, sa.
  generalize (Point_sub (dest e) (org e)) (Point_sub p (org e)). intros a b.
  pose proof (Hasym (x a * y b - x b * y a)%D) as Ha.
  destruct (d0 <? x a * y b - x b * y a)%D eqn:E1.
  { rewrite (Ha eq_refl). repeat split; congruence. }
  destruct (x a * y b - x b * y a <? d0)%D eqn:E2.
  { repeat split; congruence. }
  destruct ((x a * x b <? d0)%D || (y a * y b <? d0)%D) eqn:E3;
    destruct (Point_length a <? Point_length b)%D eqn:E4;
    destruct (Point_eq (org e) p) eqn:E5;
    destruct (Point_eq (dest e) p) eqn:E6;
    repeat split; intros; try congruence; intuition congruence.
Qed.

(** ** The geometry over the reals *)

Section Exact.
Local Open Scope R_scope.

Lemma Rltb_true (v w : R) : v < w → Rltb v w = true.
Proof. apply Rltb_lt. Qed.

Lemma Rltb_false (v w : R) : ¬ v < w → Rltb v w = false.
Proof. apply Rltb_nlt. Qed.

Lemma classify_exact_on_line (e : Edge R) (k : R) :
  nondegenerate e →
  Point_classify (Edge_point e k) e =
    if Rltb k 0 then BEHIND
    else if Rltb 1 k then BEYOND
    else if Point_eq (org e) (Edge_point e k) then ORIGIN
    else if Point_eq (dest e) (Edge_point e k) then DESTINATION
    else BETWEEN.
Proof.
  destruct e as [[o1 o2] [e1 e2]]. unfold nondegenerate. simpl. intros Hnd.
  unfold Point_classify, Point_length, Point_sub, Edge_point. simpl.
  set (u := e1 - o1) in *. set (v := e2 - o2) in *.
  replace (o1 + k * u - o1) with (k * u) by ring.
  replace (o2 + k * v - o2) with (k * v) by ring.
  assert (Huv : 0 < u * u + v * v).
  { assert (u ≠ 0 ∨ v ≠ 0) as [Hu|Hv] by (unfold u, v; destruct Hnd; [left|right]; lra); nra. }
  rewrite (Rltb_false 0 (u * (k * v) - k * u * v)) by (replace (u * (k * v) - k * u * v) with 0 by ring; lra).
  rewrite (Rltb_false (u * (k * v) - k * u * v) 0) by (replace (u * (k * v) - k * u * v) with 0 by ring; lra).
  destruct (Rlt_dec k 0) as [Hk|Hk].
  - rewrite (Rltb_true k 0 Hk).
    destruct (Rlt_dec (u * (k * u)) 0) as [H1|H1].
    + by rewrite (Rltb_true _ _ H1).
    + rewrite (Rltb_false _ _ H1). rewrite Rltb_true; [done|]. nra.
  - rewrite (Rltb_false k 0 Hk).
    rewrite (Rltb_false (u * (k * u)) 0) by nra.
    rewrite (Rltb_false (v * (k * v)) 0) by nra.
    simpl orb. cbv iota.
    destruct (Rlt_dec 1 k) as [H1|H1].
    + rewrite (Rltb_true 1 k H1). rewrite Rltb_true; [done|].
      apply sqrt_lt_1_alt. split; [nra|].
      assert (0 < (k * k - 1) * (u * u + v * v)) by (apply Rmult_lt_0_compat; nra).
      nra.
    + rewrite (Rltb_false 1 k H1). rewrite Rltb_false; [done|].
      apply Rle_not_lt, sqrt_le_1_alt.
      assert (0 <= (1 - k * k) * (u * u + v * v)) by (apply Rmult_le_pos; nra).
      nra.
Qed.

Lemma collinear_on_line (p : Point R) (e : Edge R) :
  nondegenerate e → sa p e = 0 → ∃ k, p = Edge_point e k.
Proof.
  destruct e as [[o1 o2] [e1 e2]], p as [p1 p2]. unfold nondegenerate, sa. simpl.
  intros Hnd Hsa.
  set (u := e1 - o1) in *. set (v := e2 - o2) in *.
  set (b1 := p1 - o1) in *. set (b2 := p2 - o2) in *.
  assert (Huv : u * u + v * v ≠ 0).
  { assert (u ≠ 0 ∨ v ≠ 0) as [Hu|Hv] by (unfold u, v; destruct Hnd; [left|right]; lra); nra. }
  assert (Hv : v * (u * b2 - b1 * v) = 0) by (rewrite Hsa; ring).
  assert (Hu : u * (u * b2 - b1 * v) = 0) by (rewrite Hsa; ring).
  exists ((u * b1 + v * b2) / (u * u + v * v)).
  unfold Edge_point. simpl. fold u v.
  assert (E1 : (u * b1 + v * b2) / (u * u + v * v) * u = b1).
  { apply (Rmult_eq_reg_r (u * u + v * v)); [|done].
    replace ((u * b1 + v * b2) / (u * u + v * v) * u * (u * u + v * v))
      with ((u * b1 + v * b2) * u) by (field; done).
    nra. }
  assert (E2 : (u * b1 + v * b2) / (u * u + v * v) * v = b2).
  { apply (Rmult_eq_reg_r (u * u + v * v)); [|done].
    replace ((u * b1 + v * b2) / (u * u + v * v) * v * (u * u + v * v))
      with ((u * b1 + v * b2) * v) by (field; done).
    nra. }
  rewrite E1, E2. unfold b1, b2. f_equal; ring.
Qed.

Lemma Rleb_le (v w : R) : Rleb v w = true ↔ v <= w.
Proof. unfold Rleb. destruct (Rle_dec v w); split; (done || congruence). Qed.

Lemma classify_LEFT_exact (p : Point R) (e : Edge R) :
  Point_classify p e = LEFT ↔ 0 < sa p e.
Proof.
  destruct (classify_table_of_asym exact_lt_asym p e) as (HL & _).
  rewrite HL. simpl. apply Rltb_lt.
Qed.

(** What [intersect] computes over the reals: [t] is the parameter along
    the first edge of the point where the two lines meet; the flag tests [t]
    against [0,1] and, for the second edge, the opposite of its parameter. *)
Lemma intersect_exact (A B : Edge R) flag t :
  Edge_intersect A B = (flag, Some t) →
  ∃ u, Edge_point A t = Edge_point B u ∧
       (flag = true ↔ (0 <= t <= 1 ∧ -1 <= u <= 0)).
Proof.
  destruct A as [[a1 a2] [a3 a4]], B as [[b1 b2] [b3 b4]].
  unfold Edge_intersect, Edge_point. simpl.
  set (a := a3 - a1). set (b := b1 - b3). set (c := a4 - a2). set (d := b2 - b4).
  set (g1 := b1 - a1). set (g2 := b2 - a2).
  destruct (Rltb (Rabs (a * d - b * c)) 1e-15) eqn:Ed; [done|].
  apply Rltb_nlt in Ed.
  assert (Hd : a * d - b * c ≠ 0).
  { intros E0. apply Ed. rewrite E0, Rabs_R0. lra. }
  intros [= <- <-].
  exists ((a * g2 - c * g1) / (a * d - b * c)). split.
  - f_equal.
    + replace (b3 - b1) with (- b) by (unfold b; ring).
      replace a1 with (b1 - g1) at 1 by (unfold g1; ring). field. done.
    + replace (b4 - b2) with (- d) by (unfold d; ring).
      replace a2 with (b2 - g2) at 1 by (unfold g2; ring). field. done.
  - replace ((g1 * c - g2 * a) / (a * d - b * c))
      with (- ((a * g2 - c * g1) / (a * d - b * c))) by (field; done).
    set (u := (a * g2 - c * g1) / (a * d - b * c)).
    rewrite !andb_true_iff, !Rleb_le. lra.
Qed.

(** X1: over the reals, whenever [intersect] assigns [t], [edgeA.point(t)]
    is the point where the lines of the two edges meet, which is
    [edgeB.point(u)] for the parameter [u] along the second edge; the flag
    is true exactly when [t] lies in [0,1] and [u] in [-1,0]. *)
Lemma Edge_intersect_exact (A B : Edge R) flag t :
  Edge_intersect A B = (flag, Some t) →
  ∃ u, Edge_point A t = Edge_point B u ∧
       (flag = true ↔ (0 <= t <= 1 ∧ -1 <= u <= 0)).
Proof. apply intersect_exact. Qed.

(** X2: over the reals, an edge with exactly one end LEFT of the clip edge
    is not parallel to it, and the point built from [t] lies on that edge,
    between its ends. *)
Lemma crossing_exact (e : Edge R) (org dest : Point R) :
  (Point_classify org e = LEFT ∧ Point_classify dest e ≠ LEFT) ∨
  (Point_classify org e ≠ LEFT ∧ Point_classify dest e = LEFT) →
  denom e (mkEdge org dest) ≠ 0 ∧
  ∀ flag t, Edge_intersect e (mkEdge org dest) = (flag, Some t) →
    ∃ u, 0 <= u <= 1 ∧ Edge_point e t = Edge_point (mkEdge org dest) u.
Proof.
  rewrite !classify_LEFT_exact. intros Hone.
  assert (Hden : denom e (mkEdge org dest) = sa org e - sa dest e).
  { destruct e as [[a1 a2] [a3 a4]], org, dest. unfold denom, sa. simpl. ring. }
  assert (Hne : denom e (mkEdge org dest) ≠ 0) by (rewrite Hden; lra).
  split; [done|]. intros flag t Ei.
  destruct (intersect_exact _ _ _ _ Ei) as (u & Eu & _).
  exists u. split; [|done].
  assert (Hu : u * denom e (mkEdge org dest) = sa org e).
  { destruct e as [[a1 a2] [a3 a4]], org as [o1 o2], dest as [q1 q2].
    unfold Edge_intersect in Ei. unfold Edge_point in Eu. unfold denom, sa in *.
    simpl in *.
    destruct (Rltb _ _); [done|]. injection Ei as _ <-.
    injection Eu as E1 E2.
    set (T := _ / _) in *.
    assert (Hlin : (a3 - a1) * ((a2 + T * (a4 - a2)) - (o2 + u * (q2 - o2)))
                   - (a4 - a2) * ((a1 + T * (a3 - a1)) - (o1 + u * (q1 - o1))) = 0).
    { rewrite E1, E2. ring. }
    nra. }
  rewrite Hden in Hu.
  destruct Hone as [[Ho Hd]|[Ho Hd]].
  - assert (0 < sa org e - sa dest e) by lra. split; nra.
  - assert (sa org e - sa dest e < 0) by lra. split; nra.
Qed.
End Exact.

(** C6, as the code has it: [classify] returns LEFT exactly when the signed
    area it computes -- in the arithmetic it runs on, each difference and
    each product rounded -- is positive, and RIGHT exactly when it is
    negative; when it is neither, the class is BEHIND, BEYOND, ORIGIN,
    DESTINATION or BETWEEN according to the tests on the projections, the
    lengths and the two end points, as computed and taken in that order.
    This holds on binary64 and on the reals.  Over the reals the signed area
    computed is the cross product, so that LEFT and RIGHT are its two signs;
    and for an edge whose ends differ, the points of zero signed area are the
    points org + k (dest - org), and such a point is BEHIND for k < 0, BEYOND
    for k > 1 and, for k in [0,1], ORIGIN or DESTINATION when it is equal
    (within 1e-15 on the squared distance) to the start or to the end of
    the edge, BETWEEN otherwise. *)
Theorem classify_classes :
  (∀ (p : Point float) e, classify_table p e) ∧
  (∀ (p : Point R) e, classify_table p e) ∧
  (∀ (p : Point R) e,
     (Point_classify p e = LEFT ↔ (0 < sa p e)%R) ∧
     (Point_classify p e = RIGHT ↔ (sa p e < 0)%R)) ∧
  (∀ (p : Point R) e, nondegenerate e → sa p e = 0%R → ∃ k, p = Edge_point e k) ∧
  (∀ (e : Edge R) k, nondegenerate e →
     Point_classify (Edge_point e k) e =
       if Rltb k 0 then BEHIND
       else if Rltb 1 k then BEYOND
       else if Point_eq (org e) (Edge_point e k) then ORIGIN
       else if Point_eq (dest e) (Edge_point e k) then DESTINATION
       else BETWEEN).
Proof.
  split_and!.
  - apply classify_table_of_asym, binary64_lt_asym.
  - apply classify_table_of_asym, exact_lt_asym.
  - intros p e. split; [apply classify_LEFT_exact|].
    destruct (classify_table_of_asym exact_lt_asym p e) as (_ & -> & _).
    apply Rltb_lt.
  - apply collinear_on_line.
  - apply classify_exact_on_line.
Qed.

(** ** More runs and consequences *)

(** The exchange of [virus.cpp]: two triangles that overlap in a hexagon. *)
Example respond_triangles_run :
  ∃ l h',
    respond 6 [fpt 0 0; fpt 2 0; fpt 1 3] [fpt 0 2; fpt 1 (-1); fpt 2 2] ∅
      = Ret (OK 6 l) h' ∧ length l = 6.
Proof. eexists _, _. vm_compute. split; reflexivity. Qed.

(** Two triangles far apart: the first single-edge clip comes back empty. *)
Example respond_disjoint_run :
  ∃ h',
    respond 3 [fpt 0 0; fpt 2 0; fpt 1 3] [fpt 100 102; fpt 101 99; fpt 102 102] ∅
      = Ret FAIL h'.
Proof. eexists. vm_compute. reflexivity. Qed.

(** X3: the copy constructor in general: the copy is made of cells that
    were not in use, has as many vertices as the original, and is walked from
    its cursor as the first point of the original followed by the others in
    reverse order; the original is as it was. *)
Lemma Polygon_copy_reverses {F : Type} `{Double F}
    (h : gmap addr (Vertex F)) P a c rest :
  is_polygon h P ((a, c) :: rest) →
  ∃ P' h' l',
    (∀ fuel, S (length rest) ≤ fuel →
       Polygon_copy fuel P h = Ret P' h' ∧
       walk fuel P' h' = Ret (c :: rev rest.*2) h') ∧
    is_polygon h' P' l' ∧ _size P' = _size P ∧
    (∀ b, b ∈ l'.*1 → h !! b = None) ∧
    is_polygon h' P ((a, c) :: rest).
Proof.
  intros HP. pose proof HP as (_ & Hsz & _).
  destruct (Polygon_copy_spec h P _ HP) as (P' & h' & l' & E & HP' & El & Hf).
  change (((a, c) :: rest).*2) with (c :: rest.*2) in El.
  rewrite copy_pts_cons in El.
  assert (Hlen : length l' = S (length rest)).
  { rewrite <- (length_fmap snd), El. simpl. by rewrite length_rev, length_fmap. }
  exists P', h', l'. split_and!.
  - intros fuel Hfuel. split; [by apply E|].
    rewrite <- El. apply walk_spec; [done|by destruct l'|lia].
  - done.
  - destruct HP' as (_ & -> & _). rewrite Hsz, Hlen. done.
  - intros b Hb. destruct Hf as [_ Hx]. destruct (Hx b Hb) as [?|Hn]; [set_solver|].
    by apply not_elem_of_dom.
  - eapply frame_is_polygon; [exact Hf| |done]. set_solver.
Qed.

Lemma Polygon_copy_reverses_witness :
  is_polygon ex_heap ex_subject ex_subject_ring ∧
  ∃ P' h' l',
    (∀ fuel, 4 ≤ fuel →
       Polygon_copy fuel ex_subject ex_heap = Ret P' h' ∧
       walk fuel P' h' = Ret [fpt 0 0; fpt 2 0; fpt 2 2; fpt 0 2] h') ∧
    is_polygon h' P' l' ∧ _size P' = _size ex_subject ∧
    (∀ b, b ∈ l'.*1 → ex_heap !! b = None) ∧
    is_polygon h' ex_subject ex_subject_ring.
Proof.
  split; [exact ex_subject_ok|].
  exact (Polygon_copy_reverses ex_heap ex_subject 1%positive (fpt 0 0)
           [(4%positive, fpt 0 2); (3%positive, fpt 2 2); (2%positive, fpt 2 0)]
           ex_subject_ok).
Defined.

Section ExactWitnesses.
Local Open Scope R_scope.

Lemma diagonals_assign_t :
  ∃ flag t, Edge_intersect diagonal_a diagonal_b = (flag, Some t).
Proof.
  unfold Edge_intersect, diagonal_a, diagonal_b. simpl.
  rewrite Rltb_false; [eauto|]. rewrite Rabs_pos_eq by lra. lra.
Qed.

Lemma Edge_intersect_exact_witness :
  ∃ flag t u,
    Edge_intersect diagonal_a diagonal_b = (flag, Some t) ∧
    Edge_point diagonal_a t = Edge_point diagonal_b u ∧
    (flag = true ↔ (0 <= t <= 1 ∧ -1 <= u <= 0)).
Proof.
  destruct diagonals_assign_t as (flag & t & E).
  destruct (Edge_intersect_exact diagonal_a diagonal_b flag t E) as (u & Hu).
  exists flag, t, u. split; [exact E|exact Hu].
Defined.

Lemma clip_edge_one_LEFT :
  (Point_classify (mkPoint 0 0) (mkEdge (mkPoint 3 1) (mkPoint 1 1)) = LEFT ∧
   Point_classify (mkPoint 0 2) (mkEdge (mkPoint 3 1) (mkPoint 1 1)) ≠ LEFT) ∨
  (Point_classify (mkPoint 0 0) (mkEdge (mkPoint 3 1) (mkPoint 1 1)) ≠ LEFT ∧
   Point_classify (mkPoint 0 2) (mkEdge (mkPoint 3 1) (mkPoint 1 1)) = LEFT).
Proof.
  left. rewrite !classify_LEFT_exact. unfold sa. simpl. lra.
Qed.

Lemma crossing_exact_witness :
  denom (mkEdge (mkPoint 3 1) (mkPoint 1 1)) (mkEdge (mkPoint 0 0) (mkPoint 0 2)) ≠ 0 ∧
  ∀ flag t,
    Edge_intersect (mkEdge (mkPoint 3 1) (mkPoint 1 1))
      (mkEdge (mkPoint 0 0) (mkPoint 0 2)) = (flag, Some t) →
    ∃ u, 0 <= u <= 1 ∧
         Edge_point (mkEdge (mkPoint 3 1) (mkPoint 1 1)) t
           = Edge_point (mkEdge (mkPoint 0 0) (mkPoint 0 2)) u.
Proof.
  exact (crossing_exact (mkEdge (mkPoint 3 1) (mkPoint 1 1))
           (mkPoint 0 0) (mkPoint 0 2) clip_edge_one_LEFT).
Defined.
End ExactWitnesses.

(** * Further properties of the code *)

(** ** What the procedures allocate and free

    Whatever the shape of the heap, a procedure that returns has changed the
    number of cells in use by the number of vertices it reports. *)

Section Cells.
Context {F : Type} `{Double F}.
Implicit Types (h : gmap addr (Vertex F)).

Lemma bind_inv {A B} (m : M F A) (k : A → M F B) h b h' :
  bind m k h = Ret b h' → ∃ a h1, m h = Ret a h1 ∧ k a h1 = Ret b h'.
Proof. unfold bind. destruct (m h) as [a h1|f]; [eauto|done]. Qed.

Lemma ret_inv {A} (a b : A) h h' : ret a h = Ret b h' → a = b ∧ h = h'.
Proof. unfold ret. by intros [= -> ->]. Qed.

Lemma deref_inv v h c h' : deref v h = Ret c h' → h' = h.
Proof. unfold deref. destruct v as [a|]; [|done]. destruct (h !! a); by intros [= _ ->]. Qed.

Lemma store_dom v f h h' : store v f h = Ret tt h' → dom h' = dom h.
Proof.
  unfold store. destruct v as [a|]; [|done]. destruct (h !! a); [|done].
  intros [= <-]. apply dom_alter_L.
Qed.

Lemma set_prev_dom v n h h' : set_prev v n h = Ret tt h' → dom h' = dom h.
Proof. apply store_dom. Qed.

Lemma get_next_inv v h n h' : get_next v h = Ret n h' → h' = h.
Proof. intros (c & h1 & E1 & [_ <-]%ret_inv)%bind_inv. by eapply deref_inv. Qed.

Lemma get_prev_inv v h n h' : get_prev v h = Ret n h' → h' = h.
Proof. intros (c & h1 & E1 & [_ <-]%ret_inv)%bind_inv. by eapply deref_inv. Qed.

Lemma Vertex_insert_dom this v h r h' :
  Vertex_insert this v h = Ret r h' → dom h' = dom h.
Proof.
  unfold Vertex_insert.
  intros (n & h1 & ->%get_next_inv & E)%bind_inv.
  apply bind_inv in E as ([] & h2 & E2%store_dom & E).
  apply bind_inv in E as ([] & h3 & E3%store_dom & E).
  apply bind_inv in E as (n' & h4 & ->%get_next_inv & E).
  apply bind_inv in E as ([] & h5 & E5 & E).
  apply bind_inv in E as ([] & h6 & E6%store_dom & [_ <-]%ret_inv).
  rewrite E6. transitivity (dom h3); [|congruence].
  destruct n'; [by apply set_prev_dom in E5|]. by apply ret_inv in E5 as [_ ->].
Qed.

Lemma Polygon_insert_dom P x h P' h' :
  Polygon_insert P x h = Ret P' h' →
  dom h' = {[fresh (dom h)]} ∪ dom h ∧ _size P' = (_size P + 1)%Z.
Proof.
  unfold Polygon_insert. intros (v & h1 & E1 & E)%bind_inv.
  unfold new_Vertex in E1. injection E1 as <- <-.
  apply bind_inv in E as (P1 & h2 & E2 & E).
  assert (dom h2 = {[fresh (dom h)]} ∪ dom h ∧ _size P1 = _size P) as [Ed Es].
  { destruct (_v P).
    - apply bind_inv in E2 as (r & h3 & E3%Vertex_insert_dom & [<- <-]%ret_inv).
      split; [|done]. rewrite E3. apply dom_insert_L.
    - apply bind_inv in E2 as ([] & h3 & E3%store_dom & E2).
      apply bind_inv in E2 as ([] & h4 & E4%store_dom & [<- <-]%ret_inv).
      split; [|done]. rewrite E4, E3. apply dom_insert_L. }
  destruct (_ <? _)%Z; [|done]. apply ret_inv in E as [<- <-]. simpl. by rewrite Es.
Qed.

Lemma Polygon_insert_cells P x h P' h' :
  Polygon_insert P x h = Ret P' h' →
  cells h' = (cells h + 1)%Z ∧ _size P' = (_size P + 1)%Z.
Proof.
  intros [Ed Es]%Polygon_insert_dom. split; [|done]. unfold cells. rewrite Ed.
  rewrite size_union by (pose proof (is_fresh (dom h)); set_solver).
  rewrite size_singleton. lia.
Qed.

Lemma clip_body_cells s e p h p' h' :
  clip_body s e p h = Ret p' h' →
  (cells h' - _size p' = cells h - _size p)%Z.
Proof.
  unfold clip_body, Polygon_getPoint, Polygon_cw, Vertex_cw.
  intros (org & h1 & E1 & E)%bind_inv.
  apply bind_inv in E1 as (c0 & h0 & ->%deref_inv & [_ <-]%ret_inv).
  apply bind_inv in E as (c & h2 & ->%get_next_inv & E).
  apply bind_inv in E as (cv & h3 & ->%deref_inv & E).
  destruct (negb _).
  - apply bind_inv in E as (se & h4 & E4 & E).
    assert (h4 = h) as ->.
    { unfold Polygon_edge in E4. destruct (_v s); [|done].
      apply bind_inv in E4 as (? & ? & ->%deref_inv & E4).
      apply bind_inv in E4 as (? & ? & ->%get_next_inv & E4).
      apply bind_inv in E4 as (? & ? & ->%deref_inv & [_ <-]%ret_inv). done. }
    destruct (snd _); [|done]. destruct (bool_decide _).
    + apply Polygon_insert_cells in E. lia.
    + apply bind_inv in E as (p1 & h5 & E5%Polygon_insert_cells & E%Polygon_insert_cells).
      lia.
  - destruct (bool_decide _).
    + apply Polygon_insert_cells in E. lia.
    + by apply ret_inv in E as [<- <-].
Qed.

Lemma Polygon_advance_inv P rot h P' h' :
  Polygon_advance P rot h = Ret P' h' → h' = h ∧ _size P' = _size P.
Proof.
  unfold Polygon_advance, Vertex_neighbor, Vertex_cw, Vertex_ccw.
  intros (n & h1 & E1 & [<- <-]%ret_inv)%bind_inv. split; [|done].
  destruct (decide _); [by eapply get_next_inv|by eapply get_prev_inv].
Qed.

Lemma clip_loop_cells n : ∀ s e p h s' p' h',
  clip_loop n s e p h = Ret (s', p') h' →
  (cells h' - _size p' = cells h - _size p)%Z.
Proof.
  induction n as [|n IH]; intros s e p h s' p' h'; simpl.
  { by intros [[= <- <-] <-]%ret_inv. }
  intros (p1 & h1 & E1%clip_body_cells & E)%bind_inv.
  apply bind_inv in E as (s1 & h2 & [-> _]%Polygon_advance_inv & E%IH). lia.
Qed.

Lemma clipPolygonToEdge_cells s e h s' r ok h' :
  clipPolygonToEdge s e h = Ret (s', r, ok) h' →
  cells h' = (cells h + _size r)%Z.
Proof.
  unfold clipPolygonToEdge. intros ([s1 p1] & h1 & E1%clip_loop_cells & E)%bind_inv.
  apply ret_inv in E as [[= <- <- <-] <-]. simpl in E1. lia.
Qed.

Lemma Polygon_copy_loop_cells fuel : ∀ other cur this h P' h',
  Polygon_copy_loop fuel other cur this h = Ret P' h' →
  (cells h' - _size P' = cells h - _size this)%Z.
Proof.
  induction fuel as [|fuel IH]; intros other cur this h P' h'; simpl; [done|].
  intros (c & h1 & ->%deref_inv & E)%bind_inv.
  apply bind_inv in E as (this1 & h2 & E2%Polygon_insert_cells & E).
  apply bind_inv in E as (cur1 & h3 & ->%get_next_inv & E).
  destruct (decide _).
  - apply IH in E. lia.
  - apply ret_inv in E as [<- <-]. lia.
Qed.

Lemma Polygon_copy_cells fuel P h P' h' :
  Polygon_copy fuel P h = Ret P' h' → cells h' = (cells h + _size P')%Z.
Proof.
  unfold Polygon_copy. destruct (_v P).
  - intros E%Polygon_copy_loop_cells. simpl in E. lia.
  - intros [<- <-]%ret_inv. simpl. lia.
Qed.

Lemma build_cells pts : ∀ P h P' h',
  build pts P h = Ret P' h' →
  (cells h' - _size P' = cells h - _size P)%Z.
Proof.
  induction pts as [|x pts IH]; intros P h P' h'; simpl.
  { by intros [<- <-]%ret_inv. }
  intros (P1 & h1 & E1%Polygon_insert_cells & E%IH)%bind_inv. lia.
Qed.

Lemma Polygon_delete_loop_mono fuel : ∀ fuel' v w h h',
  Polygon_delete_loop fuel v w h = Ret tt h' → fuel ≤ fuel' →
  Polygon_delete_loop fuel' v w h = Ret tt h'.
Proof.
  induction fuel as [|fuel IH]; intros fuel' v w h h'; simpl; [done|].
  intros E Hle. destruct fuel' as [|fuel']; [lia|]. simpl.
  destruct (decide _); [|done].
  apply bind_inv in E as (r & h1 & E1 & E). rewrite (bind_Ret _ _ _ _ _ E1).
  apply bind_inv in E as ([] & h2 & E2 & E). rewrite (bind_Ret _ _ _ _ _ E2).
  apply bind_inv in E as (w1 & h3 & E3 & E). rewrite (bind_Ret _ _ _ _ _ E3).
  apply IH; [done|lia].
Qed.

Lemma Polygon_delete_mono fuel fuel' P h h' :
  Polygon_delete fuel P h = Ret tt h' → fuel ≤ fuel' →
  Polygon_delete fuel' P h = Ret tt h'.
Proof.
  unfold Polygon_delete. destruct (_v P); [|done]. intros E Hle.
  apply bind_inv in E as (w & h1 & E1 & E). rewrite (bind_Ret _ _ _ _ _ E1).
  apply bind_inv in E as ([] & h2 & E2 & E).
  by rewrite (bind_Ret _ _ _ _ _ (Polygon_delete_loop_mono _ _ _ _ _ _ E2 Hle)).
Qed.

(** Whatever the fuel, a destructor call that returns has freed the cells of
    the ring and nothing else. *)
Lemma Polygon_delete_ret fuel h P l h' :
  is_polygon h P l → Polygon_delete fuel P h = Ret tt h' →
  (∀ b, b ∉ l.*1 → h' !! b = h !! b) ∧ (∀ b, b ∈ l.*1 → h' !! b = None) ∧
  cells h' = (cells h - Z.of_nat (length l))%Z.
Proof.
  intros HP E.
  destruct (Polygon_delete_spec h P l HP) as (h0 & E0 & Hout & Hin).
  assert (h0 = h') as ->.
  { pose proof (E0 (fuel `max` length l) ltac:(lia)) as E1.
    rewrite (Polygon_delete_mono _ _ _ _ _ E) in E1 by lia. congruence. }
  split_and!; [done..|].
  assert (Hnd : NoDup l.*1).
  { destruct HP as (_ & _ & _ & Hr). destruct l as [|[a p] rest]; [constructor|].
    apply Hr. }
  assert (Hsub : list_to_set l.*1 ⊆ dom h).
  { intros b Hb%elem_of_list_to_set. apply elem_of_dom.
    destruct HP as (_ & _ & _ & Hr). by eapply ring_is_Some. }
  assert (Hd : dom h' = dom h ∖ list_to_set l.*1).
  { apply set_eq. intros b. rewrite elem_of_difference, elem_of_list_to_set, !elem_of_dom.
    destruct (decide (b ∈ l.*1)) as [Hb|Hb].
    - rewrite (Hin b Hb). split; [by intros [? ?]|tauto].
    - rewrite (Hout b Hb). tauto. }
  unfold cells. rewrite Hd, size_difference by done.
  rewrite size_list_to_set by done. rewrite length_fmap.
  apply subseteq_size in Hsub. rewrite size_list_to_set, length_fmap in Hsub by done.
  lia.
Qed.

Lemma clipPolygon_loop_cells n : ∀ fuel h q lq p lp p' res h',
  is_polygon h q lq → is_polygon h p lp → (∀ b, b ∈ lq.*1 → b ∉ lp.*1) →
  clipPolygon_loop fuel n q p h = Ret (p', res) h' →
  cells h' = (cells h - _size q + match res with Some r => _size r | None => 0 end)%Z.
Proof.
  induction n as [|n IH]; intros fuel h q lq p lp p' res h' Hq Hp Hdisj; simpl.
  { intros [[= <- <-] <-]%ret_inv. lia. }
  intros (e & h0 & Ee & E)%bind_inv.
  destruct lp as [|[a c] rest].
  { unfold Polygon_edge in Ee. destruct Hp as (Hv & _). simpl in Hv. by rewrite Hv in Ee. }
  rewrite (Polygon_edge_spec h p a c rest Hp) in Ee. injection Ee as <- <-.
  apply bind_inv in E as ([[q1 r] ok] & h1 & E1 & E).
  pose proof (clipPolygonToEdge_cells _ _ _ _ _ _ _ E1) as Hc1.
  pose proof (clipPolygonToEdge_refines h q lq (mkEdge c (hd c rest.*2)) Hq) as Hc.
  destruct (clipPolygonToEdge_pts lq.*2 (mkEdge c (hd c rest.*2))) as [f|acc];
    [congruence|].
  destruct Hc as (r0 & h1' & lr & E1' & Hq1 & Hr1 & <- & Hf1).
  rewrite E1 in E1'. injection E1' as -> <- Eok <-.
  assert (Hp1 : is_polygon h1 p ((a, c) :: rest)).
  { eapply frame_is_polygon; [exact Hf1| |done]. set_solver. }
  assert (Hsz : _size q = Z.of_nat (length lq)) by apply Hq.
  assert (Hlr : ∀ b, b ∈ lr.*1 → ¬ is_Some (h !! b)).
  { intros b Hb. destruct Hf1 as [_ Hx]. destruct (Hx b Hb) as [?|Hn]; [set_solver|].
    by rewrite <- elem_of_dom. }
  destruct ok; cbn [negb] in E.
  - apply bind_inv in E as ([] & h2 & E2 & E).
    destruct (Polygon_delete_ret _ _ _ _ _ Hq1 E2) as (Hd2 & _ & Hc2).
    apply Polygon_delete_frame in Hd2 as Hf2.
    assert (Hp2 : is_polygon h2 p ((a, c) :: rest)).
    { eapply frame_is_polygon; [exact Hf2| |done]. intros b Hb Hb'. by eapply Hdisj. }
    assert (Hr2 : is_polygon h2 r lr).
    { eapply frame_is_polygon; [exact Hf2| |done]. intros b Hb Hb'.
      apply (Hlr b Hb). destruct Hq as (_ & _ & _ & Hr). by eapply ring_is_Some. }
    apply bind_inv in E as (p1 & h3 & Ea & E).
    destruct (Polygon_advance_spec _ _ _ _ _ Hp2) as (p1' & Ea' & Hp1').
    rewrite Ea in Ea'. injection Ea' as <- <-.
    assert (Hdisj' : ∀ b, b ∈ lr.*1 → b ∉ (rest ++ [(a, c)]).*1).
    { intros b Hb Hb'. apply (Hlr b Hb).
      destruct Hp as (_ & _ & _ & Hr). eapply ring_is_Some; [exact Hr|].
      rewrite fmap_app in Hb'. set_solver. }
    rewrite (IH _ _ _ _ _ _ _ _ _ Hr2 Hp1' Hdisj' E). lia.
  - apply bind_inv in E as ([] & h2 & E2 & [[= <- <-] <-]%ret_inv).
    destruct (Polygon_delete_ret _ _ _ _ _ Hq1 E2) as (_ & _ & Hc2).
    assert (_size r = 0%Z).
    { destruct Hr1 as (_ & -> & _). rewrite length_fmap in Eok. lia. }
    lia.
Qed.

Lemma clipPolygon_cells fuel h s ls p lp result p' res ok h' :
  is_polygon h s ls → is_polygon h p lp → length ls ≤ fuel →
  clipPolygon fuel s p result h = Ret (p', res, ok) h' →
  cells h' =
    (cells h + if ok then match res with Some r => _size r | None => 0 end else 0)%Z.
Proof.
  intros Hs Hp Hfuel. unfold clipPolygon. intros (q & h1 & Ec & E)%bind_inv.
  pose proof (Polygon_copy_cells _ _ _ _ _ Ec) as Hc1.
  destruct (Polygon_copy_spec h s ls Hs) as (q0 & h0 & lq & Ec0 & Hq & Elq & Hf1).
  rewrite (Ec0 fuel Hfuel) in Ec. injection Ec as -> ->.
  assert (Hp1 : is_polygon h1 p lp).
  { eapply frame_is_polygon; [exact Hf1| |done]. set_solver. }
  assert (Hdisj : ∀ b, b ∈ lq.*1 → b ∉ lp.*1).
  { intros b Hb Hb'. destruct Hf1 as [_ Hx]. destruct (Hx b Hb) as [?|Hn]; [set_solver|].
    apply Hn, elem_of_dom. destruct Hp as (_ & _ & _ & Hr). by eapply ring_is_Some. }
  apply bind_inv in E as ([p1 r] & h2 & El & E).
  pose proof (clipPolygon_loop_cells _ _ _ _ _ _ _ _ _ _ Hq Hp1 Hdisj El) as Hc2.
  destruct r; apply ret_inv in E as [[= <- <- <-] <-]; lia.
Qed.

Lemma heap_restored h h' :
  (∀ b, is_Some (h !! b) → h' !! b = h !! b) → cells h' = cells h → h' = h.
Proof.
  intros Hold Hc.
  assert (Hsub : dom h ⊆ dom h').
  { intros b Hb%elem_of_dom. apply elem_of_dom. by rewrite Hold. }
  assert (Hd : dom h = dom h').
  { apply set_subseteq_size_eq; [done|]. unfold cells in Hc. lia. }
  apply map_eq. intros b. destruct (h !! b) as [c|] eqn:E.
  - rewrite Hold by (by rewrite E). done.
  - apply not_elem_of_dom. rewrite <- Hd. by apply not_elem_of_dom.
Qed.

Lemma frame_fresh h h' X X' b : frame h h' X X' → (∀ x, x ∉ X) → b ∈ X' → ¬ is_Some (h !! b).
Proof.
  intros [_ Hx] HX Hb. destruct (Hx b Hb) as [?|Hn]; [by apply HX in H0|].
  by rewrite <- elem_of_dom.
Qed.

Lemma elem_of_rotate1 {A} (l : list A) x : x ∈ rotate1 l ↔ x ∈ l.
Proof. destruct l; simpl; set_solver. Qed.

Lemma elem_of_iter_rotate1 {A} (l : list A) k x : x ∈ Nat.iter k rotate1 l ↔ x ∈ l.
Proof. induction k; simpl; [done|]. by rewrite elem_of_rotate1. Qed.

Lemma iter_rotate1_fmap {A B} (f : A → B) (l : list A) k :
  f <$> Nat.iter k rotate1 l = Nat.iter k rotate1 (f <$> l).
Proof.
  induction k; simpl; [done|]. rewrite <- IHk.
  destruct (Nat.iter k rotate1 l); simpl; [done|]. by rewrite fmap_app.
Qed.

Lemma handle_refines h (ls lp : list (Point F)) :
  (Z.of_nat (length ls) ≤ INT_MAX)%Z → (Z.of_nat (length lp) ≤ INT_MAX)%Z →
  ∃ N, ∀ fuel, N ≤ fuel →
    handle fuel ls lp h =
      match handle_pts ls lp with inl f => Fail f | inr r => Ret r h end.
Proof.
  intros Hls Hlp.
  destruct (build_spec ls h Polygon_new [] (is_polygon_new h))
    as (s & h1 & ls' & Es & Hs & Els & Hf1); [simpl; lia|].
  destruct (build_spec lp h1 Polygon_new [] (is_polygon_new h1))
    as (p & h2 & lp' & Ep & Hp & Elp & Hf2); [simpl; lia|].
  pose proof (build_cells _ _ _ _ _ Es) as Hc1.
  pose proof (build_cells _ _ _ _ _ Ep) as Hc2. simpl in Hc1, Hc2.
  assert (Hs2 : is_polygon h2 s ls').
  { eapply frame_is_polygon; [exact Hf2| |done]. set_solver. }
  assert (Hls' : ∀ b, b ∈ ls'.*1 → ¬ is_Some (h !! b)).
  { intros b. eapply frame_fresh; [exact Hf1|set_solver]. }
  assert (Hlp' : ∀ b, b ∈ lp'.*1 → ¬ is_Some (h1 !! b)).
  { intros b. eapply frame_fresh; [exact Hf2|set_solver]. }
  assert (Hsp : ∀ b, b ∈ ls'.*1 → b ∉ lp'.*1).
  { intros b Hb Hb'. apply (Hlp' b Hb').
    destruct Hs as (_ & _ & _ & Hr). by eapply ring_is_Some. }
  assert (Hold2 : ∀ b, is_Some (h !! b) → h2 !! b = h !! b ∧ is_Some (h1 !! b)).
  { intros b Hb.
    assert (h1 !! b = h !! b) as E1 by (eapply frame_lookup; [exact Hf1|done|set_solver]).
    assert (is_Some (h1 !! b)) as Hb1 by (by rewrite E1).
    split; [|done]. rewrite <- E1. eapply frame_lookup; [exact Hf2|done|set_solver]. }
  pose proof (clipPolygon_refines h2 s ls' p lp' None Hs2 Hp) as Hc.
  unfold handle_pts. simpl in Els, Elp. fold (copy_pts ls) in Els. fold (copy_pts lp) in Elp.
  rewrite Els, Elp in Hc.
  assert (Hstart : ∀ fuel,
    handle fuel ls lp h =
      bind (clipPolygon fuel s p None)
        (λ '(p, result, ok),
          let* response :=
            (if ok then
               match result with
               | Some r => let* l := walk fuel r in
                           let* _ := Polygon_delete fuel r in
                           ret (OK (Polygon_size r) l)
               | None => fail undefined_behaviour
               end
             else ret FAIL) in
          let* _ := Polygon_delete fuel p in
          let* _ := Polygon_delete fuel s in
          ret response) h2).
  { intros fuel. unfold handle.
    by rewrite (bind_Ret _ _ _ _ _ Es), (bind_Ret _ _ _ _ _ Ep). }
  assert (Hsz_s : _size s = Z.of_nat (length ls')) by apply Hs.
  assert (Hsz_p : _size p = Z.of_nat (length lp')) by apply Hp.
  destruct (clipPolygon_pts (copy_pts ls) (copy_pts lp)) as [f|[pp [r|]]].
  - destruct Hc as [N HN]. exists N. intros fuel Hfuel. rewrite Hstart.
    apply bind_Fail. by apply HN.
  - destruct Hc as (N & r' & lr & h3 & HN & Hs3 & Hp3 & _ & Hr3 & Elr & Hf3).
    assert (Hsz_r : _size r' = Z.of_nat (length lr)) by apply Hr3.
    destruct lr as [|[a c] lr0] eqn:Elr0.
    { simpl in Elr. subst r. exists (N `max` 1). intros fuel Hfuel. rewrite Hstart.
      rewrite (bind_Ret _ _ _ _ _ (HN fuel ltac:(lia))). cbv beta iota.
      apply bind_Fail. apply bind_Fail.
      destruct Hr3 as (Hv & _). simpl in Hv. unfold walk. rewrite Hv.
      destruct fuel; [lia|]. done. }
    rewrite <- Elr0 in *. assert (lr ≠ []) as Hne by (by rewrite Elr0).
    assert (Hlr : ∀ b, b ∈ lr.*1 → ¬ is_Some (h2 !! b)).
    { intros b. eapply frame_fresh; [exact Hf3|set_solver]. }
    destruct (Polygon_delete_spec h3 r' lr Hr3) as (h4 & E4 & Hout4 & Hin4).
    assert (Hp4 : is_polygon h4 p lp').
    { eapply is_polygon_frame; [|exact Hp3]. intros b Hb. apply Hout4. intros Hb'.
      apply (Hlr b Hb'). destruct Hp as (_ & _ & _ & Hr). by eapply ring_is_Some. }
    assert (Hs4 : is_polygon h4 s ls').
    { eapply is_polygon_frame; [|exact Hs3]. intros b Hb. apply Hout4. intros Hb'.
      apply (Hlr b Hb'). destruct Hs2 as (_ & _ & _ & Hr). by eapply ring_is_Some. }
    destruct (Polygon_delete_spec h4 p lp' Hp4) as (h5 & E5 & Hout5 & Hin5).
    assert (Hs5 : is_polygon h5 s ls').
    { eapply is_polygon_frame; [|exact Hs4]. intros b Hb. apply Hout5. by apply Hsp. }
    destruct (Polygon_delete_spec h5 s ls' Hs5) as (h6 & E6 & Hout6 & Hin6).
    set (M := ((N `max` length ls') `max` length lp') `max` length lr).
    pose proof (clipPolygon_cells M _ _ _ _ _ _ _ _ _ _ Hs2 Hp ltac:(lia)
                  (HN M ltac:(lia))) as Hc3. simpl in Hc3.
    destruct (Polygon_delete_ret _ _ _ _ _ Hr3 (E4 M ltac:(lia))) as (_ & _ & Hc4).
    destruct (Polygon_delete_ret _ _ _ _ _ Hp4 (E5 M ltac:(lia))) as (_ & _ & Hc5).
    destruct (Polygon_delete_ret _ _ _ _ _ Hs5 (E6 M ltac:(lia))) as (_ & _ & Hc6).
    assert (h6 = h) as ->.
    { apply heap_restored; [|lia]. intros b Hb.
      destruct (Hold2 b Hb) as [E2 Hb1].
      assert (Hb2 : is_Some (h2 !! b)) by (by rewrite E2).
      rewrite Hout6 by (intros Hb'; by apply (Hls' b Hb')).
      rewrite Hout5 by (intros Hb'; by apply (Hlp' b Hb')).
      rewrite Hout4 by (intros Hb'; by apply (Hlr b Hb')).
      rewrite <- E2. eapply frame_lookup; [exact Hf3|done|set_solver]. }
    exists M. intros fuel Hfuel. rewrite Hstart.
    rewrite (bind_Ret _ _ _ _ _ (HN fuel ltac:(lia))). cbv beta iota.
    rewrite (bind_Ret _ _ _ (OK (Polygon_size r') lr.*2) h4).
    + rewrite (bind_Ret _ _ _ _ _ (E5 fuel ltac:(lia))).
      rewrite (bind_Ret _ _ _ _ _ (E6 fuel ltac:(lia))).
      unfold ret, Polygon_size. rewrite Hsz_r. subst r. rewrite Elr0. simpl.
      by rewrite length_fmap.
    + rewrite (bind_Ret _ _ _ lr.*2 h3) by (apply walk_spec; [done|done|lia]).
      by rewrite (bind_Ret _ _ _ _ _ (E4 fuel ltac:(lia))).
  - destruct Hc as (N & p' & h3 & k & HN & Hk & Hs3 & Hp3 & _ & Hf3).
    destruct (Polygon_delete_spec h3 p' _ Hp3) as (h5 & E5 & Hout5 & Hin5).
    assert (Hs5 : is_polygon h5 s ls').
    { eapply is_polygon_frame; [|exact Hs3]. intros b Hb. apply Hout5.
      rewrite iter_rotate1_fmap, elem_of_iter_rotate1. by apply Hsp. }
    destruct (Polygon_delete_spec h5 s ls' Hs5) as (h6 & E6 & Hout6 & Hin6).
    set (M := (N `max` length ls') `max` length lp').
    pose proof (clipPolygon_cells M _ _ _ _ _ _ _ _ _ _ Hs2 Hp ltac:(lia)
                  (HN M ltac:(lia))) as Hc3. simpl in Hc3.
    destruct (Polygon_delete_ret _ _ _ _ _ Hp3
                (E5 M ltac:(rewrite length_iter_rotate1; lia))) as (_ & _ & Hc5).
    destruct (Polygon_delete_ret _ _ _ _ _ Hs5 (E6 M ltac:(lia))) as (_ & _ & Hc6).
    rewrite length_iter_rotate1 in Hc5.
    assert (h6 = h) as ->.
    { apply heap_restored; [|lia]. intros b Hb.
      destruct (Hold2 b Hb) as [E2 Hb1].
      assert (Hb2 : is_Some (h2 !! b)) by (by rewrite E2).
      rewrite Hout6 by (intros Hb'; by apply (Hls' b Hb')).
      rewrite Hout5
        by (rewrite iter_rotate1_fmap, elem_of_iter_rotate1;
            intros Hb'; by apply (Hlp' b Hb')).
      rewrite <- E2. eapply frame_lookup; [exact Hf3|done|set_solver]. }
    exists M. intros fuel Hfuel. rewrite Hstart.
    rewrite (bind_Ret _ _ _ _ _ (HN fuel ltac:(lia))). cbv beta iota.
    rewrite (bind_Ret _ _ _ FAIL h3) by done.
    rewrite (bind_Ret _ _ _ _ _ (E5 fuel ltac:(rewrite length_iter_rotate1; lia))).
    by rewrite (bind_Ret _ _ _ _ _ (E6 fuel ltac:(lia))).
Qed.

End Cells.

(** ** The clipping procedures as passes over lists of edges *)

Section Edges.
Context {F : Type} `{Double F}.

Lemma length_edges (l : list (Point F)) : length (edges l) = length l.
Proof.
  unfold edges. rewrite length_zip_with, length_rotate1. lia.
Qed.

Lemma edges_cons c (rest : list (Point F)) :
  edges (c :: rest) = mkEdge c (hd c rest) :: zip_with mkEdge rest (tl (rest ++ [c])).
Proof. unfold edges. destruct rest; reflexivity. Qed.

Lemma length_edges_tail c (rest : list (Point F)) :
  length (zip_with mkEdge rest (tl (rest ++ [c]))) = length rest.
Proof.
  pose proof (length_edges (c :: rest)) as HL. rewrite edges_cons in HL.
  simpl in HL. lia.
Qed.

Lemma edges_rotate1 (l : list (Point F)) : edges (rotate1 l) = rotate1 (edges l).
Proof.
  destruct l as [|c [|d rest]]; [done..|].
  unfold edges.
  change (rotate1 (c :: d :: rest)) with ((d :: rest) ++ [c]).
  change (rotate1 ((d :: rest) ++ [c])) with ((rest ++ [c]) ++ [d]).
  rewrite zip_with_app by (rewrite length_app; simpl; lia). done.
Qed.

Lemma take_rotate1 {A} n (l : list A) x :
  n ≤ length l → take n (rotate1 (x :: l)) = take n l.
Proof. intros Hn. simpl. by rewrite take_app_le. Qed.

Lemma clip_loop_pts_edges n : ∀ (s : list (Point F)) e acc,
  n ≤ length s →
  clip_loop_pts n s e acc = clip_edges_pts (take n (edges s)) e acc.
Proof.
  induction n as [|n IH]; intros s e acc Hn; [done|].
  destruct s as [|c rest]; [simpl in Hn; lia|].
  rewrite edges_cons. cbn [clip_loop_pts take clip_edges_pts org dest].
  destruct (clip_body_pts _ _ _ _) as [f|acc']; [done|].
  rewrite IH by (rewrite length_rotate1; simpl in *; lia).
  rewrite edges_rotate1, edges_cons. simpl in Hn.
  rewrite take_rotate1; [done|].
  rewrite length_edges_tail. lia.
Qed.

Lemma clipPolygonToEdge_pts_edges (s : list (Point F)) e :
  clipPolygonToEdge_pts s e = clip_edges_pts (edges s) e [].
Proof.
  unfold clipPolygonToEdge_pts. rewrite clip_loop_pts_edges by done.
  by rewrite <- length_edges, firstn_all.
Qed.

Lemma clipPolygon_loop_pts_edges n : ∀ (q p : list (Point F)),
  n ≤ length p →
  sum_map (λ f : Fault, f) snd (clipPolygon_loop_pts n q p) = clip_all_pts (take n (edges p)) q.
Proof.
  induction n as [|n IH]; intros q p Hn; [done|].
  destruct p as [|c rest]; [simpl in Hn; lia|].
  rewrite edges_cons. cbn [clipPolygon_loop_pts take clip_all_pts].
  destruct (clipPolygonToEdge_pts _ _) as [f|r]; [done|].
  destruct (negb _); [done|].
  rewrite IH by (rewrite length_rotate1; simpl in *; lia).
  rewrite edges_rotate1, edges_cons. simpl in Hn.
  rewrite take_rotate1; [done|].
  rewrite length_edges_tail. lia.
Qed.

Lemma clipPolygon_pts_edges (s p : list (Point F)) :
  sum_map (λ f : Fault, f) snd (clipPolygon_pts s p) = clip_all_pts (edges p) (copy_pts s).
Proof.
  unfold clipPolygon_pts. rewrite clipPolygon_loop_pts_edges by done.
  by rewrite <- length_edges, firstn_all.
Qed.

Lemma org_edges (l : list (Point F)) : org <$> edges l = l.
Proof.
  unfold edges. rewrite fmap_zip_with_l; [done..|]. by rewrite length_rotate1.
Qed.

Lemma dest_edges (l : list (Point F)) : dest <$> edges l = rotate1 l.
Proof.
  unfold edges. rewrite fmap_zip_with_r; [done..|]. by rewrite length_rotate1.
Qed.

Lemma elem_of_ins {A} (x y : A) (l : list A) : x ∈ ins y l ↔ x = y ∨ x ∈ l.
Proof. destruct l; simpl; set_solver. Qed.

Lemma insert_pts_inr (x : Point F) acc r : insert_pts x acc = inr r → r = ins x acc.
Proof. unfold insert_pts. destruct (_ <? _)%Z; congruence. Qed.

Lemma clip_body_pts_cases (o d : Point F) e acc r :
  clip_body_pts o d e acc = inr r →
  (∀ x, x ∈ acc → x ∈ r) ∧
  (Point_classify d e ≠ LEFT → d ∈ r) ∧
  (∀ x, x ∈ r →
     x ∈ acc ∨ (x = d ∧ Point_classify d e ≠ LEFT) ∨ crossing e (mkEdge o d) x) ∧
  length r ≤ length acc + 2.
Proof.
  unfold clip_body_pts, crossing. cbn [org dest].
  destruct (decide (Point_classify o e = LEFT)) as [Ho|Ho],
           (decide (Point_classify d e = LEFT)) as [Hd|Hd];
    rewrite ?(bool_decide_eq_true_2 _ Ho), ?(bool_decide_eq_true_2 _ Hd),
            ?(bool_decide_eq_false_2 (_ ≠ _)), ?(bool_decide_eq_true_2 (_ ≠ _))
      by tauto; cbn [eqb negb].
  - intros [= <-]. split_and!; [done|done|tauto|lia].
  - destruct (snd _) as [t|] eqn:Et; [|done].
    destruct (insert_pts _ acc) as [f|acc1] eqn:E1; [done|].
    intros ->%insert_pts_inr. apply insert_pts_inr in E1 as ->.
    split_and!.
    + intros x Hx. rewrite !elem_of_ins. tauto.
    + intros _. rewrite elem_of_ins. tauto.
    + intros x. rewrite !elem_of_ins. intros [->|[->|Hx]]; [tauto| |tauto].
      right. right. split; [tauto|]. by exists t.
    + rewrite !length_ins. lia.
  - destruct (snd _) as [t|] eqn:Et; [|done].
    intros ->%insert_pts_inr. split_and!.
    + intros x Hx. rewrite !elem_of_ins. tauto.
    + done.
    + intros x. rewrite !elem_of_ins. intros [->|Hx]; [|tauto].
      right. right. split; [tauto|]. by exists t.
    + rewrite !length_ins. lia.
  - intros ->%insert_pts_inr. split_and!.
    + intros x Hx. rewrite !elem_of_ins. tauto.
    + intros _. rewrite elem_of_ins. tauto.
    + intros x. rewrite !elem_of_ins. tauto.
    + rewrite !length_ins. lia.
Qed.

Lemma clip_edges_pts_cases E : ∀ e acc r,
  clip_edges_pts E e acc = inr r →
  (∀ x, x ∈ acc → x ∈ r) ∧
  (∀ se, se ∈ E → Point_classify (dest se) e ≠ LEFT → dest se ∈ r) ∧
  (∀ x, x ∈ r →
     x ∈ acc ∨
     ∃ se, se ∈ E ∧ ((x = dest se ∧ Point_classify x e ≠ LEFT) ∨ crossing e se x)) ∧
  length r ≤ length acc + 2 * length E.
Proof.
  induction E as [|se E IH]; intros e acc r; simpl.
  { intros [= <-]. split_and!; [done|set_solver|tauto|lia]. }
  destruct (clip_body_pts _ _ _ _) as [f|acc1] eqn:E1; [done|].
  intros (Ha & Hk & Hs & Hl)%IH.
  apply clip_body_pts_cases in E1 as (Ha1 & Hk1 & Hs1 & Hl1).
  destruct se as [o d]. cbn [org dest] in *.
  split_and!.
  - auto.
  - intros se [->|Hse]%elem_of_cons Hc; [apply Ha, Hk1, Hc|by apply Hk].
  - intros x [Hx|(se & Hse & Hx)]%Hs.
    + destruct (Hs1 x Hx) as [?|[[-> ?]|?]]; [tauto|..]; right;
        exists (mkEdge o d); (split; [set_solver|tauto]).
    + right. exists se. split; [set_solver|done].
  - lia.
Qed.

Lemma clipPolygonToEdge_pts_cases (s : list (Point F)) e r :
  clipPolygonToEdge_pts s e = inr r →
  (∀ x, x ∈ s → Point_classify x e ≠ LEFT → x ∈ r) ∧
  (∀ x, x ∈ r →
     (x ∈ s ∧ Point_classify x e ≠ LEFT) ∨ ∃ se, se ∈ edges s ∧ crossing e se x) ∧
  length r ≤ 2 * length s.
Proof.
  rewrite clipPolygonToEdge_pts_edges.
  intros (_ & Hk & Hs & Hl)%clip_edges_pts_cases. split_and!.
  - intros x Hx Hc. apply elem_of_rotate1 in Hx. rewrite <- dest_edges in Hx.
    apply list_elem_of_fmap in Hx as (se & -> & Hse). by apply Hk.
  - intros x [Hx|(se & Hse & [[-> Hc]|Hx])]%Hs; [set_solver| |eauto].
    left. split; [|done]. apply elem_of_rotate1. rewrite <- dest_edges.
    by apply list_elem_of_fmap_2.
  - rewrite length_edges in Hl. simpl in Hl. lia.
Qed.

Lemma elem_of_copy_pts (l : list (Point F)) x : x ∈ copy_pts l ↔ x ∈ l.
Proof.
  destruct l as [|c rest]; [done|]. rewrite copy_pts_cons.
  rewrite !elem_of_cons, !list_elem_of_In, <- in_rev. done.
Qed.

(** A vertex that is not LEFT of any of the edges met survives the pass. *)
Lemma clip_all_pts_keeps E : ∀ (q : list (Point F)) x res,
  x ∈ q → (∀ e, e ∈ E → Point_classify x e ≠ LEFT) →
  clip_all_pts E q = inr res → ∃ r, res = Some r ∧ x ∈ r.
Proof.
  induction E as [|e E IH]; intros q x res Hx Hc; simpl.
  { intros [= <-]. eauto. }
  destruct (clipPolygonToEdge_pts q e) as [f|r1] eqn:E1; [done|].
  apply clipPolygonToEdge_pts_cases in E1 as (Hk & _ & _).
  assert (Hx1 : x ∈ r1) by (apply Hk; [done|]; apply Hc; set_solver).
  destruct r1 as [|y r1]; [by apply elem_of_nil in Hx1|].
  cbn [length negb]. replace (0 <? _)%Z with true by (symmetry; apply Z.ltb_lt; lia).
  cbn [negb]. apply IH; [done|]. intros e' He'. apply Hc. set_solver.
Qed.

End Edges.

(** ** The run of [clipPolygon] *)

Section Runs.
Context {F : Type} `{Double F}.
Implicit Types (h : gmap addr (Vertex F)).

Lemma clipPolygon_pts_fault (s p : list (Point F)) f :
  clipPolygon_pts s p = inl f → f = undefined_behaviour.
Proof.
  unfold clipPolygon_pts. apply clipPolygon_loop_pts_fault.
  destruct p; [by left|by right].
Qed.

(** The outcome of [clipPolygon], read off the pass over the edges of the
    cutter. *)
Lemma clipPolygon_run h s ls p lp result :
  is_polygon h s ls → is_polygon h p lp →
  ∃ N, ∀ fuel, N ≤ fuel →
    match clip_all_pts (edges lp.*2) (copy_pts ls.*2) with
    | inl f =>
        f = undefined_behaviour ∧ clipPolygon fuel s p result h = Fail f
    | inr None =>
        ∃ p' h', clipPolygon fuel s p result h = Ret (p', result, false) h'
    | inr (Some r) =>
        ∃ r' lr h',
          clipPolygon fuel s p result h = Ret (p, Some r', true) h' ∧
          is_polygon h' r' lr ∧ lr.*2 = r
    end.
Proof.
  intros Hs Hp. pose proof (clipPolygon_refines h s ls p lp result Hs Hp) as Hc.
  rewrite <- clipPolygon_pts_edges.
  destruct (clipPolygon_pts ls.*2 lp.*2) as [f|[pp [r|]]] eqn:E; simpl.
  - destruct Hc as [N HN]. exists N. intros fuel Hfuel.
    split; [by eapply clipPolygon_pts_fault|by apply HN].
  - destruct Hc as (N & r' & lr & h' & HN & _ & _ & _ & Hr & Elr & _).
    exists N. intros fuel Hfuel. exists r', lr, h'. split_and!; [by apply HN|done..].
  - destruct Hc as (N & p' & h' & k & HN & _).
    exists N. intros fuel Hfuel. exists p', h'. by apply HN.
Qed.

End Runs.

(** ** Half-planes over the reals *)

Section ExactClip.
Local Open Scope R_scope.

Lemma not_LEFT_exact (p : Point R) (e : Edge R) :
  Point_classify p e ≠ LEFT ↔ sa p e <= 0.
Proof. rewrite classify_LEFT_exact. lra. Qed.

Lemma sa_on_line (e : Edge R) (t : R) : sa (Edge_point e t) e = 0.
Proof. destruct e as [[a1 a2] [a3 a4]]. unfold sa, Edge_point. simpl. ring. Qed.

Lemma sa_affine (o d : Point R) (u : R) (g : Edge R) :
  sa (Edge_point (mkEdge o d) u) g = (1 - u) * sa o g + u * sa d g.
Proof.
  destruct g as [[a1 a2] [a3 a4]], o, d. unfold sa, Edge_point. simpl. ring.
Qed.

(** The point built for a crossing lies on the subject edge, between its
    ends. *)
Lemma crossing_on_edge (e se : Edge R) (x : Point R) :
  crossing e se x → ∃ u, 0 <= u <= 1 ∧ x = Edge_point se u.
Proof.
  destruct se as [o d]. intros [Hone (t & Et & ->)]. cbn [org dest] in Hone.
  rewrite !classify_LEFT_exact in Hone.
  destruct (Edge_intersect e (mkEdge o d)) as [flag t'] eqn:Ei. simpl in Et. subst t'.
  assert (Hden : denom e (mkEdge o d) = sa o e - sa d e).
  { destruct e as [[a1 a2] [a3 a4]], o, d. unfold denom, sa. simpl. ring. }
  destruct (intersect_exact _ _ _ _ Ei) as (u & Eu & _).
  exists u. split; [|done].
  assert (Hu : u * denom e (mkEdge o d) = sa o e).
  { destruct e as [[a1 a2] [a3 a4]], o as [o1 o2], d as [q1 q2].
    unfold Edge_intersect in Ei. unfold Edge_point in Eu. unfold denom, sa in *.
    simpl in *.
    destruct (Rltb _ _); [done|]. injection Ei as _ <-.
    injection Eu as E1 E2.
    set (T := _ / _) in *.
    assert (Hlin : (a3 - a1) * ((a2 + T * (a4 - a2)) - (o2 + u * (q2 - o2)))
                   - (a4 - a2) * ((a1 + T * (a3 - a1)) - (o1 + u * (q1 - o1))) = 0).
    { rewrite E1, E2. ring. }
    nra. }
  rewrite Hden in Hu.
  destruct Hone as [[Ho Hd]|[Ho Hd]].
  - assert (0 < sa o e - sa d e) by lra. split; nra.
  - assert (sa o e - sa d e < 0) by lra. split; nra.
Qed.

Lemma clipPolygonToEdge_pts_halfplane (s : list (Point R)) e r :
  clipPolygonToEdge_pts s e = inr r →
  (∀ x, x ∈ r → Point_classify x e ≠ LEFT) ∧
  (∀ g, (∀ y, y ∈ s → Point_classify y g ≠ LEFT) →
        ∀ x, x ∈ r → Point_classify x g ≠ LEFT).
Proof.
  intros (_ & Hs & _)%clipPolygonToEdge_pts_cases. split.
  - intros x [[_ Hx]|(se & _ & _ & t & _ & ->)]%Hs; [done|].
    apply not_LEFT_exact. rewrite sa_on_line. lra.
  - intros g Hg x [[Hx _]|(se & Hse & Hc)]%Hs; [by apply Hg|].
    destruct (crossing_on_edge _ _ _ Hc) as (u & Hu & ->).
    assert (Ho : org se ∈ s).
    { rewrite <- (org_edges s). by apply list_elem_of_fmap_2. }
    assert (Hd : dest se ∈ s).
    { apply elem_of_rotate1. rewrite <- (dest_edges s). by apply list_elem_of_fmap_2. }
    apply Hg, not_LEFT_exact in Ho, Hd. apply not_LEFT_exact.
    destruct se as [o d]. rewrite sa_affine. cbn [org dest] in *. nra.
Qed.

Lemma clip_all_pts_within E : ∀ (q r : list (Point R)),
  clip_all_pts E q = inr (Some r) →
  ∀ x, x ∈ r →
    (∀ e, e ∈ E → Point_classify x e ≠ LEFT) ∧
    (∀ g, (∀ y, y ∈ q → Point_classify y g ≠ LEFT) → Point_classify x g ≠ LEFT).
Proof.
  induction E as [|e E IH]; intros q r; simpl.
  { intros [= <-] x Hx. split; [set_solver|auto]. }
  destruct (clipPolygonToEdge_pts q e) as [f|r1] eqn:E1; [done|].
  destruct (negb _); [done|]. intros E2 x Hx.
  apply clipPolygonToEdge_pts_halfplane in E1 as [He Hg].
  destruct (IH _ _ E2 x Hx) as [HE Hq]. split.
  - intros e' [->|He']%elem_of_cons; [by apply Hq|by apply HE].
  - intros g Hy. apply Hq. by apply Hg.
Qed.

End ExactClip.

(** ** Building, walking, copying and destroying polygons *)

Section More.
Context {F : Type} `{Double F}.
Implicit Types (h : gmap addr (Vertex F)).

Lemma copy_pts_involutive (l : list (Point F)) : copy_pts (copy_pts l) = l.
Proof.
  destruct l as [|c rest]; [done|]. by rewrite !copy_pts_cons, rev_involutive.
Qed.

(** Cells that a frame from nothing has brought in were free before. *)
Lemma frame_new_free h h' X' b :
  frame h h' [] X' → b ∈ X' → h !! b = None.
Proof.
  intros [_ Hx] Hb. destruct (Hx b Hb) as [?|Hn]; [set_solver|].
  by apply not_elem_of_dom.
Qed.

Lemma frame_old h h' X' b :
  frame h h' [] X' → is_Some (h !! b) → h' !! b = h !! b.
Proof. intros Hf Hb. eapply frame_lookup; [exact Hf|done|set_solver]. Qed.

(** X4: a polygon built from nothing by inserting [c] and then the points of
    [rest], in that order, has as many vertices as points were inserted and
    is walked clockwise from its cursor as [c] followed by the points of
    [rest] in reverse order: [insert] puts each new vertex right after the
    cursor and leaves the cursor where it is.  The vertices are cells that
    were not in use, and the cells that were in use are as they were. *)
Theorem build_walks_reversed h (c : Point F) rest :
  (Z.of_nat (S (length rest)) ≤ INT_MAX)%Z →
  ∃ P h' l',
    build (c :: rest) Polygon_new h = Ret P h' ∧
    is_polygon h' P l' ∧ _size P = Z.of_nat (S (length rest)) ∧
    (∀ fuel, S (length rest) ≤ fuel → walk fuel P h' = Ret (c :: rev rest) h') ∧
    (∀ b, b ∈ l'.*1 → h !! b = None) ∧
    (∀ b, is_Some (h !! b) → h' !! b = h !! b).
Proof.
  intros Hb.
  destruct (build_spec (c :: rest) h Polygon_new [] (is_polygon_new h))
    as (P & h' & l' & E & HP & El & Hf); [simpl in *; lia|].
  change (foldl _ _ _) with (copy_pts (c :: rest)) in El. rewrite copy_pts_cons in El.
  assert (Hlen : length l' = S (length rest)).
  { rewrite <- (length_fmap snd), El. simpl. by rewrite length_rev. }
  exists P, h', l'. split_and!; [done|done| | | |].
  - destruct HP as (_ & -> & _). by rewrite Hlen.
  - intros fuel Hfuel. rewrite <- El. apply walk_spec; [done|by destruct l'|lia].
  - intros b. by eapply frame_new_free.
  - intros b. by eapply frame_old.
Qed.

(** X5: on a polygon that has no vertex, [getPoint], [cw] and [advance]
    dereference the null cursor (only [edge] tests for it); on a polygon that
    has vertices, [advance] clockwise followed by [advance] counter-clockwise,
    and the other way round, bring the polygon back as it was and leave the
    heap as it was. *)
Theorem Polygon_advance_round_trip h P :
  Polygon_inv h P →
  (_size P = 0%Z →
   Polygon_getPoint P h = Fail undefined_behaviour ∧
   Polygon_cw P h = Fail undefined_behaviour ∧
   ∀ rotation, Polygon_advance P rotation h = Fail undefined_behaviour) ∧
  (_size P ≠ 0%Z →
   (let* Q := Polygon_advance P CLOCKWISE in
    Polygon_advance Q COUNTER_CLOCKWISE) h = Ret P h ∧
   (let* Q := Polygon_advance P COUNTER_CLOCKWISE in
    Polygon_advance Q CLOCKWISE) h = Ret P h).
Proof.
  intros [l HP]. split.
  - intros Hz. pose proof HP as (Hv & Hsz & _).
    assert (l = []) as -> by (destruct l; [done|simpl in Hsz; lia]).
    simpl in Hv.
    unfold Polygon_getPoint, Polygon_cw, Polygon_advance, Vertex_neighbor,
      Vertex_cw, Vertex_ccw. rewrite Hv. split_and!; [done..|].
    intros rotation. by destruct (decide _).
  - intros Hnz. pose proof HP as (Hv & Hsz & _).
    destruct l as [|[a p] rest]; [simpl in Hsz; lia|]. split.
    + destruct (Polygon_advance_spec _ _ _ _ _ HP) as (Q & E1 & HQ).
      destruct (Polygon_advance_ccw_spec _ _ _ _ HQ) as (P' & E2 & HP').
      rewrite (bind_Ret _ _ _ _ _ E1), E2.
      by rewrite (is_polygon_inj _ _ _ _ _ HP' HP).
    + destruct (exists_last (l := (a, p) :: rest)) as (l0 & x & El); [done|].
      rewrite El in HP.
      destruct (Polygon_advance_ccw_spec _ _ _ _ HP) as (Q & E1 & HQ).
      destruct x as [z pz].
      destruct (Polygon_advance_spec _ _ _ _ _ HQ) as (P' & E2 & HP').
      rewrite (bind_Ret _ _ _ _ _ E1), E2.
      by rewrite (is_polygon_inj _ _ _ _ _ HP' HP).
Qed.

(** X6: the destructor returns, within as many loop iterations as the ring
    has vertices, a heap where the cells of the ring are free and every other
    cell is as it was; the polygon object is then left with a cursor to a
    freed cell, so that [edge], [getPoint] and a second destruction of a
    polygon that had vertices are undefined behaviour. *)
Theorem Polygon_destructor_frees_ring h P l :
  is_polygon h P l →
  ∃ h',
    (∀ fuel, length l ≤ fuel → Polygon_delete fuel P h = Ret tt h') ∧
    (∀ b, h' !! b = if decide (b ∈ l.*1) then None else h !! b) ∧
    (l ≠ [] →
     Polygon_edge P h' = Fail undefined_behaviour ∧
     Polygon_getPoint P h' = Fail undefined_behaviour ∧
     ∀ fuel, Polygon_delete fuel P h' = Fail undefined_behaviour).
Proof.
  intros HP. destruct (Polygon_delete_spec h P l HP) as (h' & E & Hout & Hin).
  exists h'. split_and!; [done| |].
  - intros b. destruct (decide _); auto.
  - intros Hne. destruct HP as (Hv & _). destruct l as [|[a p] rest]; [done|].
    simpl in Hv. assert (Ha : h' !! a = None) by (apply Hin; set_solver).
    unfold Polygon_edge, Polygon_getPoint, Polygon_delete, Vertex_cw, get_next.
    rewrite Hv. unfold bind at 1 3 4 5 6. unfold deref. rewrite Ha.
    split_and!; [done..|]. intros fuel. unfold bind, deref. by rewrite Ha.
Qed.

(** X7: building a polygon by insertion and destroying it gives back the heap
    exactly as it was: every vertex [insert] allocates is freed by the
    destructor, and no other cell is written. *)
Theorem build_then_destroy_restores_heap h (pts : list (Point F)) :
  (Z.of_nat (length pts) ≤ INT_MAX)%Z →
  ∃ P h1,
    build pts Polygon_new h = Ret P h1 ∧
    ∀ fuel, length pts ≤ fuel → Polygon_delete fuel P h1 = Ret tt h.
Proof.
  intros Hb.
  destruct (build_spec pts h Polygon_new [] (is_polygon_new h))
    as (P & h1 & l' & E & HP & El & Hf); [simpl; lia|].
  pose proof (build_cells _ _ _ _ _ E) as Hc. simpl in Hc.
  assert (Hlen : length l' = length pts).
  { rewrite <- (length_fmap snd), El. apply (length_copy_pts pts). }
  destruct (Polygon_delete_spec h1 P l' HP) as (h2 & E2 & Hout & Hin).
  destruct (Polygon_delete_ret _ _ _ _ _ HP (E2 _ (Nat.le_refl _))) as (_ & _ & Hc2).
  assert (h2 = h) as ->.
  { apply heap_restored.
    - intros b Hb'. rewrite Hout; [by eapply frame_old|].
      intros Hb''. apply (frame_new_free _ _ _ _ Hf) in Hb''. rewrite Hb'' in Hb'.
      by destruct Hb'.
    - destruct HP as (_ & Hsz & _). lia. }
  exists P, h1. split; [done|]. intros fuel Hfuel. apply E2. lia.
Qed.

Lemma clipPolygonToEdge_pts_fault (s : list (Point F)) e f :
  clipPolygonToEdge_pts s e = inl f → f = undefined_behaviour.
Proof. apply clip_loop_pts_fault. Qed.

(** X8: the polygon [clipPolygonToEdge] builds.  Unless the loop body runs
    into undefined behaviour, the call returns the subject as it was, a
    result and the flag telling whether the result has a vertex; every
    vertex of the subject that is not LEFT of the clip edge is a vertex of
    the result; every vertex of the result is such a vertex of the subject or
    the point [e.point(t)] built for an edge of the subject with exactly one
    end LEFT; and the result has at most twice as many vertices as the
    subject. *)
Theorem clipPolygonToEdge_vertices h s ls e :
  is_polygon h s ls →
  clipPolygonToEdge s e h = Fail undefined_behaviour ∨
  ∃ r lr h',
    clipPolygonToEdge s e h = Ret (s, r, bool_decide (lr ≠ [])) h' ∧
    is_polygon h' r lr ∧
    (∀ x, x ∈ ls.*2 → Point_classify x e ≠ LEFT → x ∈ lr.*2) ∧
    (∀ x, x ∈ lr.*2 →
       (x ∈ ls.*2 ∧ Point_classify x e ≠ LEFT) ∨
       ∃ se, se ∈ edges ls.*2 ∧ crossing e se x) ∧
    length lr ≤ 2 * length ls.
Proof.
  intros Hs. pose proof (clipPolygonToEdge_refines h s ls e Hs) as Hc.
  destruct (clipPolygonToEdge_pts ls.*2 e) as [f|acc] eqn:E.
  { left. by rewrite (clipPolygonToEdge_pts_fault _ _ _ E) in Hc. }
  right. destruct Hc as (r & h' & lr & Er & _ & Hr & <- & _).
  apply clipPolygonToEdge_pts_cases in E as (Hk & Hsound & Hlen).
  exists r, lr, h'. split_and!; [|done..|by rewrite !length_fmap in Hlen].
  rewrite Er. do 2 f_equal. rewrite length_fmap. by destruct lr.
Qed.

(** X9: a vertex of the subject that is not LEFT of any edge of the cutter
    is a vertex of the polygon [clipPolygon] returns; in particular, with
    such a vertex [clipPolygon] does not report failure. *)
Theorem clipPolygon_keeps_inner_vertices h s ls p lp result x :
  is_polygon h s ls → is_polygon h p lp →
  x ∈ ls.*2 → (∀ e, e ∈ edges lp.*2 → Point_classify x e ≠ LEFT) →
  ∃ N, ∀ fuel, N ≤ fuel →
    clipPolygon fuel s p result h = Fail undefined_behaviour ∨
    ∃ r lr h',
      clipPolygon fuel s p result h = Ret (p, Some r, true) h' ∧
      is_polygon h' r lr ∧ x ∈ lr.*2.
Proof.
  intros Hs Hp Hx Hin.
  destruct (clipPolygon_run h s ls p lp result Hs Hp) as [N HN].
  exists N. intros fuel Hfuel. specialize (HN fuel Hfuel).
  destruct (clip_all_pts _ _) as [f|res] eqn:E.
  { left. by destruct HN as [-> ?]. }
  right. apply clip_all_pts_keeps with (x := x) in E as (r & -> & Hr);
    [|by apply elem_of_copy_pts|done].
  destruct HN as (r' & lr & h' & E' & Hr' & <-). by exists r', lr, h'.
Qed.

(** X11: what [clipPolygon] leaves in the heap of vertices.  When it reports
    failure that heap is exactly as it was before the call: every vertex of
    the copy of the subject and of the intermediate polygons has been freed.
    When it reports success the vertices of the result are cells that were
    not in use, and every other cell, in use or not, is as it was before the
    call.  (The heap holds vertices only: the [Polygon] object of a step that
    came back empty, which has no vertex and which the code does not
    [delete], is not part of it.) *)
Theorem clipPolygon_frees_temporaries h s ls p lp result :
  is_polygon h s ls → is_polygon h p lp →
  ∃ N, ∀ fuel, N ≤ fuel →
    clipPolygon fuel s p result h = Fail undefined_behaviour ∨
    (∃ p', clipPolygon fuel s p result h = Ret (p', result, false) h) ∨
    (∃ r lr h',
       clipPolygon fuel s p result h = Ret (p, Some r, true) h' ∧
       is_polygon h' r lr ∧
       (∀ b, b ∈ lr.*1 → h !! b = None) ∧
       (∀ b, b ∉ lr.*1 → h' !! b = h !! b)).
Proof.
  intros Hs Hp. pose proof (clipPolygon_refines h s ls p lp result Hs Hp) as Hc.
  destruct (clipPolygon_pts ls.*2 lp.*2) as [f|[pp [r|]]] eqn:E.
  - destruct Hc as [N HN]. exists N. intros fuel Hfuel. left.
    rewrite <- (clipPolygon_pts_fault _ _ _ E). by apply HN.
  - destruct Hc as (N & r' & lr & h' & HN & _ & _ & _ & Hr & Elr & Hf).
    exists (N `max` length ls). intros fuel Hfuel. right. right.
    exists r', lr, h'.
    pose proof (HN fuel ltac:(lia)) as Ec.
    pose proof (clipPolygon_cells fuel _ _ ls _ _ _ _ _ _ _ Hs Hp ltac:(lia) Ec) as Hcells.
    cbn iota in Hcells.
    split_and!; [done|done|by intros b; eapply frame_new_free|].
    assert (Hnd : NoDup lr.*1).
    { destruct Hr as (_ & _ & _ & Hr). destruct lr as [|[a c] rest]; [constructor|].
      apply Hr. }
    assert (Hdisj : dom h ## list_to_set lr.*1).
    { intros b Hb Hb'%elem_of_list_to_set.
      apply (frame_new_free _ _ _ _ Hf) in Hb'. by apply not_elem_of_dom in Hb'. }
    assert (Hsub : dom h ∪ list_to_set lr.*1 ⊆ dom h').
    { intros b [Hb|Hb%elem_of_list_to_set]%elem_of_union; apply elem_of_dom.
      - apply elem_of_dom in Hb. by rewrite (frame_old _ _ _ _ Hf Hb).
      - destruct Hr as (_ & _ & _ & Hr). by eapply ring_is_Some. }
    assert (Hd : dom h ∪ list_to_set lr.*1 = dom h').
    { apply set_subseteq_size_eq; [done|].
      rewrite size_union, size_list_to_set, length_fmap by done.
      unfold cells in Hcells. destruct Hr as (_ & Hsz & _). lia. }
    intros b Hb. destruct (h !! b) as [c|] eqn:Eb.
    + rewrite <- Eb. eapply frame_old; [done|by rewrite Eb].
    + apply not_elem_of_dom. rewrite <- Hd.
      apply not_elem_of_union. split; [by apply not_elem_of_dom|].
      by rewrite elem_of_list_to_set.
  - destruct Hc as (N & p' & h' & k & HN & _ & _ & _ & _ & Hf).
    exists (N `max` length ls). intros fuel Hfuel. right. left. exists p'.
    pose proof (HN fuel ltac:(lia)) as Ec.
    pose proof (clipPolygon_cells fuel _ _ ls _ _ _ _ _ _ _ Hs Hp ltac:(lia) Ec) as Hcells.
    cbn iota in Hcells.
    rewrite Ec. f_equal. apply heap_restored; [|lia].
    intros b Hb. by eapply frame_old.
Qed.

(** X15: the copy of the copy of a polygon is walked from its cursor as the
    polygon itself: the two reversals of the copy constructor cancel.  The
    polygon is still walked as before. *)
Theorem Polygon_copy_twice_restores_order h P l :
  is_polygon h P l → l ≠ [] →
  ∃ P1 h1 P2 h2,
    ∀ fuel, length l ≤ fuel →
      Polygon_copy fuel P h = Ret P1 h1 ∧
      Polygon_copy fuel P1 h1 = Ret P2 h2 ∧
      walk fuel P h2 = Ret l.*2 h2 ∧
      walk fuel P2 h2 = Ret l.*2 h2.
Proof.
  intros HP Hne.
  destruct (Polygon_copy_spec h P l HP) as (P1 & h1 & l1 & E1 & HP1 & El1 & Hf1).
  destruct (Polygon_copy_spec h1 P1 l1 HP1) as (P2 & h2 & l2 & E2 & HP2 & El2 & Hf2).
  rewrite El1, copy_pts_involutive in El2.
  assert (Hlen1 : length l1 = length l).
  { rewrite <- (length_fmap snd), El1, length_copy_pts. apply length_fmap. }
  assert (Hlen2 : length l2 = length l).
  { rewrite <- (length_fmap snd), El2. apply length_fmap. }
  assert (HP' : is_polygon h2 P l).
  { eapply frame_is_polygon; [exact Hf2|set_solver|].
    eapply frame_is_polygon; [exact Hf1|set_solver|done]. }
  exists P1, h1, P2, h2. intros fuel Hfuel. split_and!.
  - by apply E1.
  - apply E2. lia.
  - by apply walk_spec.
  - rewrite <- El2. apply walk_spec; [done| |lia]. destruct l2; [|done].
    destruct l; [done|simpl in Hlen2; lia].
Qed.

End More.

(** ** The exchange with a client *)

Section Serve.
Context {F : Type} `{Double F}.
Implicit Types (h : gmap addr (Vertex F)).

(** X12: what a request leaves in the heap of vertices.  With the two counts
    within [int], the [try] block of [main], run with enough fuel, either
    runs into undefined behaviour or returns its response with that heap
    exactly as it was when the request came in: every vertex allocated for
    the two polygons, for the copy, for the intermediate polygons and for the
    result has been freed, and no other cell has been written. *)
Theorem handle_restores_heap h (ls lp : list (Point F)) :
  (Z.of_nat (length ls) ≤ INT_MAX)%Z → (Z.of_nat (length lp) ≤ INT_MAX)%Z →
  ∃ N, ∀ fuel, N ≤ fuel →
    handle fuel ls lp h = Fail undefined_behaviour ∨
    ∃ response, handle fuel ls lp h = Ret response h.
Proof.
  intros Hls Hlp. destruct (handle_refines h ls lp Hls Hlp) as [N HN].
  exists N. intros fuel Hfuel. rewrite (HN fuel Hfuel). unfold handle_pts.
  destruct (clipPolygon_pts _ _) as [f|[pp [[|c r]|]]] eqn:E.
  - left. by rewrite (clipPolygon_pts_fault _ _ _ E).
  - by left.
  - right. eauto.
  - right. eauto.
Qed.

(** X13: the exception of [Polygon::edge] in the [try] block of [main].
    With the two counts within [int], and with every allocation succeeding
    as it does throughout this model, the block never ends on the
    [runtime_error] that [edge] throws on an empty polygon: [clipPolygon]
    asks for an edge of the cutter only while the cutter has edges left to
    visit, and [clipPolygonToEdge] for an edge of the subject only inside
    its loop over the vertices of the subject.  Short of undefined
    behaviour, the block returns FAIL, or OK with the number of vertices
    printed, which is at least one.  (An exception of [new] or of the streams
    is outside the model, and so is what the [catch] clause then sends.) *)
Theorem handle_never_throws_runtime_error h (ls lp : list (Point F)) :
  (Z.of_nat (length ls) ≤ INT_MAX)%Z → (Z.of_nat (length lp) ≤ INT_MAX)%Z →
  ∃ N, ∀ fuel, N ≤ fuel →
    (∀ what, handle fuel ls lp h ≠ Fail (runtime_error what)) ∧
    (handle fuel ls lp h = Fail undefined_behaviour ∨
     handle fuel ls lp h = Ret FAIL h ∨
     ∃ l, l ≠ [] ∧ handle fuel ls lp h = Ret (OK (Z.of_nat (length l)) l) h).
Proof.
  intros Hls Hlp. destruct (handle_refines h ls lp Hls Hlp) as [N HN].
  exists N. intros fuel Hfuel. rewrite (HN fuel Hfuel). unfold handle_pts.
  destruct (clipPolygon_pts _ _) as [f|[pp [[|c r]|]]] eqn:E.
  - rewrite (clipPolygon_pts_fault _ _ _ E). split; [done|by left].
  - split; [done|by left].
  - split; [done|]. right. right. by exists (c :: r).
  - split; [done|]. right. by left.
Qed.

(** X14: empty polygons.  With a cutter that has no vertex, [clipPolygon]
    clips nothing and reports success with a copy of the subject, even when
    the subject has no vertex either; with a subject that has no vertex
    and a cutter that has some, it reports failure without moving the cursor
    of the cutter or touching the heap; and for a request with two empty
    polygons the [try] block of [main], told of a success, walks the result
    from its null cursor. *)
Theorem clipPolygon_empty_inputs h s ls p lp result :
  is_polygon h s ls → is_polygon h p lp →
  (lp = [] →
   ∃ r lr h',
     (∀ fuel, length ls ≤ fuel →
        clipPolygon fuel s p result h = Ret (p, Some r, true) h') ∧
     is_polygon h' r lr ∧ lr.*2 = copy_pts ls.*2) ∧
  (ls = [] → lp ≠ [] →
   ∀ fuel, clipPolygon fuel s p result h = Ret (p, result, false) h) ∧
  (∀ fuel, fuel ≠ 0 → handle fuel [] [] h = Fail undefined_behaviour).
Proof.
  intros Hs Hp. split_and!.
  - intros ->.
    destruct (Polygon_copy_spec h s ls Hs) as (q & h1 & lq & Ec & Hq & Elq & _).
    exists q, lq, h1. split_and!; [|done..].
    intros fuel Hfuel. unfold clipPolygon. rewrite (bind_Ret _ _ _ _ _ (Ec fuel Hfuel)).
    destruct Hp as (_ & Hsz & _). unfold Polygon_size. by rewrite Hsz.
  - intros -> Hne fuel. destruct lp as [|[a c] rest]; [done|].
    pose proof (Polygon_edge_spec h p a c rest Hp) as Ee.
    destruct Hs as (Hv & Hsz & _). simpl in Hv, Hsz.
    destruct Hp as (_ & Hszp & _). simpl length in Hszp.
    unfold clipPolygon, Polygon_copy, Polygon_size. rewrite Hv, Hszp.
    unfold bind at 1. unfold ret at 1.
    rewrite Nat2Z.id. cbn [clipPolygon_loop].
    unfold bind at 1. unfold bind at 1. rewrite Ee. done.
  - intros [|fuel] Hf; [done|]. done.
Qed.

End Serve.

Section ExactMore.
Local Open Scope R_scope.

(** X10: over the reals, every vertex of the polygon [clipPolygon] returns is
    not LEFT of any edge of the cutter, and is not LEFT of any edge [g] that
    has no vertex of the subject on its left: the result lies in each of
    the half-planes of the cutter and in every half-plane that holds the
    subject. *)
Theorem clipPolygon_within_exact (h : gmap addr (Vertex R)) s ls p lp result :
  is_polygon h s ls → is_polygon h p lp →
  ∃ N, ∀ fuel, (N ≤ fuel)%nat →
    clipPolygon fuel s p result h = Fail undefined_behaviour ∨
    (∃ p' h', clipPolygon fuel s p result h = Ret (p', result, false) h') ∨
    (∃ r lr h',
       clipPolygon fuel s p result h = Ret (p, Some r, true) h' ∧
       is_polygon h' r lr ∧
       ∀ x, x ∈ lr.*2 →
         (∀ e, e ∈ edges lp.*2 → Point_classify x e ≠ LEFT) ∧
         (∀ g, (∀ y, y ∈ ls.*2 → Point_classify y g ≠ LEFT) →
               Point_classify x g ≠ LEFT)).
Proof.
  intros Hs Hp.
  destruct (clipPolygon_run h s ls p lp result Hs Hp) as [N HN].
  exists N. intros fuel Hfuel. specialize (HN fuel Hfuel).
  destruct (clip_all_pts _ _) as [f|[r|]] eqn:E.
  - left. by destruct HN as [-> ?].
  - right. right. destruct HN as (r' & lr & h' & E' & Hr' & <-).
    exists r', lr, h'. split_and!; [done..|].
    intros x Hx. destruct (clip_all_pts_within _ _ _ E x Hx) as [HE Hq].
    split; [done|]. intros g Hg. apply Hq. intros y Hy. apply Hg. by apply (proj1 (elem_of_copy_pts _ _)).
  - right. by left.
Qed.

Lemma classify_RIGHT_exact (p : Point R) (e : Edge R) :
  Point_classify p e = RIGHT ↔ sa p e < 0.
Proof.
  destruct (classify_table_of_asym exact_lt_asym p e) as (_ & -> & _).
  apply Rltb_lt.
Qed.

Lemma sa_reversed (p : Point R) (e : Edge R) :
  sa p (mkEdge (dest e) (org e)) = - sa p e.
Proof. destruct e as [[a1 a2] [a3 a4]], p. unfold sa. simpl. ring. Qed.

Lemma Point_eq_refl_exact (p : Point R) : Point_eq p p = true.
Proof.
  unfold Point_eq. simpl. apply Rltb_true.
  replace ((x p - x p) * (x p - x p) + (y p - y p) * (y p - y p)) with 0 by ring.
  lra.
Qed.

(** X16: over the reals, reversing an edge exchanges LEFT and RIGHT; the
    start of an edge classifies as ORIGIN, and its end as DESTINATION unless
    [operator==] finds the two ends equal, in which case it classifies as
    ORIGIN too. *)
Theorem classify_reversed_edge_exact (p : Point R) (e : Edge R) :
  (Point_classify p (mkEdge (dest e) (org e)) = LEFT ↔ Point_classify p e = RIGHT) ∧
  (Point_classify p (mkEdge (dest e) (org e)) = RIGHT ↔ Point_classify p e = LEFT) ∧
  Point_classify (org e) e = ORIGIN ∧
  Point_classify (dest e) e =
    (if Point_eq (org e) (dest e) then ORIGIN else DESTINATION).
Proof.
  split_and!.
  - rewrite classify_LEFT_exact, classify_RIGHT_exact, sa_reversed. lra.
  - rewrite classify_LEFT_exact, classify_RIGHT_exact, sa_reversed. lra.
  - destruct e as [[o1 o2] [e1 e2]]. unfold Point_classify, Point_sub, Point_length.
    cbn [org dest x y dlt dsub dmul dadd d0 exact dsqrt].
    replace (o1 - o1) with 0 by ring. replace (o2 - o2) with 0 by ring.
    rewrite !Rmult_0_r, !Rmult_0_l, Rminus_diag, Rplus_0_r, sqrt_0.
    rewrite (Rltb_false 0 0) by lra. cbn [orb].
    rewrite Rltb_false by (apply Rle_not_lt, sqrt_pos).
    by rewrite Point_eq_refl_exact.
  - destruct e as [[o1 o2] [e1 e2]]. unfold Point_classify, Point_sub, Point_length.
    cbn [org dest x y dlt dsub dmul dadd d0 exact dsqrt].
    set (u := e1 - o1). set (v := e2 - o2).
    replace (u * v - u * v) with 0 by ring.
    rewrite (Rltb_false 0 0) by lra.
    rewrite (Rltb_false (u * u) 0) by nra. rewrite (Rltb_false (v * v) 0) by nra.
    cbn [orb]. rewrite Rltb_false by lra.
    by rewrite Point_eq_refl_exact.
Qed.

End ExactMore.

(** ** Subjects that an edge keeps or drops as a whole *)

Section Trivial.
Context {F : Type} `{Double F}.
Implicit Types (h : gmap addr (Vertex F)).

Lemma clip_body_pts_kept (o d : Point F) e acc :
  Point_classify o e ≠ LEFT → Point_classify d e ≠ LEFT →
  clip_body_pts o d e acc = insert_pts d acc.
Proof.
  intros Ho Hd. unfold clip_body_pts.
  by rewrite !bool_decide_eq_true_2 by done.
Qed.

Lemma clip_body_pts_dropped (o d : Point F) e acc :
  Point_classify o e = LEFT → Point_classify d e = LEFT →
  clip_body_pts o d e acc = inr acc.
Proof.
  intros Ho Hd. unfold clip_body_pts.
  by rewrite !bool_decide_eq_false_2 by (intros Hn; by apply Hn).
Qed.

Lemma clip_edges_pts_kept E : ∀ e acc,
  (∀ se, se ∈ E → Point_classify (org se) e ≠ LEFT ∧ Point_classify (dest se) e ≠ LEFT) →
  (Z.of_nat (length acc + length E) ≤ INT_MAX)%Z →
  clip_edges_pts E e acc = inr (foldl (λ acc x, ins x acc) acc (dest <$> E)).
Proof.
  induction E as [|se E IH]; intros e acc HE Hlen; [done|].
  destruct (HE se) as [Ho Hd]; [set_solver|].
  simpl. rewrite clip_body_pts_kept by done.
  simpl in Hlen. rewrite insert_pts_ok by lia.
  apply IH; [intros se' Hse'; apply HE; set_solver|]. rewrite length_ins. lia.
Qed.

Lemma clip_edges_pts_dropped E : ∀ e acc,
  (∀ se, se ∈ E → Point_classify (org se) e = LEFT ∧ Point_classify (dest se) e = LEFT) →
  clip_edges_pts E e acc = inr acc.
Proof.
  induction E as [|se E IH]; intros e acc HE; [done|].
  destruct (HE se) as [Ho Hd]; [set_solver|].
  simpl. rewrite clip_body_pts_dropped by done.
  apply IH. intros se' Hse'. apply HE. set_solver.
Qed.

Lemma elem_of_edges (l : list (Point F)) se :
  se ∈ edges l → org se ∈ l ∧ dest se ∈ l.
Proof.
  intros Hse. split.
  - rewrite <- (org_edges l). by apply list_elem_of_fmap_2.
  - apply elem_of_rotate1. rewrite <- (dest_edges l). by apply list_elem_of_fmap_2.
Qed.

Lemma clipPolygonToEdge_pts_kept (s : list (Point F)) e :
  (∀ x, x ∈ s → Point_classify x e ≠ LEFT) → (Z.of_nat (length s) ≤ INT_MAX)%Z →
  clipPolygonToEdge_pts s e = inr (copy_pts (rotate1 s)).
Proof.
  intros Hs Hlen. rewrite clipPolygonToEdge_pts_edges, clip_edges_pts_kept.
  - by rewrite dest_edges.
  - intros se [Ho Hd]%elem_of_edges. auto.
  - by rewrite length_edges.
Qed.

Lemma clipPolygonToEdge_pts_dropped (s : list (Point F)) e :
  (∀ x, x ∈ s → Point_classify x e = LEFT) →
  clipPolygonToEdge_pts s e = inr [].
Proof.
  intros Hs. rewrite clipPolygonToEdge_pts_edges. apply clip_edges_pts_dropped.
  intros se [Ho Hd]%elem_of_edges. auto.
Qed.

Lemma rotate1_Permutation {A} (l : list A) : rotate1 l ≡ₚ l.
Proof. destruct l as [|c rest]; [done|]. simpl. by rewrite Permutation_app_comm. Qed.

Lemma copy_pts_Permutation (l : list (Point F)) : copy_pts l ≡ₚ l.
Proof.
  destruct l as [|c rest]; [done|]. rewrite copy_pts_cons.
  by rewrite <- Permutation_rev.
Qed.

Lemma clip_all_pts_kept E : ∀ (q : list (Point F)),
  q ≠ [] → (∀ x e, x ∈ q → e ∈ E → Point_classify x e ≠ LEFT) →
  (Z.of_nat (length q) ≤ INT_MAX)%Z →
  ∃ r, clip_all_pts E q = inr (Some r) ∧ r ≡ₚ q.
Proof.
  induction E as [|e E IH]; intros q Hne Hq Hlen; simpl; [by exists q|].
  rewrite clipPolygonToEdge_pts_kept; [|intros x Hx; apply Hq; set_solver|done].
  assert (Hperm : copy_pts (rotate1 q) ≡ₚ q).
  { by rewrite copy_pts_Permutation, rotate1_Permutation. }
  assert (Hl : length (copy_pts (rotate1 q)) = length q) by (by rewrite Hperm).
  rewrite Hl. destruct q as [|c q]; [done|].
  replace (0 <? _)%Z with true by (symmetry; apply Z.ltb_lt; simpl; lia).
  cbn [negb].
  destruct (IH (copy_pts (rotate1 (c :: q)))) as (r & Er & Hr).
  - intros E0. rewrite E0 in Hl. done.
  - intros x e' Hx He'. apply Hq; [|set_solver]. by rewrite <- Hperm.
  - by rewrite Hl.
  - exists r. split; [done|]. by rewrite Hr.
Qed.

(** X17: when no vertex of a subject that has vertices is LEFT of an edge of
    the cutter, [clipPolygon] reports success, without running into undefined
    behaviour, and the result has the vertices of the subject, each as many
    times as the subject has it. *)
Theorem clipPolygon_subject_inside h s ls p lp result :
  is_polygon h s ls → is_polygon h p lp → ls ≠ [] →
  (∀ x e, x ∈ ls.*2 → e ∈ edges lp.*2 → Point_classify x e ≠ LEFT) →
  ∃ N r lr h',
    (∀ fuel, N ≤ fuel →
       clipPolygon fuel s p result h = Ret (p, Some r, true) h') ∧
    is_polygon h' r lr ∧ lr.*2 ≡ₚ ls.*2.
Proof.
  intros Hs Hp Hne Hin.
  destruct (clip_all_pts_kept (edges lp.*2) (copy_pts ls.*2)) as (r & Er & Hr).
  - intros E0. apply (f_equal length) in E0. rewrite length_copy_pts, length_fmap in E0.
    by destruct ls.
  - intros x e Hx He. apply Hin; [|done]. by apply (proj1 (elem_of_copy_pts _ _)).
  - rewrite length_copy_pts, length_fmap. destruct Hs as (_ & <- & ? & _). done.
  - rewrite <- clipPolygon_pts_edges in Er.
    pose proof (clipPolygon_refines h s ls p lp result Hs Hp) as Hc.
    destruct (clipPolygon_pts ls.*2 lp.*2) as [f|[pp [r0|]]]; [done| |done].
    injection Er as ->.
    destruct Hc as (N & r' & lr & h' & HN & _ & _ & _ & Hr' & Elr & _).
    exists N, r', lr, h'. split_and!; [done..|].
    by rewrite Elr, Hr, copy_pts_Permutation.
Qed.

(** X18: when every vertex of the subject is LEFT of the edge at the cursor of
    the cutter, [clipPolygon] reports failure at that first edge: the cutter
    is returned with its cursor where it was, the caller's [result] is not
    assigned, and the heap is exactly as it was before the call. *)
Theorem clipPolygon_subject_left_of_first_edge h s ls p a c rest result :
  is_polygon h s ls → is_polygon h p ((a, c) :: rest) →
  (∀ x, x ∈ ls.*2 → Point_classify x (mkEdge c (hd c rest.*2)) = LEFT) →
  ∀ fuel, length ls ≤ fuel →
    clipPolygon fuel s p result h = Ret (p, result, false) h.
Proof.
  intros Hs Hp Hleft.
  destruct (Polygon_copy_spec h s ls Hs) as (q & h1 & lq & Ec & Hq & Elq & Hf1).
  assert (Hp1 : is_polygon h1 p ((a, c) :: rest)).
  { eapply frame_is_polygon; [exact Hf1| |done]. set_solver. }
  pose proof (Polygon_edge_spec h1 p a c rest Hp1) as Ee.
  pose proof (clipPolygonToEdge_refines h1 q lq (mkEdge c (hd c rest.*2)) Hq) as Hr.
  rewrite clipPolygonToEdge_pts_dropped in Hr
    by (intros x Hx; apply Hleft; apply (proj1 (elem_of_copy_pts _ _)); by rewrite <- Elq).
  destruct Hr as (r & h2 & lr & Er & Hq2 & _ & _ & _).
  change (0 <? Z.of_nat (length (@nil (Point F))))%Z with false in Er.
  destruct (Polygon_delete_spec h2 q lq Hq2) as (h3 & Ed & _).
  assert (Hlen : length lq = length ls).
  { rewrite <- (length_fmap snd), Elq, length_copy_pts. apply length_fmap. }
  assert (Hrun : ∀ fuel, length ls ≤ fuel →
    clipPolygon fuel s p result h = Ret (p, result, false) h3).
  { intros fuel Hfuel. unfold clipPolygon. rewrite (bind_Ret _ _ _ _ _ (Ec fuel Hfuel)).
    destruct Hp as (_ & Hsz & _). unfold Polygon_size. rewrite Hsz.
    rewrite Nat2Z.id. cbn [length clipPolygon_loop].
    unfold bind at 1. rewrite (bind_Ret _ _ _ _ _ Ee), (bind_Ret _ _ _ _ _ Er).
    cbv beta iota. cbn [negb].
    by rewrite (bind_Ret _ _ _ _ _ (Ed fuel ltac:(lia))). }
  assert (h3 = h) as ->; [|done].
  pose proof (clipPolygon_refines h s ls p _ result Hs Hp) as Hc.
  pose proof (Hrun (length ls) (Nat.le_refl _)) as E0.
  pose proof (clipPolygon_cells _ _ _ _ _ _ _ _ _ _ _ Hs Hp (Nat.le_refl _) E0) as Hcells.
  cbn iota in Hcells.
  apply heap_restored; [|lia]. intros b Hb.
  destruct (clipPolygon_pts _ _) as [f|[pp [r0|]]].
  - destruct Hc as [N HN]. specialize (HN (N `max` length ls) ltac:(lia)).
    rewrite Hrun in HN by lia. done.
  - destruct Hc as (N & r' & lr' & h' & HN & _).
    specialize (HN (N `max` length ls) ltac:(lia)). rewrite Hrun in HN by lia. done.
  - destruct Hc as (N & p' & h' & k & HN & _ & _ & _ & _ & Hf).
    specialize (HN (N `max` length ls) ltac:(lia)). rewrite Hrun in HN by lia.
    injection HN as _ <-. by eapply frame_old.
Qed.

End Trivial.

(** ** More polygons to run the properties on *)

Lemma exR_subject_ok : is_polygon exR_heap ex_subject exR_subject_ring.
Proof.
  split_and!; [done|done|done|]. simpl. split_and!.
  - apply (bool_decide_unpack _). vm_compute. exact I.
  - by vm_compute.
  - by vm_compute.
  - by vm_compute.
  - by vm_compute.
  - repeat constructor.
Qed.

Lemma exR_cutter_ok : is_polygon exR_heap ex_cutter exR_cutter_ring.
Proof.
  split_and!; [done|done|done|]. simpl. split_and!.
  - apply (bool_decide_unpack _). vm_compute. exact I.
  - by vm_compute.
  - by vm_compute.
  - by vm_compute.
  - by vm_compute.
  - repeat constructor.
Qed.

Lemma ex_far_ok : is_polygon ex_heap_far ex_far ex_far_ring.
Proof.
  split_and!; [done|done|done|]. simpl. split_and!.
  - apply (bool_decide_unpack _). vm_compute. exact I.
  - split; by vm_compute.
  - repeat constructor.
Qed.

Lemma ex_far_cutter_ok : is_polygon ex_heap_far ex_cutter ex_cutter_ring.
Proof.
  eapply is_polygon_frame; [|exact ex_cutter_ok].
  intros b Hb. unfold ex_heap_far. apply lookup_insert_ne.
  intros <-. revert Hb. apply (bool_decide_unpack _). vm_compute. exact I.
Qed.

Lemma ex_far_left :
  ∀ x, x ∈ ex_far_ring.*2 →
    Point_classify x (mkEdge (fpt 1 1) (hd (fpt 1 1) [fpt 1 3; fpt 3 3; fpt 3 1])) = LEFT.
Proof. intros x ->%list_elem_of_singleton. vm_compute. reflexivity. Qed.

Lemma ex_bound3 : (Z.of_nat (S (length [fpt 2 0; fpt 2 2])) ≤ INT_MAX)%Z.
Proof. unfold INT_MAX. simpl. lia. Qed.

Lemma ex_inner_vertex :
  ∀ e, e ∈ edges ex_cutter_ring.*2 → Point_classify (fpt 2 2) e ≠ LEFT.
Proof.
  apply Forall_forall. repeat constructor; vm_compute; discriminate.
Qed.

Lemma ex_self_inside :
  ∀ x e, x ∈ ex_subject_ring.*2 → e ∈ edges ex_subject_ring.*2 →
         Point_classify x e ≠ LEFT.
Proof.
  intros x e Hx. revert e. apply Forall_forall. revert x Hx. apply Forall_forall.
  repeat constructor; vm_compute; discriminate.
Qed.

(** Runs of the [try] block on binary64, by computation: the two squares
    from the empty heap, the two triangles of [virus.cpp] from the heap of
    the two squares, two triangles far apart, and two empty polygons. *)
Example handle_squares_run :
  handle 4 subject_square cutter_square ∅ = Ret (OK 4 (rotate 2 unit_square)) ∅.
Proof. vm_compute. reflexivity. Qed.

Example handle_triangles_run :
  ∃ l, handle 6 [fpt 0 0; fpt 2 0; fpt 1 3] [fpt 0 2; fpt 1 (-1); fpt 2 2] ex_heap
         = Ret (OK 6 l) ex_heap.
Proof. eexists. vm_compute. reflexivity. Qed.

Example handle_disjoint_run :
  handle 3 [fpt 0 0; fpt 2 0; fpt 1 3] [fpt 100 102; fpt 101 99; fpt 102 102] ∅
    = Ret FAIL ∅.
Proof. vm_compute. reflexivity. Qed.

Example handle_empty_run :
  handle 3 [] [] (∅ : gmap addr (Vertex float)) = Fail undefined_behaviour.
Proof. vm_compute. reflexivity. Qed.

(** ** The properties at work on these polygons *)

Lemma build_walks_reversed_witness :
  (Z.of_nat (S (length [fpt 2 0; fpt 2 2])) ≤ INT_MAX)%Z ∧
  ∃ P h' l',
    build [fpt 0 0; fpt 2 0; fpt 2 2] Polygon_new ex_heap = Ret P h' ∧
    is_polygon h' P l' ∧ _size P = 3%Z ∧
    (∀ fuel, 3 ≤ fuel → walk fuel P h' = Ret [fpt 0 0; fpt 2 2; fpt 2 0] h') ∧
    (∀ b, b ∈ l'.*1 → ex_heap !! b = None) ∧
    (∀ b, is_Some (ex_heap !! b) → h' !! b = ex_heap !! b).
Proof.
  split; [exact ex_bound3|].
  exact (build_walks_reversed ex_heap (fpt 0 0) [fpt 2 0; fpt 2 2] ex_bound3).
Defined.

Lemma ex_subject_inv : Polygon_inv ex_heap ex_subject.
Proof. exists ex_subject_ring. exact ex_subject_ok. Qed.

Lemma ex_subject_size : _size ex_subject ≠ 0%Z.
Proof. discriminate. Qed.

Lemma Polygon_advance_round_trip_witness :
  Polygon_inv ex_heap ex_subject ∧
  (let* Q := Polygon_advance ex_subject CLOCKWISE in
   Polygon_advance Q COUNTER_CLOCKWISE) ex_heap = Ret ex_subject ex_heap ∧
  (let* Q := Polygon_advance ex_subject COUNTER_CLOCKWISE in
   Polygon_advance Q CLOCKWISE) ex_heap = Ret ex_subject ex_heap.
Proof.
  split; [exact ex_subject_inv|].
  exact (proj2 (Polygon_advance_round_trip ex_heap ex_subject ex_subject_inv)
           ex_subject_size).
Defined.

Lemma ex_subject_ring_nonempty : ex_subject_ring ≠ [].
Proof. discriminate. Qed.

Lemma Polygon_destructor_frees_ring_witness :
  is_polygon ex_heap ex_subject ex_subject_ring ∧
  ∃ h',
    (∀ fuel, 4 ≤ fuel → Polygon_delete fuel ex_subject ex_heap = Ret tt h') ∧
    (∀ b, h' !! b = if decide (b ∈ ex_subject_ring.*1) then None else ex_heap !! b) ∧
    (ex_subject_ring ≠ [] →
     Polygon_edge ex_subject h' = Fail undefined_behaviour ∧
     Polygon_getPoint ex_subject h' = Fail undefined_behaviour ∧
     ∀ fuel, Polygon_delete fuel ex_subject h' = Fail undefined_behaviour).
Proof.
  split; [exact ex_subject_ok|].
  exact (Polygon_destructor_frees_ring ex_heap ex_subject ex_subject_ring
           ex_subject_ok).
Defined.

Lemma ex_bound_square : (Z.of_nat (length subject_square) ≤ INT_MAX)%Z.
Proof. unfold INT_MAX. simpl. lia. Qed.

Lemma ex_bound_cutter : (Z.of_nat (length cutter_square) ≤ INT_MAX)%Z.
Proof. unfold INT_MAX. simpl. lia. Qed.

Lemma build_then_destroy_restores_heap_witness :
  (Z.of_nat (length subject_square) ≤ INT_MAX)%Z ∧
  ∃ P h1,
    build subject_square Polygon_new ex_heap = Ret P h1 ∧
    ∀ fuel, 4 ≤ fuel → Polygon_delete fuel P h1 = Ret tt ex_heap.
Proof.
  split; [exact ex_bound_square|].
  exact (build_then_destroy_restores_heap ex_heap subject_square ex_bound_square).
Defined.

Lemma clipPolygonToEdge_vertices_witness :
  is_polygon ex_heap ex_subject ex_subject_ring ∧
  (clipPolygonToEdge ex_subject (fedge 1 1 1 3) ex_heap = Fail undefined_behaviour ∨
   ∃ r lr h',
     clipPolygonToEdge ex_subject (fedge 1 1 1 3) ex_heap
       = Ret (ex_subject, r, bool_decide (lr ≠ [])) h' ∧
     is_polygon h' r lr ∧
     (∀ x, x ∈ ex_subject_ring.*2 → Point_classify x (fedge 1 1 1 3) ≠ LEFT →
           x ∈ lr.*2) ∧
     (∀ x, x ∈ lr.*2 →
        (x ∈ ex_subject_ring.*2 ∧ Point_classify x (fedge 1 1 1 3) ≠ LEFT) ∨
        ∃ se, se ∈ edges ex_subject_ring.*2 ∧ crossing (fedge 1 1 1 3) se x) ∧
     length lr ≤ 2 * length ex_subject_ring).
Proof.
  split; [exact ex_subject_ok|].
  exact (clipPolygonToEdge_vertices ex_heap ex_subject ex_subject_ring
           (fedge 1 1 1 3) ex_subject_ok).
Defined.

Lemma ex_inner_in_subject : fpt 2 2 ∈ ex_subject_ring.*2.
Proof. simpl. set_solver. Qed.

Lemma clipPolygon_keeps_inner_vertices_witness :
  is_polygon ex_heap ex_subject ex_subject_ring ∧
  is_polygon ex_heap ex_cutter ex_cutter_ring ∧
  fpt 2 2 ∈ ex_subject_ring.*2 ∧
  (∀ e, e ∈ edges ex_cutter_ring.*2 → Point_classify (fpt 2 2) e ≠ LEFT) ∧
  ∃ N, ∀ fuel, N ≤ fuel →
    clipPolygon fuel ex_subject ex_cutter None ex_heap = Fail undefined_behaviour ∨
    ∃ r lr h',
      clipPolygon fuel ex_subject ex_cutter None ex_heap
        = Ret (ex_cutter, Some r, true) h' ∧
      is_polygon h' r lr ∧ fpt 2 2 ∈ lr.*2.
Proof.
  split_and!; [exact ex_subject_ok|exact ex_cutter_ok|exact ex_inner_in_subject|
               exact ex_inner_vertex|].
  exact (clipPolygon_keeps_inner_vertices ex_heap ex_subject ex_subject_ring
           ex_cutter ex_cutter_ring None (fpt 2 2) ex_subject_ok ex_cutter_ok
           ex_inner_in_subject ex_inner_vertex).
Defined.

Lemma clipPolygon_within_exact_witness :
  is_polygon exR_heap ex_subject exR_subject_ring ∧
  is_polygon exR_heap ex_cutter exR_cutter_ring ∧
  ∃ N, ∀ fuel, N ≤ fuel →
    clipPolygon fuel ex_subject ex_cutter None exR_heap = Fail undefined_behaviour ∨
    (∃ p' h', clipPolygon fuel ex_subject ex_cutter None exR_heap
                = Ret (p', None, false) h') ∨
    (∃ r lr h',
       clipPolygon fuel ex_subject ex_cutter None exR_heap
         = Ret (ex_cutter, Some r, true) h' ∧
       is_polygon h' r lr ∧
       ∀ x, x ∈ lr.*2 →
         (∀ e, e ∈ edges exR_cutter_ring.*2 → Point_classify x e ≠ LEFT) ∧
         (∀ g, (∀ y, y ∈ exR_subject_ring.*2 → Point_classify y g ≠ LEFT) →
               Point_classify x g ≠ LEFT)).
Proof.
  split_and!; [exact exR_subject_ok|exact exR_cutter_ok|].
  exact (clipPolygon_within_exact exR_heap ex_subject exR_subject_ring
           ex_cutter exR_cutter_ring None exR_subject_ok exR_cutter_ok).
Defined.

Lemma clipPolygon_frees_temporaries_witness :
  is_polygon ex_heap ex_subject ex_subject_ring ∧
  is_polygon ex_heap ex_cutter ex_cutter_ring ∧
  ∃ N, ∀ fuel, N ≤ fuel →
    clipPolygon fuel ex_subject ex_cutter None ex_heap = Fail undefined_behaviour ∨
    (∃ p', clipPolygon fuel ex_subject ex_cutter None ex_heap
             = Ret (p', None, false) ex_heap) ∨
    (∃ r lr h',
       clipPolygon fuel ex_subject ex_cutter None ex_heap
         = Ret (ex_cutter, Some r, true) h' ∧
       is_polygon h' r lr ∧
       (∀ b, b ∈ lr.*1 → ex_heap !! b = None) ∧
       (∀ b, b ∉ lr.*1 → h' !! b = ex_heap !! b)).
Proof.
  split_and!; [exact ex_subject_ok|exact ex_cutter_ok|].
  exact (clipPolygon_frees_temporaries ex_heap ex_subject ex_subject_ring
           ex_cutter ex_cutter_ring None ex_subject_ok ex_cutter_ok).
Defined.

Lemma handle_restores_heap_witness :
  (Z.of_nat (length subject_square) ≤ INT_MAX)%Z ∧
  (Z.of_nat (length cutter_square) ≤ INT_MAX)%Z ∧
  ∃ N, ∀ fuel, N ≤ fuel →
    handle fuel subject_square cutter_square ex_heap = Fail undefined_behaviour ∨
    ∃ response, handle fuel subject_square cutter_square ex_heap = Ret response ex_heap.
Proof.
  split_and!; [exact ex_bound_square|exact ex_bound_cutter|].
  exact (handle_restores_heap ex_heap subject_square cutter_square
           ex_bound_square ex_bound_cutter).
Defined.

Lemma handle_never_throws_runtime_error_witness :
  (Z.of_nat (length subject_square) ≤ INT_MAX)%Z ∧
  (Z.of_nat (length cutter_square) ≤ INT_MAX)%Z ∧
  ∃ N, ∀ fuel, N ≤ fuel →
    (∀ what,
       handle fuel subject_square cutter_square ex_heap ≠ Fail (runtime_error what)) ∧
    (handle fuel subject_square cutter_square ex_heap = Fail undefined_behaviour ∨
     handle fuel subject_square cutter_square ex_heap = Ret FAIL ex_heap ∨
     ∃ l, l ≠ [] ∧
       handle fuel subject_square cutter_square ex_heap
         = Ret (OK (Z.of_nat (length l)) l) ex_heap).
Proof.
  split_and!; [exact ex_bound_square|exact ex_bound_cutter|].
  exact (handle_never_throws_runtime_error ex_heap subject_square cutter_square
           ex_bound_square ex_bound_cutter).
Defined.

Lemma clipPolygon_empty_inputs_witness :
  is_polygon ex_heap ex_subject ex_subject_ring ∧
  is_polygon ex_heap Polygon_new [] ∧
  ∃ r lr h',
    (∀ fuel, 4 ≤ fuel →
       clipPolygon fuel ex_subject Polygon_new None ex_heap
         = Ret (Polygon_new, Some r, true) h') ∧
    is_polygon h' r lr ∧ lr.*2 = copy_pts ex_subject_ring.*2.
Proof.
  split_and!; [exact ex_subject_ok|exact (is_polygon_new ex_heap)|].
  exact (proj1 (clipPolygon_empty_inputs ex_heap ex_subject ex_subject_ring
                  Polygon_new [] None ex_subject_ok (is_polygon_new ex_heap))
           eq_refl).
Defined.

Lemma Polygon_copy_twice_restores_order_witness :
  is_polygon ex_heap ex_subject ex_subject_ring ∧ ex_subject_ring ≠ [] ∧
  ∃ P1 h1 P2 h2,
    ∀ fuel, 4 ≤ fuel →
      Polygon_copy fuel ex_subject ex_heap = Ret P1 h1 ∧
      Polygon_copy fuel P1 h1 = Ret P2 h2 ∧
      walk fuel ex_subject h2 = Ret ex_subject_ring.*2 h2 ∧
      walk fuel P2 h2 = Ret ex_subject_ring.*2 h2.
Proof.
  split_and!; [exact ex_subject_ok|exact ex_subject_ring_nonempty|].
  exact (Polygon_copy_twice_restores_order ex_heap ex_subject ex_subject_ring
           ex_subject_ok ex_subject_ring_nonempty).
Defined.

Lemma clipPolygon_subject_inside_witness :
  is_polygon ex_heap ex_subject ex_subject_ring ∧ ex_subject_ring ≠ [] ∧
  (∀ x e, x ∈ ex_subject_ring.*2 → e ∈ edges ex_subject_ring.*2 →
          Point_classify x e ≠ LEFT) ∧
  ∃ N r lr h',
    (∀ fuel, N ≤ fuel →
       clipPolygon fuel ex_subject ex_subject None ex_heap
         = Ret (ex_subject, Some r, true) h') ∧
    is_polygon h' r lr ∧ lr.*2 ≡ₚ ex_subject_ring.*2.
Proof.
  split_and!; [exact ex_subject_ok|exact ex_subject_ring_nonempty|
               exact ex_self_inside|].
  exact (clipPolygon_subject_inside ex_heap ex_subject ex_subject_ring
           ex_subject ex_subject_ring None ex_subject_ok ex_subject_ok
           ex_subject_ring_nonempty ex_self_inside).
Defined.

Lemma clipPolygon_subject_left_of_first_edge_witness :
  is_polygon ex_heap_far ex_far ex_far_ring ∧
  is_polygon ex_heap_far ex_cutter ex_cutter_ring ∧
  (∀ x, x ∈ ex_far_ring.*2 →
     Point_classify x (mkEdge (fpt 1 1) (hd (fpt 1 1) [fpt 1 3; fpt 3 3; fpt 3 1]))
       = LEFT) ∧
  ∀ fuel, 1 ≤ fuel →
    clipPolygon fuel ex_far ex_cutter None ex_heap_far
      = Ret (ex_cutter, None, false) ex_heap_far.
Proof.
  split_and!; [exact ex_far_ok|exact ex_far_cutter_ok|exact ex_far_left|].
  exact (clipPolygon_subject_left_of_first_edge ex_heap_far ex_far ex_far_ring
           ex_cutter 5%positive (fpt 1 1)
           [(8%positive, fpt 1 3); (7%positive, fpt 3 3); (6%positive, fpt 3 1)]
           None ex_far_ok ex_far_cutter_ok ex_far_left).
Defined.

(** * The two clipping loops, edge by edge

    [clipPolygonToEdge] runs its loop body once on each edge of the subject,
    in clockwise order from the cursor; [clipPolygon] clips against each edge
    of the cutter, in clockwise order from the cursor, until a step comes
    back empty. *)

Section Passes.
Context {F : Type} `{Double F}.
Implicit Types (h : gmap addr (Vertex F)).

(** [n] iterations of the loop of [clipPolygonToEdge] are [n] runs of the
    loop body, on the first [n] edges of the subject, and leave the cursor of
    the subject [n] vertices further. *)
Lemma clip_loop_run h s ls e n :
  is_polygon h s ls → n ≤ length ls →
  match clip_edges_pts (take n (edges ls.*2)) e [] with
  | inl f => clip_loop n s e Polygon_new h = Fail f
  | inr acc =>
      ∃ s' p' h' lp',
        clip_loop n s e Polygon_new h = Ret (s', p') h' ∧
        is_polygon h' s' (Nat.iter n rotate1 ls) ∧
        is_polygon h' p' lp' ∧ lp'.*2 = acc ∧
        ∀ b, is_Some (h !! b) → h' !! b = h !! b
  end.
Proof.
  intros Hs Hn.
  pose proof (clip_loop_refines n h s ls Polygon_new [] e Hs (is_polygon_new h)) as Hc.
  rewrite <- clip_loop_pts_edges by (by rewrite length_fmap).
  change ([].*2) with (@nil (Point F)) in Hc.
  destruct (clip_loop_pts n ls.*2 e []) as [f|acc]; [apply Hc; set_solver|].
  destruct Hc as (s' & p' & h' & lp' & E & Hs' & Hp' & El & Hf); [set_solver|].
  exists s', p', h', lp'. split_and!; [done..|].
  intros b Hb. by eapply frame_old.
Qed.

(** C9: [clipPolygonToEdge] visits the edges of the subject one by one and
    moves the cursor of the subject one vertex clockwise after each: [n]
    iterations of its loop, for [n] up to the number of vertices, run the
    loop body on the first [n] edges of the subject, clockwise from the
    cursor, and leave the subject standing for its ring rotated [n] times;
    the call is that loop run as many times as the subject has vertices; so
    it has run the loop body once on each edge, and it returns the subject
    with the cursor and the size it had, its ring and every other cell
    that was in the heap being as they were.  The call runs into undefined
    behaviour exactly when one of these runs of the loop body does. *)
Theorem clipPolygonToEdge_restores_subject h s ls e :
  is_polygon h s ls →
  (∀ n, n ≤ length ls →
     match clip_edges_pts (take n (edges ls.*2)) e [] with
     | inl f => clip_loop n s e Polygon_new h = Fail f
     | inr acc =>
         ∃ s' p' h' lp',
           clip_loop n s e Polygon_new h = Ret (s', p') h' ∧
           is_polygon h' s' (Nat.iter n rotate1 ls) ∧
           is_polygon h' p' lp' ∧ lp'.*2 = acc ∧
           ∀ b, is_Some (h !! b) → h' !! b = h !! b
     end) ∧
  clipPolygonToEdge s e h =
    (let* (s', p') := clip_loop (length ls) s e Polygon_new in
     ret (s', p', (0 <? Polygon_size p')%Z)) h ∧
  match clip_edges_pts (edges ls.*2) e [] with
  | inl f => clipPolygonToEdge s e h = Fail f
  | inr acc =>
      ∃ r lr h',
        clipPolygonToEdge s e h = Ret (s, r, bool_decide (acc ≠ [])) h' ∧
        is_polygon h' s ls ∧ (∀ b, is_Some (h !! b) → h' !! b = h !! b) ∧
        is_polygon h' r lr ∧ lr.*2 = acc
  end.
Proof.
  intros Hs.
  assert (Hcall : clipPolygonToEdge s e h =
    (let* (s', p') := clip_loop (length ls) s e Polygon_new in
     ret (s', p', (0 <? Polygon_size p')%Z)) h).
  { unfold clipPolygonToEdge, Polygon_size. destruct Hs as (_ & -> & _).
    by rewrite Nat2Z.id. }
  split_and!; [intros n Hn; by apply clip_loop_run|done|].
  pose proof (clip_loop_run h s ls e (length ls) Hs (Nat.le_refl _)) as Hc.
  rewrite <- (length_fmap snd), <- length_edges, firstn_all in Hc.
  rewrite length_edges, length_fmap in Hc.
  destruct (clip_edges_pts (edges ls.*2) e []) as [f|acc].
  { rewrite Hcall. by apply bind_Fail. }
  destruct Hc as (s' & p' & h' & lp' & E & Hs' & Hp' & El & Hold).
  rewrite iter_rotate1_length in Hs'.
  assert (s' = s) as -> by (eapply is_polygon_inj; [exact Hs'|exact Hs]).
  exists p', lp', h'. split_and!; [|done..].
  rewrite Hcall, (bind_Ret _ _ _ _ _ E). unfold ret, Polygon_size.
  destruct Hp' as (_ & -> & _). do 2 f_equal. subst acc.
  destruct lp'; [done|]. rewrite bool_decide_eq_true_2 by done.
  apply Z.ltb_lt. simpl length. lia.
Qed.

(** A run of the loop of [clipPolygon] that ends on the early [return] has
    made [k] steps that came back with a vertex and one that came back
    empty, and has moved the cursor of the cutter [k] times. *)
Lemma clipPolygon_loop_stop n : ∀ fuel h q lq p lp p' h',
  is_polygon h q lq → is_polygon h p lp → (∀ b, b ∈ lq.*1 → b ∉ lp.*1) →
  n ≤ length lp →
  clipPolygon_loop fuel n q p h = Ret (p', None) h' →
  ∃ k qk ek,
    k < n ∧
    clip_all_pts (take k (edges lp.*2)) lq.*2 = inr (Some qk) ∧
    edges lp.*2 !! k = Some ek ∧
    clipPolygonToEdge_pts qk ek = inr [] ∧
    is_polygon h' p' (Nat.iter k rotate1 lp).
Proof.
  induction n as [|n IH]; intros fuel h q lq p lp p' h' Hq Hp Hdisj Hn; simpl.
  { by intros [[= <-] <-]%ret_inv. }
  intros (e & h0 & Ee & E)%bind_inv.
  destruct lp as [|[a c] rest]; [simpl in Hn; lia|].
  rewrite (Polygon_edge_spec h p a c rest Hp) in Ee. injection Ee as <- <-.
  apply bind_inv in E as ([[q1 r] ok] & h1 & E1 & E).
  pose proof (clipPolygonToEdge_refines h q lq (mkEdge c (hd c rest.*2)) Hq) as Hc.
  destruct (clipPolygonToEdge_pts lq.*2 (mkEdge c (hd c rest.*2))) as [f|acc] eqn:Eacc;
    [congruence|].
  destruct Hc as (r0 & h1' & lr & E1' & Hq1 & Hr1 & <- & Hf1).
  rewrite E1 in E1'. injection E1' as -> <- Eok <-.
  assert (Hp1 : is_polygon h1 p ((a, c) :: rest)).
  { eapply frame_is_polygon; [exact Hf1| |done]. set_solver. }
  assert (Hlr : ∀ b, b ∈ lr.*1 → ¬ is_Some (h !! b)).
  { intros b Hb. destruct Hf1 as [_ Hx]. destruct (Hx b Hb) as [?|Hn']; [set_solver|].
    by rewrite <- elem_of_dom. }
  change (((a, c) :: rest).*2) with (c :: rest.*2). rewrite edges_cons.
  destruct ok; cbn [negb] in E.
  - apply bind_inv in E as ([] & h2 & E2 & E).
    destruct (Polygon_delete_ret _ _ _ _ _ Hq1 E2) as (Hd2 & _ & _).
    apply Polygon_delete_frame in Hd2 as Hf2.
    assert (Hp2 : is_polygon h2 p ((a, c) :: rest)).
    { eapply frame_is_polygon; [exact Hf2| |done]. intros b Hb Hb'. by eapply Hdisj. }
    assert (Hr2 : is_polygon h2 r lr).
    { eapply frame_is_polygon; [exact Hf2| |done]. intros b Hb Hb'.
      apply (Hlr b Hb). destruct Hq as (_ & _ & _ & Hr). by eapply ring_is_Some. }
    apply bind_inv in E as (p1 & h3 & Ea & E).
    destruct (Polygon_advance_spec _ _ _ _ _ Hp2) as (p1' & Ea' & Hp1').
    rewrite Ea in Ea'. injection Ea' as <- <-.
    assert (Hdisj' : ∀ b, b ∈ lr.*1 → b ∉ (rest ++ [(a, c)]).*1).
    { intros b Hb Hb'. apply (Hlr b Hb).
      destruct Hp as (_ & _ & _ & Hr). eapply ring_is_Some; [exact Hr|].
      rewrite fmap_app in Hb'. set_solver. }
    assert (Hn' : n ≤ length (rest ++ [(a, c)])).
    { rewrite length_app. simpl in *. lia. }
    destruct (IH _ _ _ _ _ _ _ _ Hr2 Hp1' Hdisj' Hn' E)
      as (k & qk & ek & Hk & Ek & Hek & Hqk & Hp').
    rewrite fmap_app in Ek, Hek.
    change (rest.*2 ++ [(a, c)].*2) with (rotate1 (c :: rest.*2)) in Ek, Hek.
    rewrite edges_rotate1, edges_cons in Ek, Hek. cbn [rotate1] in Ek, Hek.
    assert (Hkl : k < length (zip_with mkEdge rest.*2 (tail (rest.*2 ++ [c])))).
    { rewrite length_edges_tail, length_fmap. simpl in Hn. lia. }
    rewrite take_app_le in Ek by lia. rewrite lookup_app_l in Hek by done.
    exists (S k), qk, ek. split_and!; [lia| |done|done|by rewrite Nat.iter_succ_r].
    cbn [take clip_all_pts]. rewrite Eacc, <- Eok. done.
  - apply bind_inv in E as ([] & h2 & E2 & [[= <-] <-]%ret_inv).
    destruct (Polygon_delete_ret _ _ _ _ _ Hq1 E2) as (Hd2 & _ & _).
    apply Polygon_delete_frame in Hd2 as Hf2.
    assert (Hp2 : is_polygon h2 p ((a, c) :: rest)).
    { eapply frame_is_polygon; [exact Hf2| |done]. intros b Hb Hb'. by eapply Hdisj. }
    exists 0, lq.*2, (mkEdge c (hd c rest.*2)). split_and!; [lia|done|done| |done].
    rewrite Eacc. f_equal. destruct lr; [done|]. exfalso.
    symmetry in Eok. apply Z.ltb_ge in Eok. simpl length in Eok. lia.
Qed.

(** A pass that comes through its last edge has come through the edges
    before it, and ends on the polygon of the step on the last edge. *)
Lemma clip_all_pts_snoc E : ∀ (q : list (Point F)) e r,
  clip_all_pts (E ++ [e]) q = inr (Some r) →
  ∃ q', clip_all_pts E q = inr (Some q') ∧ clipPolygonToEdge_pts q' e = inr r.
Proof.
  induction E as [|a E IH]; intros q e r; simpl.
  - destruct (clipPolygonToEdge_pts q e) as [f|r1] eqn:E1; [done|].
    destruct (negb _); [done|]. intros [= ->]. by exists q.
  - destruct (clipPolygonToEdge_pts q a) as [f|r1]; [done|].
    destruct (negb _); [done|]. apply IH.
Qed.

(** C5: [clipPolygon] clips a copy of the subject against the edges of the
    cutter in turn, clockwise from the cursor of the cutter, each step being
    a call of [clipPolygonToEdge] on the polygon of the step before.  Inside
    its loop, a step whose call comes back with the flag false ends the loop
    at once, whatever the number of edges still to visit.  So the call reports
    failure exactly when some step comes back empty: at the first such step,
    after [k] steps that came back with a vertex, with the cursor of the
    cutter moved [k] times and no more, and with the caller's [result] as it
    was.  And it reports success exactly when every step comes back with a
    vertex: the polygon returned is then that of the step on the last edge
    (the copy of the subject when the cutter has no edge), and it has a
    vertex as soon as one of the two polygons has one. *)
Theorem clipPolygon_stops_at_empty_step h s ls p lp result :
  is_polygon h s ls → is_polygon h p lp →
  (∀ h0 q lq p0 e r h1 n,
     is_polygon h0 q lq → Polygon_edge p0 h0 = Ret e h0 →
     clipPolygonToEdge q e h0 = Ret (q, r, false) h1 →
     ∃ h2, ∀ fuel, length lq ≤ fuel →
       clipPolygon_loop fuel (S n) q p0 h0 = Ret (p0, None) h2) ∧
  (∀ h0 q lq e,
     is_polygon h0 q lq →
     match clipPolygonToEdge_pts lq.*2 e with
     | inl f => clipPolygonToEdge q e h0 = Fail f
     | inr acc =>
         ∃ r h1 lr,
           clipPolygonToEdge q e h0 = Ret (q, r, bool_decide (acc ≠ [])) h1 ∧
           is_polygon h1 r lr ∧ lr.*2 = acc
     end) ∧
  ∃ N, ∀ fuel, N ≤ fuel →
    match clip_all_pts (edges lp.*2) (copy_pts ls.*2) with
    | inl f => clipPolygon fuel s p result h = Fail f
    | inr None =>
        ∃ k qk ek p' h',
          clip_all_pts (take k (edges lp.*2)) (copy_pts ls.*2) = inr (Some qk) ∧
          edges lp.*2 !! k = Some ek ∧
          clipPolygonToEdge_pts qk ek = inr [] ∧
          clipPolygon fuel s p result h = Ret (p', result, false) h' ∧
          is_polygon h' p' (Nat.iter k rotate1 lp)
    | inr (Some r) =>
        ∃ r' lr h',
          clipPolygon fuel s p result h = Ret (p, Some r', true) h' ∧
          is_polygon h' r' lr ∧ lr.*2 = r ∧
          (∀ E e, edges lp.*2 = E ++ [e] →
             ∃ q, clip_all_pts E (copy_pts ls.*2) = inr (Some q) ∧
                  clipPolygonToEdge_pts q e = inr r) ∧
          (lp ≠ [] ∨ ls ≠ [] → lr ≠ [] ∧ (0 < _size r')%Z)
    end.
Proof.
  intros Hs Hp. split_and!.
  - intros h0 q lq p0 e r h1 n Hq Ee Ec.
    pose proof (clipPolygonToEdge_refines h0 q lq e Hq) as Hr.
    destruct (clipPolygonToEdge_pts _ _) as [f|acc]; [congruence|].
    destruct Hr as (r' & h1' & lr & E1 & Hq1 & _).
    rewrite Ec in E1. injection E1 as <- _ <-.
    destruct (Polygon_delete_spec h1 q lq Hq1) as (h2 & E2 & _).
    exists h2. intros fuel Hfuel. simpl.
    rewrite (bind_Ret _ _ _ _ _ Ee), (bind_Ret _ _ _ _ _ Ec). cbv beta iota. cbn [negb].
    by rewrite (bind_Ret _ _ _ _ _ (E2 fuel Hfuel)).
  - intros h0 q lq e Hq.
    pose proof (clipPolygonToEdge_refines h0 q lq e Hq) as Hr.
    destruct (clipPolygonToEdge_pts _ _) as [f|acc]; [done|].
    destruct Hr as (r & h1 & lr & E1 & _ & Hr1 & El & _).
    exists r, h1, lr. split_and!; [|done..].
    rewrite E1. do 2 f_equal. destruct acc; [done|].
    rewrite bool_decide_eq_true_2 by done. apply Z.ltb_lt. simpl length. lia.
  - pose proof (clipPolygon_refines h s ls p lp result Hs Hp) as Hc.
    pose proof (clipPolygon_pts_edges ls.*2 lp.*2) as Hpass.
    destruct (clipPolygon_pts ls.*2 lp.*2) as [f|[pp [r|]]] eqn:E;
      simpl in Hpass; rewrite <- Hpass.
    + done.
    + destruct Hc as (N & r' & lr & h' & HN & _ & _ & _ & Hr & Elr & _).
      exists N. intros fuel Hfuel. exists r', lr, h'.
      split_and!; [by apply HN|done..| |].
      { intros E0 e0 HE. apply clip_all_pts_snoc. by rewrite <- HE, <- Hpass. }
      intros Hne.
      assert (lr ≠ []) as Hlr.
      { intros ->. simpl in Elr. subst r.
        eapply clipPolygon_pts_nonempty; [|exact E|done].
        destruct Hne as [Hne|Hne]; [left|right]; intros E0;
          apply fmap_nil_inv in E0; done. }
      split; [done|]. destruct Hr as (_ & -> & _). destruct lr; [done|]. simpl. lia.
    + destruct Hc as (N & p' & h' & k0 & HN & _).
      destruct (Polygon_copy_spec h s ls Hs) as (q & h1 & lq & Ec & Hq & Elq & Hf1).
      assert (Hp1 : is_polygon h1 p lp).
      { eapply frame_is_polygon; [exact Hf1| |done]. set_solver. }
      assert (Hdisj : ∀ b, b ∈ lq.*1 → b ∉ lp.*1).
      { intros b Hb Hb'. apply (frame_new_free _ _ _ _ Hf1) in Hb.
        destruct Hp as (_ & _ & _ & Hr). apply (ring_is_Some _ _ _ Hr) in Hb'.
        rewrite Hb in Hb'. by destruct Hb'. }
      set (M := N `max` length ls).
      pose proof (HN M ltac:(lia)) as EM. unfold clipPolygon in EM.
      rewrite (bind_Ret _ _ _ _ _ (Ec M ltac:(lia))) in EM.
      apply bind_inv in EM as ([p1 r1] & h2 & El & EM).
      destruct r1 as [q1|]; apply ret_inv in EM as [[= ->] ->].
      assert (Hlen : Z.to_nat (Polygon_size p) = length lp).
      { unfold Polygon_size. destruct Hp as (_ & -> & _). lia. }
      rewrite Hlen in El.
      destruct (clipPolygon_loop_stop _ _ _ _ _ _ _ _ _ Hq Hp1 Hdisj (Nat.le_refl _) El)
        as (k & qk & ek & Hk & Ek & Hek & Hqk & Hp').
      rewrite Elq in Ek.
      exists N. intros fuel Hfuel. exists k, qk, ek, p', h'.
      split_and!; [done..|by apply HN|done].
Qed.

End Passes.

(** The subject square is clipped by the edge from (1,1) to (1,3) into the
    four points below, and comes back as it was. *)
Lemma clipPolygonToEdge_restores_subject_witness :
  is_polygon ex_heap ex_subject ex_subject_ring ∧
  ∃ r lr h',
    clipPolygonToEdge ex_subject (fedge 1 1 1 3) ex_heap
      = Ret (ex_subject, r, true) h' ∧
    is_polygon h' ex_subject ex_subject_ring ∧
    (∀ b, is_Some (ex_heap !! b) → h' !! b = ex_heap !! b) ∧
    is_polygon h' r lr ∧ lr.*2 = [fpt 1 2; fpt 1 0; fpt 2 0; fpt 2 2].
Proof.
  split; [exact ex_subject_ok|].
  exact (proj2 (proj2 (clipPolygonToEdge_restores_subject ex_heap ex_subject
                         ex_subject_ring (fedge 1 1 1 3) ex_subject_ok))).
Defined.

(** The polygon at (-5,1) is emptied by the first edge of the cutter
    square: the call fails there. *)
Lemma clipPolygon_stops_at_empty_step_witness :
  is_polygon ex_heap_far ex_far ex_far_ring ∧
  is_polygon ex_heap_far ex_cutter ex_cutter_ring ∧
  ∃ N, ∀ fuel, N ≤ fuel →
    ∃ k qk ek p' h',
      clip_all_pts (take k (edges ex_cutter_ring.*2)) (copy_pts ex_far_ring.*2)
        = inr (Some qk) ∧
      edges ex_cutter_ring.*2 !! k = Some ek ∧
      clipPolygonToEdge_pts qk ek = inr [] ∧
      clipPolygon fuel ex_far ex_cutter None ex_heap_far = Ret (p', None, false) h' ∧
      is_polygon h' p' (Nat.iter k rotate1 ex_cutter_ring).
Proof.
  split_and!; [exact ex_far_ok|exact ex_far_cutter_ok|].
  exact (proj2 (proj2 (clipPolygon_stops_at_empty_step ex_heap_far ex_far ex_far_ring
                         ex_cutter ex_cutter_ring None ex_far_ok ex_far_cutter_ok))).
Defined.

(** C6 as stated fails on binary64, where the sign that decides is that of
    the cross product as computed, each difference and each product being
    rounded.  The point (1, 5.175) is classified RIGHT of the edge from
    (2.2, 9.3) to (0.6, 3.8), while the cross product of the binary64 values
    of these coordinates, which the first five equations give, is positive;
    the point (-7,-8) is classified LEFT of the edge from
    (9007199254740976, 9007199254740987) to (8,7), while the cross product is
    -180; and the point (134217728, 134217727) is classified BETWEEN the ends
    of the edge from (0,0) to (134217729, 134217728), while the cross product
    is -1. *)
Lemma classify_rounding_counterexample :
  ((Prim2SF 0x1.4b33333333333p+2 = S754_finite false 5826532017910579 (-50) ∧
    Prim2SF 0x1.199999999999ap+1 = S754_finite false 4953959590107546 (-51) ∧
    Prim2SF 0x1.299999999999ap+3 = S754_finite false 5235434566818202 (-49) ∧
    Prim2SF 0x1.3333333333333p-1 = S754_finite false 5404319552844595 (-53) ∧
    Prim2SF 0x1.e666666666666p+1 = S754_finite false 8556839292003942 (-51)) ∧
   Point_classify (fpt 1 0x1.4b33333333333p+2)
     (fedge 0x1.199999999999ap+1 0x1.299999999999ap+3
            0x1.3333333333333p-1 0x1.e666666666666p+1) = RIGHT ∧
   Point_classify (rpt 1 (5826532017910579 / 2 ^ 50))
     (mkEdge (rpt (4953959590107546 / 2 ^ 51) (5235434566818202 / 2 ^ 49))
             (rpt (5404319552844595 / 2 ^ 53) (8556839292003942 / 2 ^ 51))) = LEFT) ∧
  (Point_classify (fpt (-7) (-8))
     (fedge 9007199254740976 9007199254740987 8 7) = LEFT ∧
   Point_classify (rpt (-7) (-8))
     (mkEdge (rpt 9007199254740976 9007199254740987) (rpt 8 7)) = RIGHT) ∧
  (Point_classify (fpt 134217728 134217727) (fedge 0 0 134217729 134217728) = BETWEEN ∧
   Point_classify (rpt 134217728 134217727)
     (mkEdge (rpt 0 0) (rpt 134217729 134217728)) = RIGHT).
Proof.
  split_and!; try (vm_compute; reflexivity).
  - apply classify_LEFT_exact. unfold sa, rpt. simpl x. simpl y. simpl org. simpl dest.
    cbn [dsub dmul exact]. lra.
  - apply classify_RIGHT_exact. unfold sa, rpt. simpl. lra.
  - apply classify_RIGHT_exact. unfold sa, rpt. simpl. lra.
Qed.
